(** * Keyboard layout analyzer: scoring engine and annealing search

    A shallow embedding of [cmd/kbda/calculator.go], [cmd/kbda/types.go],
    of the search file (simulated annealing over layouts) and of the two
    replacement functions of the layout store, with the properties of the
    specification stated and settled against it, followed by further
    properties of the same code.

    Conventions of the embedding.
    - [float64] values are modelled by exact rationals [Q]; equalities
      between computed numbers are stated with [==].  Rounding, NaN,
      infinities and what a division by zero yields are outside the model.
      Where rounding decides a property of the specification, the
      statements concerned are read a second time in IEEE 754 binary64
      (module [Binary64]).
    - A Go [string] is modelled by the sequence of runes that [[]rune(s)]
      yields (strings are taken to be valid UTF-8).
    - Go [int] is [Z]; loop counters and array indices that range over the
      fixed grid are [nat].
    - Fixed-size arrays are lists; reads outside a list give the zero value,
      which the loops of the program (rows 0..2, columns 0..9) never do on
      a well-sized array.
    - Go maps are [gmap]s; [range] over a map is a fold over
      [map_to_list].  Where the order of the visit shows in the result
      ([generateRandomLayout]), the order is a parameter of the model.
    - [rand.Shuffle] is the exchange loop of Go's library, drawing from the
      same tape as [rand.Intn].
    - The global random source is an explicit tape of draws, threaded through
      the search by a state monad; [unicode.IsUpper], [unicode.ToLower] and
      [math.Exp] are the members of a class, so that what is proved holds
      for Go's own tables. *)

From Stdlib Require Import ZArith QArith Qabs Lia Lqa Floats.
From stdpp Require Import gmap strings list fin_maps sorting.

Local Open Scope Q_scope.

(** ** Numbers *)

Definition Qltb (x y : Q) : bool :=
  (Qnum x * QDen y <? Qnum y * QDen x)%Z.

(** ** Strings *)

Definition rune := N.
Definition gostring := list rune.

(** [str "ab"] is the Go string literal ["ab"]. *)
Fixpoint str (s : string) : gostring :=
  match s with
  | EmptyString => []
  | String a s' => Ascii.N_of_ascii a :: str s'
  end.

(** ** types.go *)

Record LanguageData := {
  Language : gostring;
  Characters : gmap gostring Q;
  Bigrams : gmap gostring Q
}.

Record BigramIndividualCoeff := {
  Pos1 : Z;
  Pos2 : Z;
  Coeff : Q
}.

(** The weights read by the scoring engine.  The legacy fields of the Go
    struct that no modelled function reads (Effort, HandSwitch, SameFinger,
    SameFingerJump, Inroll, Outroll, MaxRowEffort1..3, RowPenalty1..3) are
    left out. *)
Record WeightConfig := {
  wSHB : Q; wSFB : Q; wHVB : Q; wFVB : Q; wHDB : Q; wFDB : Q; wHFB : Q;
  wHSB : Q; wFSB : Q; wLSB : Q; wSRB : Q; wAFI : Q; wAFO : Q;
  wHDI : Q; wFDI : Q;
  D18 : Q; D27 : Q; D36 : Q; D45 : Q;
  HSBStrictMode : Z; FSBStrictMode : Z; LSBStrictMode : Z;
  TotalEffortNorm : Q
}.

Record KeyboardConfig := {
  EffortMatrix : list (list Q);
  FixedPositions : list (list gostring);
  MaxFingerEfforts : list Q;
  FingerEffortPenalties : list Q;
  MaxRowEfforts : list Q;
  RowEffortPenalties : list Q;
  Weights : WeightConfig;
  BigramIndividualCoeffs : list BigramIndividualCoeff
}.

Record Layout := {
  Name : gostring;
  Keys : list (list gostring);
  PreComments : list gostring;
  PostComments : list gostring
}.

Record BigramAnalysis := {
  SHB : Q; SFB : Q; HVB : Q; FVB : Q; HDB : Q; FDB : Q; HFB : Q;
  HSB : Q; FSB : Q; LSB : Q; SRB : Q; AFI : Q; AFO : Q;
  HSB2 : Q; FSB2 : Q; LSB2 : Q; SKB : Q; TIB : Q
}.

(** [LayoutIndex] and the back pointer [Config] of the Go struct are set and
    read by the command shell only and are left out. *)
Record LayoutAnalysis := {
  LayoutName : gostring;
  TotalEffort : Q;
  EffortByRow : list Q;
  EffortByFinger : list Q;
  EffortByHalf : list Q;
  Bigram : BigramAnalysis;
  HDI : Q;
  FDI : Q;
  MEP : Q;
  WeightedScore : Q
}.

(** Array reads: [a[i]] on a float array, [m[row][col]] on a grid. *)
Definition at_ (a : list Q) (i : nat) : Q := default 0 (a !! i).

Definition grid {A} (d : A) (m : list (list A)) (row col : nat) : A :=
  default d (m !! row ≫= fun r => r !! col).

Definition key (l : Layout) (row col : nat) : gostring := grid [] (Keys l) row col.

(** [a[i] += x] *)
Definition bump (a : list Q) (i : nat) (x : Q) : list Q := <[i := at_ a i + x]> a.

(** The grid positions in the order of the nested [for row... for col...] loops. *)
Definition positions : list (nat * nat) :=
  r ← seq 0 3; c ← seq 0 10; [(r, c)].

(** ** calculator.go: topology *)

Definition fingerMap : list nat := [0; 1; 2; 3; 3; 4; 4; 5; 6; 7]%nat.

Definition getFingerForKey (row col : nat) : nat := default 0%nat (fingerMap !! col).

Definition getHalf (col : nat) : nat := if (col <? 5)%nat then 0%nat else 1%nat.

Definition abs (x : Z) : Z := if (x <? 0)%Z then (- x)%Z else x.

(** ** calculator.go: AnalyzeLayout *)

(** The inverse index character -> (row, col): a later cell in row-major
    order overwrites an earlier one holding the same string. *)
Definition buildKeyPos (layout : Layout) : gmap gostring (nat * nat) :=
  foldl (fun m '(row, col) =>
           let k := key layout row col in
           if decide (k = []) then m else <[k := (row, col)]> m)
        ∅ positions.

(** Field updates of [LayoutAnalysis] ([analysis.F = v]). *)
Definition set_TotalEffort (v : Q) (a : LayoutAnalysis) : LayoutAnalysis :=
  {| LayoutName := LayoutName a; TotalEffort := v; EffortByRow := EffortByRow a;
     EffortByFinger := EffortByFinger a; EffortByHalf := EffortByHalf a;
     Bigram := Bigram a; HDI := HDI a; FDI := FDI a; MEP := MEP a;
     WeightedScore := WeightedScore a |}.

Definition set_EffortByRow (v : list Q) (a : LayoutAnalysis) : LayoutAnalysis :=
  {| LayoutName := LayoutName a; TotalEffort := TotalEffort a; EffortByRow := v;
     EffortByFinger := EffortByFinger a; EffortByHalf := EffortByHalf a;
     Bigram := Bigram a; HDI := HDI a; FDI := FDI a; MEP := MEP a;
     WeightedScore := WeightedScore a |}.

Definition set_EffortByFinger (v : list Q) (a : LayoutAnalysis) : LayoutAnalysis :=
  {| LayoutName := LayoutName a; TotalEffort := TotalEffort a; EffortByRow := EffortByRow a;
     EffortByFinger := v; EffortByHalf := EffortByHalf a;
     Bigram := Bigram a; HDI := HDI a; FDI := FDI a; MEP := MEP a;
     WeightedScore := WeightedScore a |}.

Definition set_EffortByHalf (v : list Q) (a : LayoutAnalysis) : LayoutAnalysis :=
  {| LayoutName := LayoutName a; TotalEffort := TotalEffort a; EffortByRow := EffortByRow a;
     EffortByFinger := EffortByFinger a; EffortByHalf := v;
     Bigram := Bigram a; HDI := HDI a; FDI := FDI a; MEP := MEP a;
     WeightedScore := WeightedScore a |}.

Definition set_Bigram (v : BigramAnalysis) (a : LayoutAnalysis) : LayoutAnalysis :=
  {| LayoutName := LayoutName a; TotalEffort := TotalEffort a; EffortByRow := EffortByRow a;
     EffortByFinger := EffortByFinger a; EffortByHalf := EffortByHalf a;
     Bigram := v; HDI := HDI a; FDI := FDI a; MEP := MEP a;
     WeightedScore := WeightedScore a |}.

Definition set_HDI (v : Q) (a : LayoutAnalysis) : LayoutAnalysis :=
  {| LayoutName := LayoutName a; TotalEffort := TotalEffort a; EffortByRow := EffortByRow a;
     EffortByFinger := EffortByFinger a; EffortByHalf := EffortByHalf a;
     Bigram := Bigram a; HDI := v; FDI := FDI a; MEP := MEP a;
     WeightedScore := WeightedScore a |}.

Definition set_FDI (v : Q) (a : LayoutAnalysis) : LayoutAnalysis :=
  {| LayoutName := LayoutName a; TotalEffort := TotalEffort a; EffortByRow := EffortByRow a;
     EffortByFinger := EffortByFinger a; EffortByHalf := EffortByHalf a;
     Bigram := Bigram a; HDI := HDI a; FDI := v; MEP := MEP a;
     WeightedScore := WeightedScore a |}.

Definition set_MEP (v : Q) (a : LayoutAnalysis) : LayoutAnalysis :=
  {| LayoutName := LayoutName a; TotalEffort := TotalEffort a; EffortByRow := EffortByRow a;
     EffortByFinger := EffortByFinger a; EffortByHalf := EffortByHalf a;
     Bigram := Bigram a; HDI := HDI a; FDI := FDI a; MEP := v;
     WeightedScore := WeightedScore a |}.

Definition set_WeightedScore (v : Q) (a : LayoutAnalysis) : LayoutAnalysis :=
  {| LayoutName := LayoutName a; TotalEffort := TotalEffort a; EffortByRow := EffortByRow a;
     EffortByFinger := EffortByFinger a; EffortByHalf := EffortByHalf a;
     Bigram := Bigram a; HDI := HDI a; FDI := FDI a; MEP := MEP a;
     WeightedScore := v |}.

(** *** calculateEffort *)

(** First loop: [totalEffort] and [totalFreq] over the characters that
    have a position. *)
Definition effortTotals (config : KeyboardConfig) (keyPos : gmap gostring (nat * nat))
    (chars : list (gostring * Q)) : Q * Q :=
  foldl (fun '(totalEffort, totalFreq) '(char, freq) =>
           match keyPos !! char with
           | None => (totalEffort, totalFreq)
           | Some (row, col) =>
               (totalEffort + grid 0 (EffortMatrix config) row col * freq,
                totalFreq + freq)
           end) (0, 0) chars.

Definition uniformEffort (config : KeyboardConfig) : Q :=
  foldl (fun u '(row, col) => u + grid 0 (EffortMatrix config) row col) 0 positions / 30.

(** Second to fourth loop: frequency mass per row, finger and half.  (The
    Go code also accumulates [rowTotalEfforts], which nothing reads.) *)
Definition rowTotalFreqs (keyPos : gmap gostring (nat * nat))
    (chars : list (gostring * Q)) : list Q :=
  foldl (fun acc '(char, freq) =>
           match keyPos !! char with
           | None => acc
           | Some (row, col) => bump acc row freq
           end) (replicate 3 0) chars.

Definition fingerFreqs (keyPos : gmap gostring (nat * nat))
    (chars : list (gostring * Q)) : list Q :=
  foldl (fun acc '(char, freq) =>
           match keyPos !! char with
           | None => acc
           | Some (row, col) =>
               let f := getFingerForKey row col in
               if (f <? 8)%nat then bump acc f freq else acc
           end) (replicate 8 0) chars.

Definition halfFreqs (keyPos : gmap gostring (nat * nat))
    (chars : list (gostring * Q)) : list Q :=
  foldl (fun acc '(char, freq) =>
           match keyPos !! char with
           | None => acc
           | Some (row, col) => bump acc (getHalf col) freq
           end) (replicate 2 0) chars.

(** [for i := 0; i < n; i++ { dst[i] = (src[i] / total) * 100 }] *)
Definition percentages (n : nat) (src : list Q) (total : Q) (dst : list Q) : list Q :=
  foldl (fun d i => <[i := (at_ src i / total) * 100]> d) dst (seq 0 n).

Definition calculateEffort (layout : Layout) (config : KeyboardConfig)
    (langData : LanguageData) (keyPos : gmap gostring (nat * nat))
    (analysis : LayoutAnalysis) : LayoutAnalysis :=
  let chars := map_to_list (Characters langData) in
  let '(totalEffort, totalFreq) := effortTotals config keyPos chars in
  let analysis :=
    if Qltb 0 totalFreq then
      let avgEffort := totalEffort / totalFreq in
      set_TotalEffort (avgEffort / uniformEffort config * 100) analysis
    else analysis in
  let analysis :=
    if Qltb 0 totalFreq then
      set_EffortByRow
        (percentages 3 (rowTotalFreqs keyPos chars) totalFreq (EffortByRow analysis)) analysis
    else analysis in
  let analysis :=
    if Qltb 0 totalFreq then
      set_EffortByFinger
        (percentages 8 (fingerFreqs keyPos chars) totalFreq (EffortByFinger analysis)) analysis
    else analysis in
  if Qltb 0 totalFreq then
    set_EffortByHalf
      (percentages 2 (halfFreqs keyPos chars) totalFreq (EffortByHalf analysis)) analysis
  else analysis.

(** *** calculateBigrams *)

(** The local accumulators of the bigram loop; [tib] stands for
    [analysis.BigramAnalysis.TIB], which the loop updates in place. *)
Record BigramCounters := {
  shb : Q; sfb : Q; hvb : Q; fvb : Q; hdb : Q; fdb : Q; hfb : Q;
  hsb : Q; fsb : Q; lsb : Q; srb : Q; afi : Q; afo : Q;
  hsb2 : Q; fsb2 : Q; lsb2 : Q; skb : Q;
  totalBigramFreq : Q;
  tib : Q
}.

(** [if c { acc += freq }] *)
Definition addIf (c : bool) (acc freq : Q) : Q := if c then acc + freq else acc.

Definition isSpecial (finger : nat) : bool :=
  (finger =? 1)%nat || (finger =? 2)%nat || (finger =? 5)%nat || (finger =? 6)%nat.

Definition notCenter (col : nat) : bool := negb (col =? 4)%nat && negb (col =? 5)%nat.

Definition isSameHand (col1 col2 : nat) : bool :=
  let leftHandCols1 := (0 <=? col1)%nat && (col1 <=? 3)%nat in
  let rightHandCols1 := (6 <=? col1)%nat && (col1 <=? 9)%nat in
  let leftHandCols2 := (0 <=? col2)%nat && (col2 <=? 3)%nat in
  let rightHandCols2 := (6 <=? col2)%nat && (col2 <=? 9)%nat in
  (leftHandCols1 && leftHandCols2) || (rightHandCols1 && rightHandCols2).

Definition rowDiff (row1 row2 : nat) : Z := abs (Z.of_nat row1 - Z.of_nat row2).
Definition colDiff (col1 col2 : nat) : Z := abs (Z.of_nat col1 - Z.of_nat col2).

(** The geometric conditions guarding the HSB, FSB and LSB blocks. *)
Definition hsbPattern (row1 col1 row2 col2 : nat) : bool :=
  isSameHand col1 col2
  && negb (getFingerForKey row1 col1 =? getFingerForKey row2 col2)%nat
  && (rowDiff row1 row2 =? 1)%Z && notCenter col1 && notCenter col2.

Definition fsbPattern (row1 col1 row2 col2 : nat) : bool :=
  isSameHand col1 col2
  && negb (getFingerForKey row1 col1 =? getFingerForKey row2 col2)%nat
  && (rowDiff row1 row2 =? 2)%Z
  && (((row1 =? 0)%nat && (row2 =? 2)%nat) || ((row1 =? 2)%nat && (row2 =? 0)%nat))
  && notCenter col1 && notCenter col2.

Definition isLSBPattern (col1 col2 : nat) : bool :=
  ((col1 =? 2)%nat && (col2 =? 4)%nat) || ((col1 =? 4)%nat && (col2 =? 2)%nat)
  || ((col1 =? 5)%nat && (col2 =? 7)%nat) || ((col1 =? 7)%nat && (col2 =? 5)%nat).

Definition isHSBValid (row1 col1 row2 col2 : nat) : bool :=
  let lowerRow := if (row1 <? row2)%nat then row2 else row1 in
  ((lowerRow =? row1)%nat && isSpecial (getFingerForKey row1 col1))
  || ((lowerRow =? row2)%nat && isSpecial (getFingerForKey row2 col2)).

Definition isFSBValid (row1 col1 row2 col2 : nat) : bool :=
  ((row1 =? 2)%nat && isSpecial (getFingerForKey row1 col1))
  || ((row2 =? 2)%nat && isSpecial (getFingerForKey row2 col2)).

Definition isLSBValid (row1 col1 row2 col2 : nat) : bool :=
  let finger1 := getFingerForKey row1 col1 in
  let finger2 := getFingerForKey row2 col2 in
  let finger1IsIndex := (finger1 =? 1)%nat || (finger1 =? 4)%nat in
  let finger2IsMiddle := (finger2 =? 2)%nat || (finger2 =? 5)%nat in
  let finger2IsIndex := (finger2 =? 1)%nat || (finger2 =? 4)%nat in
  let finger1IsMiddle := (finger1 =? 2)%nat || (finger1 =? 5)%nat in
  (finger1IsIndex && finger2IsMiddle) || (finger2IsIndex && finger1IsMiddle).

(** [if pattern { if strict == 1 { if valid { a += f } else { b += f } } else { a += f } }],
    returning the primary and the secondary bucket. *)
Definition strictSplit (pattern : bool) (strictMode : Z) (valid : bool)
    (primary secondary freq : Q) : Q * Q :=
  if pattern then
    if (strictMode =? 1)%Z then
      if valid then (primary + freq, secondary) else (primary, secondary + freq)
    else (primary + freq, secondary)
  else (primary, secondary).

Definition centerDist (col : nat) : Q := Qabs (inject_Z (Z.of_nat col) - (9 # 2)).

(** The AFI/AFO block, returning the new [afi] and [afo]. *)
Definition afSplit (row1 col1 row2 col2 : nat) (afi afo freq : Q) : Q * Q :=
  if (row1 =? row2)%nat && (colDiff col1 col2 =? 1)%Z then
    if Qltb (centerDist col2) (centerDist col1) then (afi + freq, afo)
    else if Qltb (centerDist col1) (centerDist col2) then (afi, afo + freq)
    else (afi, afo)
  else (afi, afo).

(** The inner loop over the individual coefficients. *)
Definition addTIB (config : KeyboardConfig) (row1 col1 row2 col2 : nat)
    (freq : Q) (t : Q) : Q :=
  let pos1Num := (Z.of_nat row1 * 10 + Z.of_nat col1 + 1)%Z in
  let pos2Num := (Z.of_nat row2 * 10 + Z.of_nat col2 + 1)%Z in
  foldl (fun t coeff =>
           if (Pos1 coeff =? pos1Num - 1)%Z && (Pos2 coeff =? pos2Num - 1)%Z
           then t + freq * Coeff coeff else t)
        t (BigramIndividualCoeffs config).

(** The body of the bigram loop once both characters are known to be placed. *)
Definition classify (config : KeyboardConfig) (char1 char2 : gostring)
    (pos1 pos2 : nat * nat) (freq : Q) (c : BigramCounters) : BigramCounters :=
  let '(row1, col1) := pos1 in
  let '(row2, col2) := pos2 in
  let sameHalf := (getHalf col1 =? getHalf col2)%nat in
  let sameFinger := (getFingerForKey row1 col1 =? getFingerForKey row2 col2)%nat in
  let rowDiff := rowDiff row1 row2 in
  let colDiff := colDiff col1 col2 in
  let w := Weights config in
  let hs := strictSplit (sameHalf && hsbPattern row1 col1 row2 col2) (HSBStrictMode w)
              (isHSBValid row1 col1 row2 col2) (hsb c) (hsb2 c) freq in
  let fs := strictSplit (sameHalf && fsbPattern row1 col1 row2 col2) (FSBStrictMode w)
              (isFSBValid row1 col1 row2 col2) (fsb c) (fsb2 c) freq in
  let ls := strictSplit (sameHalf && isLSBPattern col1 col2) (LSBStrictMode w)
              (isLSBValid row1 col1 row2 col2) (lsb c) (lsb2 c) freq in
  let af := if sameHalf then afSplit row1 col1 row2 col2 (afi c) (afo c) freq
            else (afi c, afo c) in
  {| totalBigramFreq := totalBigramFreq c + freq;
     shb := addIf sameHalf (shb c) freq;
     sfb := addIf sameFinger (sfb c) freq;
     hvb := addIf (sameHalf && sameFinger && (col1 =? col2)%nat && (rowDiff =? 1)%Z
                   && notCenter col1) (hvb c) freq;
     fvb := addIf (sameHalf && sameFinger && (col1 =? col2)%nat && (rowDiff =? 2)%Z
                   && notCenter col1) (fvb c) freq;
     hdb := addIf (sameHalf && sameFinger && (rowDiff =? 1)%Z && (colDiff =? 1)%Z)
                  (hdb c) freq;
     fdb := addIf (sameHalf && sameFinger && (rowDiff =? 2)%Z && (colDiff =? 1)%Z)
                  (fdb c) freq;
     hfb := addIf (sameHalf && sameFinger && (row1 =? row2)%nat && (colDiff =? 1)%Z)
                  (hfb c) freq;
     srb := addIf (sameHalf && (row1 =? row2)%nat && notCenter col1 && notCenter col2)
                  (srb c) freq;
     hsb := hs.1; hsb2 := hs.2;
     fsb := fs.1; fsb2 := fs.2;
     lsb := ls.1; lsb2 := ls.2;
     afi := af.1; afo := af.2;
     skb := addIf (bool_decide (char1 = char2)) (skb c) freq;
     tib := addTIB config row1 col1 row2 col2 freq (tib c) |}.

(** One iteration of [for bigram, freq := range langData.Bigrams]. *)
Definition bigramStep (config : KeyboardConfig) (keyPos : gmap gostring (nat * nat))
    (c : BigramCounters) (entry : gostring * Q) : BigramCounters :=
  let '(bigram, freq) := entry in
  match bigram with
  | [r1; r2] =>
      let char1 := [r1] in
      let char2 := [r2] in
      match keyPos !! char1, keyPos !! char2 with
      | Some pos1, Some pos2 => classify config char1 char2 pos1 pos2 freq c
      | _, _ => c
      end
  | _ => c
  end.

Definition zeroCounters (tib0 : Q) : BigramCounters :=
  {| shb := 0; sfb := 0; hvb := 0; fvb := 0; hdb := 0; fdb := 0; hfb := 0;
     hsb := 0; fsb := 0; lsb := 0; srb := 0; afi := 0; afo := 0;
     hsb2 := 0; fsb2 := 0; lsb2 := 0; skb := 0; totalBigramFreq := 0;
     tib := tib0 |}.

Definition bigramLoop (config : KeyboardConfig) (keyPos : gmap gostring (nat * nat))
    (bigrams : list (gostring * Q)) (tib0 : Q) : BigramCounters :=
  foldl (bigramStep config keyPos) (zeroCounters tib0) bigrams.

Definition pct (x total : Q) : Q := (x / total) * 100.

Definition set_TIB (v : Q) (b : BigramAnalysis) : BigramAnalysis :=
  {| SHB := SHB b; SFB := SFB b; HVB := HVB b; FVB := FVB b; HDB := HDB b;
     FDB := FDB b; HFB := HFB b; HSB := HSB b; FSB := FSB b; LSB := LSB b;
     SRB := SRB b; AFI := AFI b; AFO := AFO b; HSB2 := HSB2 b; FSB2 := FSB2 b;
     LSB2 := LSB2 b; SKB := SKB b; TIB := v |}.

Definition calculateBigrams (layout : Layout) (config : KeyboardConfig)
    (langData : LanguageData) (keyPos : gmap gostring (nat * nat))
    (analysis : LayoutAnalysis) : LayoutAnalysis :=
  let c := bigramLoop config keyPos (map_to_list (Bigrams langData))
             (TIB (Bigram analysis)) in
  let t := totalBigramFreq c in
  if Qltb 0 t then
    set_Bigram
      {| SHB := pct (shb c) t; SFB := pct (sfb c) t; HVB := pct (hvb c) t;
         FVB := pct (fvb c) t; HDB := pct (hdb c) t; FDB := pct (fdb c) t;
         HFB := pct (hfb c) t; HSB := pct (hsb c) t; FSB := pct (fsb c) t;
         LSB := pct (lsb c) t; SRB := pct (srb c) t; AFI := pct (afi c) t;
         AFO := pct (afo c) t; HSB2 := pct (hsb2 c) t; FSB2 := pct (fsb2 c) t;
         LSB2 := pct (lsb2 c) t; SKB := pct (skb c) t; TIB := pct (tib c) t |}
      analysis
  else set_Bigram (set_TIB (tib c) (Bigram analysis)) analysis.

(** *** Balance indices, penalty and score *)

Definition calculateFDI (analysis : LayoutAnalysis) (config : KeyboardConfig) : Q :=
  let w := Weights config in
  let e := EffortByFinger analysis in
  0 + D18 w * Qabs (at_ e 0 - at_ e 7)
    + D27 w * Qabs (at_ e 1 - at_ e 6)
    + D36 w * Qabs (at_ e 2 - at_ e 5)
    + D45 w * Qabs (at_ e 3 - at_ e 4).

(** One pass of a penalty loop: [if max > 0 { excess := load - max; if excess > 0 { mep += excess * penalty } }]. *)
Definition penalties (n : nat) (maxima loads rates : list Q) (mep : Q) : Q :=
  foldl (fun mep i =>
           let maxEffort := at_ maxima i in
           if Qltb 0 maxEffort then
             let excess := at_ loads i - maxEffort in
             if Qltb 0 excess then mep + excess * at_ rates i else mep
           else mep)
        mep (seq 0 n).

Definition calculateMEP (analysis : LayoutAnalysis) (config : KeyboardConfig) : Q :=
  let mep := penalties 8 (MaxFingerEfforts config) (EffortByFinger analysis)
               (FingerEffortPenalties config) 0 in
  penalties 3 (MaxRowEfforts config) (EffortByRow analysis)
    (RowEffortPenalties config) mep.

Definition calculateWeightedScore (config : KeyboardConfig)
    (analysis : LayoutAnalysis) : LayoutAnalysis :=
  let w := Weights config in
  let b := Bigram analysis in
  let score :=
    0 + TotalEffortNorm w * TotalEffort analysis
      + wSHB w * SHB b + wSFB w * SFB b + wHVB w * HVB b + wFVB w * FVB b
      + wHDB w * HDB b + wFDB w * FDB b + wHFB w * HFB b + wHSB w * HSB b
      + wFSB w * FSB b + wLSB w * LSB b + wSRB w * SRB b + wAFI w * AFI b
      + wAFO w * AFO b
      + TIB b
      + wHDI w * HDI analysis
      + wFDI w * FDI analysis
      + MEP analysis in
  set_WeightedScore score analysis.

Definition zeroBigramAnalysis : BigramAnalysis :=
  {| SHB := 0; SFB := 0; HVB := 0; FVB := 0; HDB := 0; FDB := 0; HFB := 0;
     HSB := 0; FSB := 0; LSB := 0; SRB := 0; AFI := 0; AFO := 0;
     HSB2 := 0; FSB2 := 0; LSB2 := 0; SKB := 0; TIB := 0 |}.

(** [&LayoutAnalysis{LayoutName: name, Config: config}]: every number is zero. *)
Definition newAnalysis (name : gostring) : LayoutAnalysis :=
  {| LayoutName := name; TotalEffort := 0;
     EffortByRow := replicate 3 0; EffortByFinger := replicate 8 0;
     EffortByHalf := replicate 2 0; Bigram := zeroBigramAnalysis;
     HDI := 0; FDI := 0; MEP := 0; WeightedScore := 0 |}.

Definition AnalyzeLayout (layout : Layout) (config : KeyboardConfig)
    (langData : LanguageData) : LayoutAnalysis :=
  let analysis := newAnalysis (Name layout) in
  let keyPos := buildKeyPos layout in
  let analysis := calculateEffort layout config langData keyPos analysis in
  let analysis := calculateBigrams layout config langData keyPos analysis in
  let analysis :=
    set_HDI (Qabs (at_ (EffortByHalf analysis) 0 - at_ (EffortByHalf analysis) 1)) analysis in
  let analysis := set_FDI (calculateFDI analysis config) analysis in
  let analysis := set_MEP (calculateMEP analysis config) analysis in
  calculateWeightedScore config analysis.

(** ** calculator.go in binary64: the strict-mode buckets *)

(** The statements of [calculateBigrams] that compute HSB, FSB, LSB and
    their secondary buckets, with [float64] read as IEEE 754 binary64:
    the accumulation of [totalBigramFreq], the HSB, FSB and LSB blocks, and
    the normalisation.  The bigrams come as a list of pairs, in the order
    in which [range] visits the map; the geometric tests are those of the
    model above. *)
Module Binary64.

Record Counters := {
  hsb : float; fsb : float; lsb : float;
  hsb2 : float; fsb2 : float; lsb2 : float;
  totalBigramFreq : float
}.

Definition strictSplit (pattern : bool) (strictMode : Z) (valid : bool)
    (primary secondary freq : float) : float * float :=
  if pattern then
    if (strictMode =? 1)%Z then
      if valid then ((primary + freq)%float, secondary)
      else (primary, (secondary + freq)%float)
    else ((primary + freq)%float, secondary)
  else (primary, secondary).

Definition classify (config : KeyboardConfig) (pos1 pos2 : nat * nat) (freq : float)
    (c : Counters) : Counters :=
  let '(row1, col1) := pos1 in
  let '(row2, col2) := pos2 in
  let sameHalf := (getHalf col1 =? getHalf col2)%nat in
  let w := Weights config in
  let hs := strictSplit (sameHalf && hsbPattern row1 col1 row2 col2) (HSBStrictMode w)
              (isHSBValid row1 col1 row2 col2) (hsb c) (hsb2 c) freq in
  let fs := strictSplit (sameHalf && fsbPattern row1 col1 row2 col2) (FSBStrictMode w)
              (isFSBValid row1 col1 row2 col2) (fsb c) (fsb2 c) freq in
  let ls := strictSplit (sameHalf && isLSBPattern col1 col2) (LSBStrictMode w)
              (isLSBValid row1 col1 row2 col2) (lsb c) (lsb2 c) freq in
  {| totalBigramFreq := (totalBigramFreq c + freq)%float;
     hsb := hs.1; hsb2 := hs.2;
     fsb := fs.1; fsb2 := fs.2;
     lsb := ls.1; lsb2 := ls.2 |}.

Definition bigramStep (config : KeyboardConfig) (keyPos : gmap gostring (nat * nat))
    (c : Counters) (entry : gostring * float) : Counters :=
  let '(bigram, freq) := entry in
  match bigram with
  | [r1; r2] =>
      match keyPos !! [r1], keyPos !! [r2] with
      | Some pos1, Some pos2 => classify config pos1 pos2 freq c
      | _, _ => c
      end
  | _ => c
  end.

Definition zeroCounters : Counters :=
  {| hsb := 0; fsb := 0; lsb := 0; hsb2 := 0; fsb2 := 0; lsb2 := 0;
     totalBigramFreq := 0 |}.

Definition bigramLoop (config : KeyboardConfig) (keyPos : gmap gostring (nat * nat))
    (bigrams : list (gostring * float)) : Counters :=
  foldl (bigramStep config keyPos) zeroCounters bigrams.

Definition pct (x total : float) : float := (x / total * 100)%float.

Record Buckets := {
  HSB : float; FSB : float; LSB : float;
  HSB2 : float; FSB2 : float; LSB2 : float
}.

Definition calculateBigrams (config : KeyboardConfig)
    (keyPos : gmap gostring (nat * nat)) (bigrams : list (gostring * float)) : Buckets :=
  let c := bigramLoop config keyPos bigrams in
  let t := totalBigramFreq c in
  if (0 <? t)%float then
    {| HSB := pct (hsb c) t; FSB := pct (fsb c) t; LSB := pct (lsb c) t;
       HSB2 := pct (hsb2 c) t; FSB2 := pct (fsb2 c) t; LSB2 := pct (lsb2 c) t |}
  else {| HSB := 0; FSB := 0; LSB := 0; HSB2 := 0; FSB2 := 0; LSB2 := 0 |}.

Definition AnalyzeLayout (layout : Layout) (config : KeyboardConfig)
    (bigrams : list (gostring * float)) : Buckets :=
  calculateBigrams config (buildKeyPos layout) bigrams.

End Binary64.

(** ** The search file: simulated annealing *)

(** The functions of Go's standard library that the search calls and whose
    tables are not part of this repository. *)
Class GoLib := {
  unicode_IsUpper : rune -> bool;
  unicode_ToLower : rune -> rune;
  math_Exp : Q -> Q
}.

(** The pseudo-random stream that [rand.Seed(params.RandomSeed)] fixes is an
    explicit tape of raw draws.  A computation that needs more draws than the
    tape holds yields [None]. *)
Definition Rand := list nat.
Definition M (A : Type) : Type := Rand -> option (A * Rand).

Definition ret {A} (a : A) : M A := fun tape => Some (a, tape).

Definition bind {A B} (m : M A) (f : A -> M B) : M B :=
  fun tape => match m tape with
              | Some (a, tape') => f a tape'
              | None => None
              end.

Notation "'let*' x := m 'in' k" := (bind m (fun x => k))
  (at level 10, x name, m at level 100, k at level 200).

(** [rand.Intn(n)]: the next draw, reduced into [0, n). *)
Definition Intn (n : nat) : M nat :=
  fun tape => match tape with
              | [] => None
              | r :: tape' => Some ((r mod n)%nat, tape')
              end.

(** [rand.Float64()]: the next draw, scaled into [0, 1). *)
Definition Float64 : M Q :=
  fun tape => match tape with
              | [] => None
              | r :: tape' =>
                  Some (inject_Z (Z.of_nat r mod 2 ^ 53) / inject_Z (2 ^ 53), tape')
              end.

Record SimulatedAnnealingParams := {
  InitialTemp : Q;
  CoolingRate : Q;
  Iterations : Z;
  Restarts : Z;
  RandomSeed : Z
}.

Record SimulatedAnnealingResult := {
  rLayout : Layout;
  rAnalysis : LayoutAnalysis;
  Score : Q
}.

Definition set_Keys (v : list (list gostring)) (l : Layout) : Layout :=
  {| Name := Name l; Keys := v; PreComments := PreComments l;
     PostComments := PostComments l |}.

(** [m[row][col] = v] *)
Definition setGrid {A} (m : list (list A)) (row col : nat) (v : A) : list (list A) :=
  alter (fun r => <[col := v]> r) row m.

Definition setKey (l : Layout) (row col : nat) (v : gostring) : Layout :=
  set_Keys (setGrid (Keys l) row col v) l.

(** [l.Keys[p1], l.Keys[p2] = l.Keys[p2], l.Keys[p1]] *)
Definition swapKeys (l : Layout) (pos1 pos2 : nat * nat) : Layout :=
  let a := key l pos2.1 pos2.2 in
  let b := key l pos1.1 pos1.2 in
  setKey (setKey l pos1.1 pos1.2 a) pos2.1 pos2.2 b.

Definition space : gostring := [32%N].
Definition dot : gostring := [46%N].

(** [k != "" && k != " "] *)
Definition nonEmpty (k : gostring) : bool :=
  negb (bool_decide (k = [])) && negb (bool_decide (k = space)).

(** [for idx2 == idx1 { idx2 = rand.Intn(n) }]; with [guarded], the loop
    condition is [idx2 == idx1 && n > 1]. *)
Fixpoint redraw (guarded : bool) (n idx1 idx2 : nat) (tape : Rand) : option (nat * Rand) :=
  if (idx2 =? idx1)%nat && (negb guarded || (1 <? n)%nat) then
    match tape with
    | [] => None
    | r :: tape' => redraw guarded n idx1 (r mod n)%nat tape'
    end
  else Some (idx2, tape).

(** The tail shared by the neighbor generators: nothing to do with fewer
    than two candidates, else draw two distinct indices and swap. *)
Definition swapRandomPair (guarded : bool) (layout : Layout)
    (swapPositions : list (nat * nat)) : M Layout :=
  let neighbor := layout in
  if (length swapPositions <? 2)%nat then ret neighbor
  else
    let* idx1 := Intn (length swapPositions) in
    let* idx2 := Intn (length swapPositions) in
    let* idx2 := redraw guarded (length swapPositions) idx1 idx2 in
    let pos1 := default (0, 0)%nat (swapPositions !! idx1) in
    let pos2 := default (0, 0)%nat (swapPositions !! idx2) in
    ret (swapKeys neighbor pos1 pos2).

Section Search.
Context `{GoLib}.

Definition isUppercase (s : gostring) : bool :=
  match s with
  | [] => false
  | r :: _ => unicode_IsUpper r
  end.

Definition hasUppercaseLetters (layout : Layout) : bool :=
  existsb (fun '(row, col) => isUppercase (key layout row col)) positions.

(** [strings.ToLower] *)
Definition ToLower (s : gostring) : gostring := map unicode_ToLower s.

Definition createLowercaseLayout (originalLayout : Layout)
    : Layout * list (list bool) :=
  foldl (fun '(lowercaseLayout, uppercasePositions) '(row, col) =>
           let k := key originalLayout row col in
           if nonEmpty k then
             (setKey lowercaseLayout row col (ToLower k),
              setGrid uppercasePositions row col (isUppercase k))
           else
             (lowercaseLayout, setGrid uppercasePositions row col false))
        (originalLayout, replicate 3 (replicate 10 false)) positions.

(** The candidate positions of [generateNeighbor]. *)
Definition swappablePositions (layout : Layout) (config : KeyboardConfig)
    : list (nat * nat) :=
  let hasUppercase := hasUppercaseLetters layout in
  List.filter (fun '(row, col) =>
                 if hasUppercase then
                   negb (isUppercase (key layout row col))
                 else
                   bool_decide (grid [] (FixedPositions config) row col = dot)
                   && negb (isUppercase (key layout row col)))
              positions.

Definition generateNeighbor (layout : Layout) (config : KeyboardConfig) : M Layout :=
  swapRandomPair false layout (swappablePositions layout config).

(** The candidate positions of [generateNeighborFromBaseLayoutWithUppercaseInfo].
    (The Go function also collects the distinct characters of the base
    layout into a slice that nothing reads.) *)
Definition swapPositions (layout : Layout) (config : KeyboardConfig)
    (baseLayout : Layout) (uppercasePositions : list (list bool))
    : list (nat * nat) :=
  let hasUppercase :=
    existsb (fun '(row, col) => grid false uppercasePositions row col) positions in
  List.filter (fun '(row, col) =>
                 if hasUppercase then
                   nonEmpty (key layout row col)
                   && negb (grid false uppercasePositions row col)
                 else
                   bool_decide (grid [] (FixedPositions config) row col = dot)
                   && nonEmpty (key layout row col)
                   && negb (isUppercase (key baseLayout row col)))
              positions.

Definition generateNeighborFromBaseLayoutWithUppercaseInfo (layout : Layout)
    (config : KeyboardConfig) (baseLayout : Layout)
    (uppercasePositions : list (list bool)) : M Layout :=
  swapRandomPair true layout (swapPositions layout config baseLayout uppercasePositions).

(** *** Ranking *)

(** [rs[i], rs[j] = rs[j], rs[i]] *)
Definition swapAt {A} (i j : nat) (rs : list A) : list A :=
  match rs !! i, rs !! j with
  | Some a, Some b => <[j := a]> (<[i := b]> rs)
  | _, _ => rs
  end.

(** The inner loop [for j := i + 1; j < len(results); j++]. *)
Definition sortInner (i : nat) (results : list SimulatedAnnealingResult)
    : list SimulatedAnnealingResult :=
  foldl (fun rs j =>
           match rs !! j, rs !! i with
           | Some rj, Some ri =>
               if Qltb (Score rj) (Score ri) then swapAt i j rs else rs
           | _, _ => rs
           end)
        results (seq (S i) (length results - S i)).

Definition sortResultsByScore (results : list SimulatedAnnealingResult)
    : list SimulatedAnnealingResult :=
  foldl (fun rs i => sortInner i rs) results (seq 0 (length results)).

(** [if numBest > 0 && len(rs) > numBest { rs = rs[:numBest] }] *)
Definition truncateBest (numBest : Z) (rs : list SimulatedAnnealingResult)
    : list SimulatedAnnealingResult :=
  if (0 <? numBest)%Z && (numBest <? Z.of_nat (length rs))%Z
  then take (Z.to_nat numBest) rs else rs.

(** *** SearchOptimalLayoutFromSpecificLayout *)

(** The variables of one restart that the annealing loop updates. *)
Record Anneal := {
  currentLayout : Layout;
  currentAnalysis : LayoutAnalysis;
  currentScore : Q;
  bestLayoutRestart : Layout;
  bestScoreRestart : Q;
  bestAnalysisRestart : LayoutAnalysis;
  temperature : Q
}.

(** [delta < 0 || rand.Float64() < math.Exp(-delta/temperature)]: the
    random number is drawn only when [delta < 0] fails. *)
Definition accepts (delta temperature : Q) : M bool :=
  if Qltb delta 0 then ret true
  else let* u := Float64 in ret (Qltb u (math_Exp (- delta / temperature))).

(** One iteration of the annealing loop. *)
Definition annealStep (config : KeyboardConfig) (langData : LanguageData)
    (params : SimulatedAnnealingParams) (lowercaseStartLayout : Layout)
    (uppercasePositions : list (list bool)) (a : Anneal) : M Anneal :=
  let* neighborLayout := generateNeighborFromBaseLayoutWithUppercaseInfo
                      (currentLayout a) config lowercaseStartLayout uppercasePositions in
  let neighborAnalysis := AnalyzeLayout neighborLayout config langData in
  let neighborScore := WeightedScore neighborAnalysis in
  let delta := neighborScore - currentScore a in
  let* ok := accepts delta (temperature a) in
  let temperature' := temperature a * CoolingRate params in
  if ok then
    if Qltb neighborScore (bestScoreRestart a) then
      ret {| currentLayout := neighborLayout; currentAnalysis := neighborAnalysis;
             currentScore := neighborScore;
             bestLayoutRestart := neighborLayout; bestScoreRestart := neighborScore;
             bestAnalysisRestart := neighborAnalysis;
             temperature := temperature' |}
    else
      ret {| currentLayout := neighborLayout; currentAnalysis := neighborAnalysis;
             currentScore := neighborScore;
             bestLayoutRestart := bestLayoutRestart a;
             bestScoreRestart := bestScoreRestart a;
             bestAnalysisRestart := bestAnalysisRestart a;
             temperature := temperature' |}
  else
    ret {| currentLayout := currentLayout a; currentAnalysis := currentAnalysis a;
           currentScore := currentScore a;
           bestLayoutRestart := bestLayoutRestart a;
           bestScoreRestart := bestScoreRestart a;
           bestAnalysisRestart := bestAnalysisRestart a;
           temperature := temperature' |}.

(** [for iter := 0; iter < params.Iterations; iter++], with [n] iterations left. *)
Fixpoint annealLoop (config : KeyboardConfig) (langData : LanguageData)
    (params : SimulatedAnnealingParams) (lowercaseStartLayout : Layout)
    (uppercasePositions : list (list bool)) (n : nat) (a : Anneal) : M Anneal :=
  match n with
  | O => ret a
  | S n' =>
      let* a' := annealStep config langData params lowercaseStartLayout uppercasePositions a in
      annealLoop config langData params lowercaseStartLayout uppercasePositions n' a'
  end.

(** The body of the restart loop up to the result of the restart. *)
Definition runRestart (config : KeyboardConfig) (langData : LanguageData)
    (params : SimulatedAnnealingParams) (lowercaseStartLayout : Layout)
    (uppercasePositions : list (list bool)) (restart : nat)
    (bestResults : list SimulatedAnnealingResult) : M SimulatedAnnealingResult :=
  let currentLayout0 :=
    if (0 <? restart)%nat then
      match bestResults with
      | r :: _ => rLayout r
      | [] => lowercaseStartLayout
      end
    else lowercaseStartLayout in
  let currentAnalysis0 := AnalyzeLayout currentLayout0 config langData in
  let currentScore0 := WeightedScore currentAnalysis0 in
  let* a := annealLoop config langData params lowercaseStartLayout uppercasePositions
         (Z.to_nat (Iterations params))
         {| currentLayout := currentLayout0; currentAnalysis := currentAnalysis0;
            currentScore := currentScore0;
            bestLayoutRestart := currentLayout0; bestScoreRestart := currentScore0;
            bestAnalysisRestart := currentAnalysis0;
            temperature := InitialTemp params |} in
  ret {| rLayout := bestLayoutRestart a; Score := bestScoreRestart a;
         rAnalysis := bestAnalysisRestart a |}.

(** The restart loop, from restart number [restart], with [n] restarts left.
    The second component of the state is a ghost variable, absent from the
    Go code: the results of the restarts in the order they were produced. *)
Fixpoint restartLoop (config : KeyboardConfig) (langData : LanguageData)
    (params : SimulatedAnnealingParams) (numBest : Z) (lowercaseStartLayout : Layout)
    (uppercasePositions : list (list bool)) (n restart : nat)
    (st : list SimulatedAnnealingResult * list SimulatedAnnealingResult)
    : M (list SimulatedAnnealingResult * list SimulatedAnnealingResult) :=
  match n with
  | O => ret st
  | S n' =>
      let '(bestResults, produced) := st in
      let* r := runRestart config langData params lowercaseStartLayout uppercasePositions
             restart bestResults in
      let bestResults := truncateBest numBest (sortResultsByScore (bestResults ++ [r])) in
      restartLoop config langData params numBest lowercaseStartLayout uppercasePositions
        n' (S restart) (bestResults, produced ++ [r])
  end.

(** The search together with its ghost list of restart results. *)
Definition searchFromSpecificLayout (config : KeyboardConfig) (langData : LanguageData)
    (params : SimulatedAnnealingParams) (numBest : Z) (startLayout : Layout)
    : M (list SimulatedAnnealingResult * list SimulatedAnnealingResult) :=
  let '(lowercaseStartLayout, uppercasePositions) := createLowercaseLayout startLayout in
  let* st := restartLoop config langData params numBest lowercaseStartLayout uppercasePositions
          (Z.to_nat (Restarts params)) 0 ([], []) in
  ret (truncateBest numBest st.1, st.2).

(** (The Go function also takes the parsed layouts, which it never reads.) *)
Definition SearchOptimalLayoutFromSpecificLayout (config : KeyboardConfig)
    (langData : LanguageData) (params : SimulatedAnnealingParams) (numBest : Z)
    (startLayout : Layout) : M (list SimulatedAnnealingResult) :=
  let* st := searchFromSpecificLayout config langData params numBest startLayout in
  ret st.1.

End Search.

(** ** More of the program *)

(** *** calculator.go: calculateBigramEffortSum *)

Definition calculateBigramEffortSum (config : KeyboardConfig)
    (analysis : LayoutAnalysis) : Q :=
  let w := Weights config in
  let b := Bigram analysis in
  0 + wSHB w * SHB b + wSFB w * SFB b + wHVB w * HVB b + wFVB w * FVB b
    + wHDB w * HDB b + wFDB w * FDB b + wHFB w * HFB b + wHSB w * HSB b
    + wFSB w * FSB b + wLSB w * LSB b + wSRB w * SRB b + wAFI w * AFI b
    + wAFO w * AFO b
    + TIB b.

(** *** types.go: Equals *)

(** The name, then the thirty keys in row-major order, stopping at the
    first difference. *)
Definition Equals (l other : Layout) : bool :=
  if negb (bool_decide (Name l = Name other)) then false
  else forallb (fun '(row, col) => bool_decide (key l row col = key other row col))
         positions.

(** *** The layout store: FindAndReplaceLayout, FindAndReplaceLayoutByIndex *)

Record ParsedLayouts := {
  Layouts : list Layout;
  FileHeaderComments : list gostring
}.

Definition set_Layouts (v : list Layout) (p : ParsedLayouts) : ParsedLayouts :=
  {| Layouts := v; FileHeaderComments := FileHeaderComments p |}.

(** [Layouts[i] = newLayout], then the two comment fields set back to those
    of the layout that was there. *)
Definition replaceKeepingComments (old newLayout : Layout) : Layout :=
  {| Name := Name newLayout; Keys := Keys newLayout;
     PreComments := PreComments old; PostComments := PostComments old |}.

(** The flag that the Go function returns, and the store it leaves. *)
Definition FindAndReplaceLayout (parsedLayouts : ParsedLayouts) (newLayout : Layout)
    : bool * ParsedLayouts :=
  match list_find (fun l => Name l = Name newLayout) (Layouts parsedLayouts) with
  | Some (i, old) =>
      (true, set_Layouts (<[i := replaceKeepingComments old newLayout]>
                            (Layouts parsedLayouts)) parsedLayouts)
  | None => (false, parsedLayouts)
  end.

Definition FindAndReplaceLayoutByIndex (parsedLayouts : ParsedLayouts) (index : Z)
    (newLayout : Layout) : bool * ParsedLayouts :=
  if (index <? 0)%Z || (Z.of_nat (length (Layouts parsedLayouts)) <=? index)%Z
  then (false, parsedLayouts)
  else
    match Layouts parsedLayouts !! Z.to_nat index with
    | Some old =>
        (true, set_Layouts (<[Z.to_nat index := replaceKeepingComments old newLayout]>
                              (Layouts parsedLayouts)) parsedLayouts)
    | None => (false, parsedLayouts)
    end.

(** *** The search file: the other neighbor generators *)

Section MoreNeighbors.
Context `{GoLib}.

Definition generateNeighborFromBaseLayout (layout : Layout) (config : KeyboardConfig)
    (baseLayout : Layout) : M Layout :=
  let uppercasePositions := (createLowercaseLayout baseLayout).2 in
  let hasUppercase := hasUppercaseLetters baseLayout in
  swapRandomPair true layout
    (List.filter (fun '(row, col) =>
                    if hasUppercase then
                      nonEmpty (key layout row col)
                      && negb (grid false uppercasePositions row col)
                    else
                      bool_decide (grid [] (FixedPositions config) row col = dot)
                      && nonEmpty (key layout row col)
                      && negb (isUppercase (key baseLayout row col)))
                 positions).

Definition generateRandomNeighborIgnoreFixed (layout : Layout) (config : KeyboardConfig)
    (langData : LanguageData) : M Layout :=
  let neighbor := layout in
  let allChars := (map_to_list (Characters langData)).*1 in
  if (length allChars <? 2)%nat then ret neighbor
  else
    let hasUppercase := hasUppercaseLetters layout in
    swapRandomPair false layout
      (List.filter (fun '(row, col) =>
                      if hasUppercase then negb (isUppercase (key layout row col))
                      else negb (isUppercase (key layout row col)))
                   positions).

End MoreNeighbors.

(** *** The search file: random layouts and SearchOptimalLayout *)

(** [rand.Shuffle(len(l), swap)], where [swap] exchanges two elements of
    [l]: for [i] from [len(l) - 1] down to 1, the element at [i] is exchanged
    with the one at [rand.Intn(i + 1)]. *)
Fixpoint shuffleFrom {A} (i : nat) (l : list A) : M (list A) :=
  match i with
  | O => ret l
  | S i' => let* j := Intn (S i) in shuffleFrom i' (swapAt i j l)
  end.

Definition Shuffle {A} (l : list A) : M (list A) := shuffleFrom (length l - 1) l.

(** [Layout{Name: name}]: thirty empty keys, no comments. *)
Definition emptyLayout (name : gostring) : Layout :=
  {| Name := name; Keys := replicate 3 (replicate 10 []);
     PreComments := []; PostComments := [] |}.

Section RandomSearch.
Context `{GoLib}.

(** Go does not specify the order in which [for char := range m] visits the
    keys of a map; the order is a parameter of the model. *)
Variable rangeKeys : gmap gostring Q -> list gostring.

(** The loop that fills the grid, from the shuffled letters. *)
Definition placeLetters (config : KeyboardConfig) (letters : list gostring)
    (layout : Layout) : Layout * nat :=
  foldl (fun '(layout, letterIdx) '(row, col) =>
           let fixed := grid [] (FixedPositions config) row col in
           if bool_decide (fixed = dot) && (letterIdx <? length letters)%nat then
             (setKey layout row col (default [] (letters !! letterIdx)), S letterIdx)
           else if negb (bool_decide (fixed = dot)) && negb (bool_decide (fixed = str "x"))
           then (setKey layout row col fixed, letterIdx)
           else (layout, letterIdx))
        (layout, 0%nat) positions.

Definition generateRandomLayout (config : KeyboardConfig) (langData : LanguageData)
    : M Layout :=
  let layout := emptyLayout (str "random") in
  let letters := rangeKeys (Characters langData) in
  let* letters := Shuffle letters in
  ret (placeLetters config letters layout).1.

(** One iteration of the annealing loop of [SearchOptimalLayout]. *)
Definition annealStepRandom (config : KeyboardConfig) (langData : LanguageData)
    (params : SimulatedAnnealingParams) (a : Anneal) : M Anneal :=
  let* neighborLayout := generateNeighbor (currentLayout a) config in
  let neighborAnalysis := AnalyzeLayout neighborLayout config langData in
  let neighborScore := WeightedScore neighborAnalysis in
  let delta := neighborScore - currentScore a in
  let* ok := accepts delta (temperature a) in
  let temperature' := temperature a * CoolingRate params in
  if ok then
    if Qltb neighborScore (bestScoreRestart a) then
      ret {| currentLayout := neighborLayout; currentAnalysis := neighborAnalysis;
             currentScore := neighborScore;
             bestLayoutRestart := neighborLayout; bestScoreRestart := neighborScore;
             bestAnalysisRestart := neighborAnalysis;
             temperature := temperature' |}
    else
      ret {| currentLayout := neighborLayout; currentAnalysis := neighborAnalysis;
             currentScore := neighborScore;
             bestLayoutRestart := bestLayoutRestart a;
             bestScoreRestart := bestScoreRestart a;
             bestAnalysisRestart := bestAnalysisRestart a;
             temperature := temperature' |}
  else
    ret {| currentLayout := currentLayout a; currentAnalysis := currentAnalysis a;
           currentScore := currentScore a;
           bestLayoutRestart := bestLayoutRestart a;
           bestScoreRestart := bestScoreRestart a;
           bestAnalysisRestart := bestAnalysisRestart a;
           temperature := temperature' |}.

Fixpoint annealLoopRandom (config : KeyboardConfig) (langData : LanguageData)
    (params : SimulatedAnnealingParams) (n : nat) (a : Anneal) : M Anneal :=
  match n with
  | O => ret a
  | S n' =>
      let* a' := annealStepRandom config langData params a in
      annealLoopRandom config langData params n' a'
  end.

(** The restart loop of [SearchOptimalLayout], from restart number
    [restart], with [n] restarts left.  (The progress messages that the Go
    function prints are left out.) *)
Fixpoint restartLoopRandom (config : KeyboardConfig) (langData : LanguageData)
    (params : SimulatedAnnealingParams) (initialLayout : Layout) (n restart : nat)
    (bestResults : list SimulatedAnnealingResult)
    : M (list SimulatedAnnealingResult) :=
  match n with
  | O => ret bestResults
  | S n' =>
      let* currentLayout0 :=
        if (0 <? restart)%nat then generateRandomLayout config langData
        else ret initialLayout in
      let currentAnalysis0 := AnalyzeLayout currentLayout0 config langData in
      let currentScore0 := WeightedScore currentAnalysis0 in
      let* a := annealLoopRandom config langData params (Z.to_nat (Iterations params))
             {| currentLayout := currentLayout0; currentAnalysis := currentAnalysis0;
                currentScore := currentScore0;
                bestLayoutRestart := currentLayout0; bestScoreRestart := currentScore0;
                bestAnalysisRestart := currentAnalysis0;
                temperature := InitialTemp params |} in
      let result := {| rLayout := bestLayoutRestart a; rAnalysis := bestAnalysisRestart a;
                       Score := bestScoreRestart a |} in
      restartLoopRandom config langData params initialLayout n' (S restart)
        (bestResults ++ [result])
  end.

Definition SearchOptimalLayout (config : KeyboardConfig) (langData : LanguageData)
    (params : SimulatedAnnealingParams) (numBest : Z)
    : M (list SimulatedAnnealingResult) :=
  let* initialLayout := generateRandomLayout config langData in
  let* bestResults := restartLoopRandom config langData params initialLayout
                    (Z.to_nat (Restarts params)) 0 [] in
  ret (truncateBest numBest (sortResultsByScore bestResults)).

End RandomSearch.

(** ** Sample data *)

Definition strictWeights : WeightConfig :=
  {| wSHB := 0; wSFB := 0; wHVB := 0; wFVB := 0; wHDB := 0; wFDB := 0; wHFB := 0;
     wHSB := 0; wFSB := 0; wLSB := 0; wSRB := 0; wAFI := 0; wAFO := 0;
     wHDI := 0; wFDI := 0; D18 := 0; D27 := 0; D36 := 0; D45 := 0;
     HSBStrictMode := 1; FSBStrictMode := 1; LSBStrictMode := 1;
     TotalEffortNorm := 0 |}.

(** Uniform effort 1, no locked position, no threshold, strict modes on. *)
Definition plainConfig (overrides : list BigramIndividualCoeff) : KeyboardConfig :=
  {| EffortMatrix := replicate 3 (replicate 10 1);
     FixedPositions := replicate 3 (replicate 10 dot);
     MaxFingerEfforts := replicate 8 0; FingerEffortPenalties := replicate 8 0;
     MaxRowEfforts := replicate 3 0; RowEffortPenalties := replicate 3 0;
     Weights := strictWeights;
     BigramIndividualCoeffs := overrides |}.

(** [plainConfig []] with every position locked ([x] everywhere in the mask). *)
Definition lockedConfig : KeyboardConfig :=
  {| EffortMatrix := replicate 3 (replicate 10 1);
     FixedPositions := replicate 3 (replicate 10 (str "x"));
     MaxFingerEfforts := replicate 8 0; FingerEffortPenalties := replicate 8 0;
     MaxRowEfforts := replicate 3 0; RowEffortPenalties := replicate 3 0;
     Weights := strictWeights;
     BigramIndividualCoeffs := [] |}.

(** A cost model that scores the effort alone: the home row costs 1, the
    top row 2 and the bottom row 3. *)
Definition gradedConfig : KeyboardConfig :=
  {| EffortMatrix := [replicate 10 2; replicate 10 1; replicate 10 3];
     FixedPositions := replicate 3 (replicate 10 dot);
     MaxFingerEfforts := replicate 8 0; FingerEffortPenalties := replicate 8 0;
     MaxRowEfforts := replicate 3 0; RowEffortPenalties := replicate 3 0;
     Weights :=
       {| wSHB := 0; wSFB := 0; wHVB := 0; wFVB := 0; wHDB := 0; wFDB := 0;
          wHFB := 0; wHSB := 0; wFSB := 0; wLSB := 0; wSRB := 0; wAFI := 0;
          wAFO := 0; wHDI := 0; wFDI := 0; D18 := 0; D27 := 0; D36 := 0; D45 := 0;
          HSBStrictMode := 1; FSBStrictMode := 1; LSBStrictMode := 1;
          TotalEffortNorm := 1 |};
     BigramIndividualCoeffs := [] |}.

(** [gradedConfig] with limits: the left index finger (3) may carry 10 and
    the home row (1) 5, at penalty rates 2 and 3; the top row has a rate but
    no limit; the finger pairs weigh 1, 2, 3 and 4. *)
Definition limitConfig : KeyboardConfig :=
  {| EffortMatrix := [replicate 10 2; replicate 10 1; replicate 10 3];
     FixedPositions := replicate 3 (replicate 10 dot);
     MaxFingerEfforts := [0; 0; 0; 10; 0; 0; 0; 0];
     FingerEffortPenalties := [0; 0; 0; 2; 0; 0; 0; 0];
     MaxRowEfforts := [0; 5; 0]; RowEffortPenalties := [7; 3; 0];
     Weights :=
       {| wSHB := 0; wSFB := 0; wHVB := 0; wFVB := 0; wHDB := 0; wFDB := 0;
          wHFB := 0; wHSB := 0; wFSB := 0; wLSB := 0; wSRB := 0; wAFI := 0;
          wAFO := 0; wHDI := 1; wFDI := 1; D18 := 1; D27 := 2; D36 := 3; D45 := 4;
          HSBStrictMode := 1; FSBStrictMode := 1; LSBStrictMode := 1;
          TotalEffortNorm := 1 |};
     BigramIndividualCoeffs := [] |}.

(** A row of ten keys that starts with [ks] and is empty after them. *)
Definition keyRow (ks : list string) : list gostring :=
  (str <$> ks) ++ replicate (10 - length ks) [].

Definition mkLayout (top home bottom : list string) : Layout :=
  {| Name := str "sample"; Keys := [keyRow top; keyRow home; keyRow bottom];
     PreComments := []; PostComments := [] |}.

Definition corpus (chars bigrams : list (string * Q)) : LanguageData :=
  {| Language := str "sample";
     Characters := list_to_map (prod_map str id <$> chars);
     Bigrams := list_to_map (prod_map str id <$> bigrams) |}.

(** A seed with one key locked by its uppercase letter, a corpus for it, and
    a tape of draws. *)
Definition seedA : Layout := mkLayout ["q"; "w"; "e"] ["A"; "s"] ["z"].

Definition corpusQ : LanguageData :=
  corpus [("q", 1 # 8); ("w", 1 # 8); ("e", 1 # 2); ("a", 1 # 16); ("s", 1 # 16);
          ("z", 1 # 8)] [].

Definition tapeQ : Rand :=
  [1; 3; 0; 2; 2; 1; 4; 0; 3; 5; 0; 1; 2; 2; 4; 1; 3; 0; 1; 1; 0; 2; 3; 4; 0; 2; 1;
   3; 4; 0; 1; 2]%nat.

(** The case tables on the ASCII letters, where they are those of Go's
    [unicode] package, and a stand-in for [math.Exp]; the samples below
    only use upper- and lower-case ASCII letters.  With the stand-in a
    candidate that is no better is accepted whenever [rand.Float64()] is
    below 1; on the sample tape, whose draws all give a [rand.Float64()]
    below 2^-50, the exponential itself leads to the same decisions. *)
Definition asciiIsUpper (r : rune) : bool := (65 <=? r)%N && (r <=? 90)%N.

Definition asciiToLower (r : rune) : rune := if asciiIsUpper r then (r + 32)%N else r.

#[export] Instance asciiLib : GoLib :=
  {| unicode_IsUpper := asciiIsUpper;
     unicode_ToLower := asciiToLower;
     math_Exp := fun _ => 1 |}.

Definition params (iterations restarts : Z) : SimulatedAnnealingParams :=
  {| InitialTemp := 1000; CoolingRate := 199 # 200; Iterations := iterations;
     Restarts := restarts; RandomSeed := 1 |}.

(** The keys of a map in the order of its list of entries. *)
Definition keysInOrder (m : gmap gostring Q) : list gostring := (map_to_list m).*1.

(** [gradedConfig] with a mask: the first cell of the home row is kept
    empty, the second one holds [s], all other cells are free. *)
Definition maskedConfig : KeyboardConfig :=
  {| EffortMatrix := [replicate 10 2; replicate 10 1; replicate 10 3];
     FixedPositions := [replicate 10 dot; str "x" :: str "s" :: replicate 8 dot;
                        replicate 10 dot];
     MaxFingerEfforts := replicate 8 0; FingerEffortPenalties := replicate 8 0;
     MaxRowEfforts := replicate 3 0; RowEffortPenalties := replicate 3 0;
     Weights := Weights gradedConfig;
     BigramIndividualCoeffs := [] |}.

(** A result that carries only a name and a score. *)
Definition scored (name : string) (score : Q) : SimulatedAnnealingResult :=
  {| rLayout := {| Name := str name; Keys := []; PreComments := [];
                   PostComments := [] |};
     rAnalysis := newAnalysis (str name);
     Score := score |}.

(** A layout and three bigrams for the strict mode of HSB: [dk] is a half
    scissors whose lower key is on the middle finger (valid), [cv] one whose
    lower key is on the index finger (not valid), [aj] is typed with two
    hands.  The frequencies are the doubles nearest to 0.1, 0.2 and 0.7. *)
Definition scissorsLayout : Layout :=
  mkLayout ["a"; ""; "c"; "d"; ""; ""; ""; ""; ""; "j"] [""; ""; "k"; "v"] [].

#[local] Set Warnings "-inexact-float".

Definition scissorsBigrams : list (gostring * float) :=
  [(str "dk", 0.1%float); (str "cv", 0.2%float); (str "aj", 0.7%float)].

(** ** Notions of the specification *)

(** The finger of the lower-positioned character of a pair on adjacent
    rows: the one on the row of larger index. *)
Definition lowerFinger (row1 col1 row2 col2 : nat) : nat :=
  if (row1 <? row2)%nat then getFingerForKey row2 col2 else getFingerForKey row1 col1.

(** The finger of the bottom-row character of a pair spanning rows 0 and 2. *)
Definition bottomFinger (row1 col1 row2 col2 : nat) : nat :=
  if (row1 =? 2)%nat then getFingerForKey row1 col1 else getFingerForKey row2 col2.

(** The stretch fingers in the words of the specification: the index or the
    ring finger of either hand.  In the numbering of [fingerMap] (0 is the
    left little finger, 7 the right one) the index fingers, which serve two
    columns each, are 3 and 4, and the ring fingers are 1 and 6. *)
Definition isIndexOrRing (finger : nat) : bool :=
  (finger =? 1)%nat || (finger =? 3)%nat || (finger =? 4)%nat || (finger =? 6)%nat.

(** An analysis whose numbers are all zero. *)
Definition zeroBigrams (b : BigramAnalysis) : Prop :=
  SHB b == 0 /\ SFB b == 0 /\ HVB b == 0 /\ FVB b == 0 /\ HDB b == 0 /\ FDB b == 0
  /\ HFB b == 0 /\ HSB b == 0 /\ FSB b == 0 /\ LSB b == 0 /\ SRB b == 0
  /\ AFI b == 0 /\ AFO b == 0 /\ HSB2 b == 0 /\ FSB2 b == 0 /\ LSB2 b == 0
  /\ SKB b == 0 /\ TIB b == 0.

Definition zeros (n : nat) (a : list Q) : Prop :=
  length a = n /\ Forall (fun x => x == 0) a.

Definition allZero (a : LayoutAnalysis) : Prop :=
  TotalEffort a == 0
  /\ zeros 3 (EffortByRow a) /\ zeros 8 (EffortByFinger a) /\ zeros 2 (EffortByHalf a)
  /\ zeroBigrams (Bigram a)
  /\ HDI a == 0 /\ FDI a == 0 /\ MEP a == 0 /\ WeightedScore a == 0.

(** The sum of a list of numbers. *)
Definition Qsum (l : list Q) : Q := foldr Qplus 0 l.

(** A matched bigram: a corpus entry of two characters that both have a
    position, with these positions and its frequency. *)
Definition matchedBigram (keyPos : gmap gostring (nat * nat)) (entry : gostring * Q)
    : option ((nat * nat) * (nat * nat) * Q) :=
  match entry.1 with
  | [r1; r2] =>
      match keyPos !! [r1], keyPos !! [r2] with
      | Some pos1, Some pos2 => Some (pos1, pos2, entry.2)
      | _, _ => None
      end
  | _ => None
  end.

(** The total matched bigram frequency. *)
Definition matchedBigramFreq (keyPos : gmap gostring (nat * nat))
    (bigrams : list (gostring * Q)) : Q :=
  Qsum ((fun m => m.2) <$> omap (matchedBigram keyPos) bigrams).

(** The number 0..29 of a position. *)
Definition posIndex (pos : nat * nat) : Z := (Z.of_nat pos.1 * 10 + Z.of_nat pos.2)%Z.

(** The coefficients that the cost model gives for an ordered position pair. *)
Definition overridesOf (config : KeyboardConfig) (pos1 pos2 : nat * nat) : list Q :=
  Coeff <$> List.filter
              (fun o => (Pos1 o =? posIndex pos1)%Z && (Pos2 o =? posIndex pos2)%Z)
              (BigramIndividualCoeffs config).

(** The sum of [freq * override_coefficient] over the matched bigrams and the
    overrides of their position pair. *)
Definition overrideSum (config : KeyboardConfig) (keyPos : gmap gostring (nat * nat))
    (bigrams : list (gostring * Q)) : Q :=
  Qsum ((fun m => Qsum ((fun k => m.2 * k) <$> overridesOf config m.1.1 m.1.2))
          <$> omap (matchedBigram keyPos) bigrams).

(** Setting one strict-mode flag of a cost model. *)
Definition set_strict (hsbMode fsbMode lsbMode : Z) (config : KeyboardConfig)
    : KeyboardConfig :=
  let w := Weights config in
  {| EffortMatrix := EffortMatrix config; FixedPositions := FixedPositions config;
     MaxFingerEfforts := MaxFingerEfforts config;
     FingerEffortPenalties := FingerEffortPenalties config;
     MaxRowEfforts := MaxRowEfforts config;
     RowEffortPenalties := RowEffortPenalties config;
     Weights :=
       {| wSHB := wSHB w; wSFB := wSFB w; wHVB := wHVB w; wFVB := wFVB w;
          wHDB := wHDB w; wFDB := wFDB w; wHFB := wHFB w; wHSB := wHSB w;
          wFSB := wFSB w; wLSB := wLSB w; wSRB := wSRB w; wAFI := wAFI w;
          wAFO := wAFO w; wHDI := wHDI w; wFDI := wFDI w;
          D18 := D18 w; D27 := D27 w; D36 := D36 w; D45 := D45 w;
          HSBStrictMode := hsbMode; FSBStrictMode := fsbMode; LSBStrictMode := lsbMode;
          TotalEffortNorm := TotalEffortNorm w |};
     BigramIndividualCoeffs := BigramIndividualCoeffs config |}.

Definition set_HSBStrictMode (v : Z) (config : KeyboardConfig) : KeyboardConfig :=
  set_strict v (FSBStrictMode (Weights config)) (LSBStrictMode (Weights config)) config.

Definition set_FSBStrictMode (v : Z) (config : KeyboardConfig) : KeyboardConfig :=
  set_strict (HSBStrictMode (Weights config)) v (LSBStrictMode (Weights config)) config.

Definition set_LSBStrictMode (v : Z) (config : KeyboardConfig) : KeyboardConfig :=
  set_strict (HSBStrictMode (Weights config)) (FSBStrictMode (Weights config)) v config.

(** The total matched character frequency: the mass of the corpus
    characters that have a position. *)
Definition matchedCharFreq (keyPos : gmap gostring (nat * nat))
    (chars : list (gostring * Q)) : Q :=
  Qsum (omap (fun e => match keyPos !! e.1 with
                       | Some _ => Some e.2
                       | None => None
                       end) chars).

(** Ascending order of scores. *)
Definition scoreLe (a b : SimulatedAnnealingResult) : Prop := Score a <= Score b.

(** A stable sort by score, as the specification asks for: insertion sort,
    where a result goes after the results of equal score that are already
    in place. *)
Fixpoint insertByScore (r : SimulatedAnnealingResult)
    (rs : list SimulatedAnnealingResult) : list SimulatedAnnealingResult :=
  match rs with
  | [] => [r]
  | r' :: rs' => if Qltb (Score r) (Score r') then r :: rs
                 else r' :: insertByScore r rs'
  end.

Definition stableSortByScore (rs : list SimulatedAnnealingResult)
    : list SimulatedAnnealingResult :=
  foldl (fun sorted r => insertByScore r sorted) [] rs.

(** The resolved lock set of the seeded search, from the matrix of the
    seed's uppercase positions: these positions when there is one, else the
    positions that the mask of the cost model does not mark ['.']. *)
Definition anyUppercase (uppercasePositions : list (list bool)) : bool :=
  existsb (fun '(row, col) => grid false uppercasePositions row col) positions.

Definition lockedBySeed (config : KeyboardConfig) (uppercasePositions : list (list bool))
    (row col : nat) : bool :=
  if anyUppercase uppercasePositions then grid false uppercasePositions row col
  else negb (bool_decide (grid [] (FixedPositions config) row col = dot)).

(** The lock set of [generateNeighbor], read off the layout it is given:
    its uppercase keys, and the mask of the cost model when it has none. *)
Definition lockedInPlace `{GoLib} (layout : Layout) (config : KeyboardConfig)
    (row col : nat) : bool :=
  if hasUppercaseLetters layout then isUppercase (key layout row col)
  else negb (bool_decide (grid [] (FixedPositions config) row col = dot))
       || isUppercase (key layout row col).

(** Eligible for a swap, in the words of the specification: unlocked and
    holding a non-empty character. *)
Definition eligible (locked : nat -> nat -> bool) (layout : Layout) (row col : nat)
    : bool :=
  negb (locked row col) && negb (bool_decide (key layout row col = [])).

Definition eligiblePositions (locked : nat -> nat -> bool) (layout : Layout)
    : list (nat * nat) :=
  List.filter (fun '(row, col) => eligible locked layout row col) positions.

(** Eligible for a swap as the seeded neighbor generators test it: unlocked
    and holding a character, where neither the empty string nor the single
    space counts as one. *)
Definition swapEligible (locked : nat -> nat -> bool) (layout : Layout) (row col : nat)
    : bool :=
  negb (locked row col) && nonEmpty (key layout row col).

Definition swapEligiblePositions (locked : nat -> nat -> bool) (layout : Layout)
    : list (nat * nat) :=
  List.filter (fun '(row, col) => swapEligible locked layout row col) positions.

(** The key that the lowercased seed holds where the seed holds [k]:
    [strings.ToLower(k)], except that the empty string and the single space
    are left as they are. *)
Definition lowerKey `{GoLib} (k : gostring) : gostring :=
  if nonEmpty k then ToLower k else k.

(** ** Auxiliary definitions *)

(** The cell of a grid, if the grid has it. *)
Definition cell {A} (m : list (list A)) (row col : nat) : option A :=
  m !! row ≫= fun r => r !! col.

(** One pass of the inner loop of [sortResultsByScore], seen from the list:
    [x] is the current [results[i]], the list holds [results[i+1..]]; the
    pass returns the final [results[i]] and the rest. *)
Fixpoint selectMin (x : SimulatedAnnealingResult) (rest : list SimulatedAnnealingResult)
    : SimulatedAnnealingResult * list SimulatedAnnealingResult :=
  match rest with
  | [] => (x, [])
  | y :: rest' =>
      if Qltb (Score y) (Score x)
      then (fun '(m, tl) => (m, x :: tl)) (selectMin y rest')
      else (fun '(m, tl) => (m, y :: tl)) (selectMin x rest')
  end.

(** The invariant of the restart loop: [best] is sorted, within the bound
    [numBest] when that is positive, and holds results of [produced] that
    score no worse than those it leaves out. *)
Definition ranked (numBest : Z) (best produced : list SimulatedAnnealingResult) : Prop :=
  StronglySorted scoreLe best
  /\ ((0 < numBest)%Z -> (length best <= Z.to_nat numBest)%nat)
  /\ exists rest,
       produced ≡ₚ best ++ rest
       /\ (forall a b, a ∈ best -> b ∈ rest -> scoreLe a b)
       /\ (rest <> [] -> (0 < numBest)%Z /\ length best = Z.to_nat numBest).

(** Results of equal score are the same record. *)
Definition tiesIdentical (rs : list SimulatedAnnealingResult) : Prop :=
  forall a b, a ∈ rs -> b ∈ rs -> Score a == Score b -> a = b.

(** The result of a restart that ends on the layout it started from. *)
Definition resultOf (config : KeyboardConfig) (langData : LanguageData)
    (layout : Layout) : SimulatedAnnealingResult :=
  {| rLayout := layout;
     rAnalysis := AnalyzeLayout layout config langData;
     Score := WeightedScore (AnalyzeLayout layout config langData) |}.

(** The thirty keys of a layout, in row-major order. *)
Definition keysOf (l : Layout) : list gostring :=
  (fun pos : nat * nat => key l pos.1 pos.2) <$> positions.

(** Exchanging two positions. *)
Definition exchange (pos1 pos2 pos : nat * nat) : nat * nat :=
  if decide (pos = pos2) then pos1 else if decide (pos = pos1) then pos2 else pos.

(** The free cells of a mask, those marked ['.'], in row-major order, and
    what the mask prescribes for a cell that is not free: nothing for ['x'],
    else the letter that it holds. *)
Definition isFree (config : KeyboardConfig) (pos : nat * nat) : bool :=
  bool_decide (grid [] (FixedPositions config) pos.1 pos.2 = dot).

Definition freePositions (config : KeyboardConfig) : list (nat * nat) :=
  List.filter (isFree config) positions.

Definition prescribed (config : KeyboardConfig) (pos : nat * nat) : gostring :=
  if bool_decide (grid [] (FixedPositions config) pos.1 pos.2 = str "x") then []
  else grid [] (FixedPositions config) pos.1 pos.2.

(** The penalty that one finger or row adds to MEP. *)
Definition excessPenalty (maxima loads rates : list Q) (i : nat) : Q :=
  if Qltb 0 (at_ maxima i) then
    if Qltb 0 (at_ loads i - at_ maxima i)
    then (at_ loads i - at_ maxima i) * at_ rates i else 0
  else 0.

(** HSB + HSB2 as binary64 computes it, with the strict flag of HSB set to
    [mode]. *)
Definition scissorsSum (mode : Z) (bigrams : list (gostring * float)) : float :=
  let b := Binary64.AnalyzeLayout scissorsLayout (set_HSBStrictMode mode (plainConfig []))
             bigrams in
  (Binary64.HSB b + Binary64.HSB2 b)%float.

(** * Properties *)

Lemma Qltb_lt x y : Qltb x y = true <-> x < y.
Proof. unfold Qltb, Qlt. apply Z.ltb_lt. Qed.

Lemma Qltb_ge x y : Qltb x y = false <-> y <= x.
Proof. unfold Qltb, Qle. rewrite Z.ltb_ge. reflexivity. Qed.

(** ** Distance to the centre line *)

Lemma centerDist_left col :
  (col < 5)%nat -> centerDist col == (9 # 2) - inject_Z (Z.of_nat col).
Proof.
  intros Hc. unfold centerDist. rewrite Qabs_neg.
  - ring.
  - assert (inject_Z (Z.of_nat col) <= inject_Z 4) as Hle by (rewrite <- Zle_Qle; lia).
    change (inject_Z 4) with 4 in Hle.
    generalize dependent (inject_Z (Z.of_nat col)); intros; lra.
Qed.

Lemma centerDist_right col :
  (5 <= col)%nat -> centerDist col == inject_Z (Z.of_nat col) - (9 # 2).
Proof.
  intros Hc. unfold centerDist. rewrite Qabs_pos.
  - ring.
  - assert (inject_Z 5 <= inject_Z (Z.of_nat col)) as Hle by (rewrite <- Zle_Qle; lia).
    change (inject_Z 5) with 5 in Hle.
    generalize dependent (inject_Z (Z.of_nat col)); intros; lra.
Qed.

Ltac step_of col1 col2 :=
  rewrite inject_Z_plus; change (inject_Z 1) with 1;
  generalize (inject_Z (Z.of_nat col1)), (inject_Z (Z.of_nat col2)); intros; lra.

Lemma centerDist_adjacent col1 col2 :
  getHalf col1 = getHalf col2 -> colDiff col1 col2 = 1%Z ->
  centerDist col1 < centerDist col2 \/ centerDist col2 < centerDist col1.
Proof.
  unfold getHalf, colDiff, abs. intros Hh Hd.
  destruct (Nat.ltb_spec col1 5), (Nat.ltb_spec col2 5); try discriminate.
  - rewrite !centerDist_left by lia.
    destruct (Z.ltb_spec (Z.of_nat col1 - Z.of_nat col2) 0).
    + right. assert (Z.of_nat col2 = Z.of_nat col1 + 1)%Z as -> by lia. step_of col1 col2.
    + left. assert (Z.of_nat col1 = Z.of_nat col2 + 1)%Z as -> by lia. step_of col1 col2.
  - rewrite !centerDist_right by lia.
    destruct (Z.ltb_spec (Z.of_nat col1 - Z.of_nat col2) 0).
    + left. assert (Z.of_nat col2 = Z.of_nat col1 + 1)%Z as -> by lia. step_of col1 col2.
    + right. assert (Z.of_nat col1 = Z.of_nat col2 + 1)%Z as -> by lia. step_of col1 col2.
Qed.

Lemma afSplit_adjacent row col1 col2 a b freq :
  getHalf col1 = getHalf col2 -> colDiff col1 col2 = 1%Z ->
  afSplit row col1 row col2 a b freq = (a + freq, b)
  \/ afSplit row col1 row col2 a b freq = (a, b + freq).
Proof.
  intros Hh Hd. unfold afSplit. rewrite Nat.eqb_refl, Hd. simpl.
  destruct (centerDist_adjacent col1 col2 Hh Hd) as [Hlt|Hlt].
  - right. apply Qltb_lt in Hlt as Hb. rewrite Hb.
    destruct (Qltb (centerDist col2) (centerDist col1)) eqn:Hb'; [|reflexivity].
    apply Qltb_lt in Hb'. lra.
  - left. apply Qltb_lt in Hlt. rewrite Hlt. reflexivity.
Qed.

(** C10. A matched bigram that reaches the AFI/AFO block (same half, same
    row, adjacent columns) never has its two keys at the same distance from
    the centre line, and its frequency goes to exactly one of the two
    counters. *)
Theorem afi_afo_exactly_one config char1 char2 row1 col1 row2 col2 freq c :
  getHalf col1 = getHalf col2 -> row1 = row2 -> colDiff col1 col2 = 1%Z ->
  let c' := classify config char1 char2 (row1, col1) (row2, col2) freq c in
  ~ centerDist col1 == centerDist col2
  /\ ((afi c' = afi c + freq /\ afo c' = afo c)
      \/ (afi c' = afi c /\ afo c' = afo c + freq)).
Proof.
  intros Hh -> Hd c'. split.
  - intros Heq. destruct (centerDist_adjacent col1 col2 Hh Hd); lra.
  - subst c'. unfold classify. cbn [afi afo]. rewrite Hh, Nat.eqb_refl.
    destruct (afSplit_adjacent row2 col1 col2 (afi c) (afo c) freq Hh Hd) as [-> | ->];
      auto.
Qed.

Lemma afi_afo_exactly_one_witness :
  let c' := classify (plainConfig []) (str "a") (str "b") (1, 3)%nat (1, 4)%nat 1
              (zeroCounters 0) in
  ~ centerDist 3 == centerDist 4
  /\ ((afi c' = 0 + 1 /\ afo c' = 0) \/ (afi c' = 0 /\ afo c' = 0 + 1)).
Proof.
  apply (afi_afo_exactly_one (plainConfig []) (str "a") (str "b") 1 3 1 4 1
           (zeroCounters 0)); reflexivity.
Defined.

(** ** Scissors bigrams in strict mode *)

Lemma isSameHand_sameHalf col1 col2 :
  isSameHand col1 col2 = true -> (getHalf col1 =? getHalf col2)%nat = true.
Proof.
  unfold isSameHand, getHalf. intros Hp.
  apply orb_prop in Hp as [Hp|Hp]; apply andb_prop in Hp as [Ha Hb];
    apply andb_prop in Ha as [Ha1 Ha2]; apply andb_prop in Hb as [Hb1 Hb2];
    apply Nat.leb_le in Ha1, Ha2, Hb1, Hb2;
    destruct (Nat.ltb_spec col1 5), (Nat.ltb_spec col2 5); try reflexivity; lia.
Qed.

Lemma hsbPattern_sameHalf row1 col1 row2 col2 :
  hsbPattern row1 col1 row2 col2 = true -> (getHalf col1 =? getHalf col2)%nat = true.
Proof.
  unfold hsbPattern. intros Hp. repeat (apply andb_prop in Hp as [Hp _]).
  by apply isSameHand_sameHalf.
Qed.

Lemma fsbPattern_sameHalf row1 col1 row2 col2 :
  fsbPattern row1 col1 row2 col2 = true -> (getHalf col1 =? getHalf col2)%nat = true.
Proof.
  unfold fsbPattern. intros Hp. repeat (apply andb_prop in Hp as [Hp _]).
  by apply isSameHand_sameHalf.
Qed.

Lemma isHSBValid_lower row1 col1 row2 col2 :
  hsbPattern row1 col1 row2 col2 = true ->
  isHSBValid row1 col1 row2 col2 = isSpecial (lowerFinger row1 col1 row2 col2).
Proof.
  unfold hsbPattern, isHSBValid, lowerFinger, rowDiff, abs. intros Hp.
  repeat (apply andb_prop in Hp as [Hp ?]).
  assert (row1 <> row2).
  { intros ->. rewrite Z.sub_diag in *. discriminate. }
  destruct (Nat.ltb_spec row1 row2).
  - rewrite Nat.eqb_refl. replace (row2 =? row1)%nat with false
      by (symmetry; apply Nat.eqb_neq; lia). reflexivity.
  - rewrite Nat.eqb_refl. replace (row1 =? row2)%nat with false
      by (symmetry; apply Nat.eqb_neq; lia).
    simpl. apply orb_false_r.
Qed.

Lemma isFSBValid_bottom row1 col1 row2 col2 :
  fsbPattern row1 col1 row2 col2 = true ->
  isFSBValid row1 col1 row2 col2 = isSpecial (bottomFinger row1 col1 row2 col2).
Proof.
  unfold fsbPattern, isFSBValid, bottomFinger. intros Hp.
  apply andb_prop in Hp as [Hp _]. apply andb_prop in Hp as [Hp _].
  apply andb_prop in Hp as [_ Hr].
  apply orb_prop in Hr as [Hr|Hr]; apply andb_prop in Hr as [Hr1 Hr2];
    apply Nat.eqb_eq in Hr1, Hr2; subst; simpl; [reflexivity | apply orb_false_r].
Qed.

(** C2, amended.  In strict mode a bigram with the HSB geometry is counted in
    [hsb] exactly when its lower-positioned character is on one of the
    fingers 1, 2, 5, 6 of [fingerMap] (the ring and middle finger of either
    hand, columns 1, 2, 7, 8), and in [hsb2] otherwise; likewise for the FSB
    geometry and its bottom-row character with [fsb] and [fsb2]. *)
Theorem scissors_strict_routing config char1 char2 row1 col1 row2 col2 freq c :
  let c' := classify config char1 char2 (row1, col1) (row2, col2) freq c in
  (HSBStrictMode (Weights config) = 1%Z -> hsbPattern row1 col1 row2 col2 = true ->
   (hsb c', hsb2 c') =
     if isSpecial (lowerFinger row1 col1 row2 col2)
     then (hsb c + freq, hsb2 c) else (hsb c, hsb2 c + freq))
  /\ (FSBStrictMode (Weights config) = 1%Z -> fsbPattern row1 col1 row2 col2 = true ->
      (fsb c', fsb2 c') =
        if isSpecial (bottomFinger row1 col1 row2 col2)
        then (fsb c + freq, fsb2 c) else (fsb c, fsb2 c + freq)).
Proof.
  intros c'. subst c'. unfold classify. cbn [hsb hsb2 fsb fsb2]. split.
  - intros Hs Hp. rewrite Hs, (hsbPattern_sameHalf _ _ _ _ Hp), Hp,
      (isHSBValid_lower _ _ _ _ Hp).
    unfold strictSplit. simpl.
    destruct (isSpecial _); reflexivity.
  - intros Hs Hp. rewrite Hs, (fsbPattern_sameHalf _ _ _ _ Hp), Hp,
      (isFSBValid_bottom _ _ _ _ Hp).
    unfold strictSplit. simpl.
    destruct (isSpecial _); reflexivity.
Qed.

Lemma isSpecial_columns row col :
  (col < 10)%nat ->
  isSpecial (getFingerForKey row col) = true <-> col = 1%nat \/ col = 2%nat \/ col = 7%nat \/ col = 8%nat.
Proof.
  intros Hc. do 10 (destruct col as [|col]; [vm_compute; intuition (discriminate || lia)|]).
  lia.
Qed.

Lemma scissors_strict_routing_witness :
  let c := zeroCounters 0 in
  let c1 := classify (plainConfig []) (str "a") (str "b") (0, 3)%nat (1, 2)%nat 1 c in
  let c2 := classify (plainConfig []) (str "a") (str "b") (2, 0)%nat (0, 3)%nat 1 c in
  (hsb c1, hsb2 c1) = (0 + 1, 0) /\ (fsb c2, fsb2 c2) = (0, 0 + 1).
Proof.
  split.
  - apply (proj1 (scissors_strict_routing (plainConfig []) (str "a") (str "b")
                    0 3 1 2 1 (zeroCounters 0))); reflexivity.
  - apply (proj2 (scissors_strict_routing (plainConfig []) (str "a") (str "b")
                    2 0 0 3 1 (zeroCounters 0))); reflexivity.
Defined.

(** C2 as stated fails: with [c] on the top row (column 2) and [v] on the
    home row under the left index finger (column 3), the bigram has the HSB
    geometry and its lower character is on an index finger, yet strict mode
    puts all of it in HSB2. *)
Lemma scissors_index_finger_counterexample :
  let layout := mkLayout [""; ""; "c"] [""; ""; ""; "v"] [] in
  let a := AnalyzeLayout layout (plainConfig []) (corpus [] [("cv", 1)]) in
  buildKeyPos layout !! str "c" = Some (0, 2)%nat
  /\ buildKeyPos layout !! str "v" = Some (1, 3)%nat
  /\ hsbPattern 0 2 1 3 = true
  /\ isIndexOrRing (lowerFinger 0 2 1 3) = true
  /\ HSB (Bigram a) == 0 /\ HSB2 (Bigram a) == 100.
Proof. vm_compute. repeat split; congruence. Qed.

(** ** The empty corpus *)

Lemma penalties_no_load n maxima loads rates mep :
  (forall i, at_ loads i == 0) -> penalties n maxima loads rates mep = mep.
Proof.
  intros Hz. unfold penalties. generalize (seq 0 n) as l.
  induction l as [|i l IH]; simpl; [reflexivity|].
  destruct (Qltb 0 (at_ maxima i)) eqn:Hm; [|exact IH].
  destruct (Qltb 0 (at_ loads i - at_ maxima i)) eqn:He; [|exact IH].
  apply Qltb_lt in Hm, He. specialize (Hz i). lra.
Qed.

Lemma at_replicate_zero n i : at_ (replicate n 0) i == 0.
Proof.
  unfold at_. destruct (replicate n 0 !! i) as [x|] eqn:Hx; simpl; [|reflexivity].
  apply lookup_replicate in Hx as [-> _]. reflexivity.
Qed.

Lemma calculateEffort_empty layout config langData keyPos analysis :
  Characters langData = ∅ ->
  calculateEffort layout config langData keyPos analysis = analysis.
Proof.
  intros Hc. unfold calculateEffort. rewrite Hc, map_to_list_empty. reflexivity.
Qed.

Lemma calculateBigrams_empty layout config langData keyPos name :
  Bigrams langData = ∅ ->
  calculateBigrams layout config langData keyPos (newAnalysis name) = newAnalysis name.
Proof.
  intros Hb. unfold calculateBigrams. rewrite Hb, map_to_list_empty. reflexivity.
Qed.

(** C9. On a corpus whose character and bigram maps are empty, [AnalyzeLayout]
    (a total function: it has no error result) returns an analysis whose
    numbers are all zero. *)
Theorem analyze_empty_corpus layout config langData :
  Characters langData = ∅ -> Bigrams langData = ∅ ->
  allZero (AnalyzeLayout layout config langData).
Proof.
  intros Hc Hb. unfold AnalyzeLayout.
  generalize (buildKeyPos layout) as keyPos. intros keyPos.
  rewrite calculateEffort_empty, calculateBigrams_empty by assumption.
  unfold calculateMEP, calculateWeightedScore, calculateFDI.
  cbn [set_HDI set_FDI set_MEP set_WeightedScore newAnalysis
       LayoutName TotalEffort EffortByRow EffortByFinger EffortByHalf Bigram
       HDI FDI MEP WeightedScore].
  rewrite !penalties_no_load by apply at_replicate_zero.
  unfold allZero, zeroBigrams, zeros, zeroBigramAnalysis, at_.
  cbn [SHB SFB HVB FVB HDB FDB HFB HSB FSB LSB SRB AFI AFO HSB2 FSB2 LSB2 SKB TIB
       replicate lookup list_lookup default from_option length].
  repeat split; try reflexivity; repeat constructor; try reflexivity.
  all: cbn [FDI WeightedScore set_WeightedScore set_MEP set_FDI set_HDI id];
    change (Qabs (0 - 0)) with 0; ring.
Qed.

Lemma analyze_empty_corpus_witness :
  allZero (AnalyzeLayout (mkLayout ["q"; "w"] ["a"] []) (plainConfig []) (corpus [] [])).
Proof. apply analyze_empty_corpus; reflexivity. Defined.

(** ** The bigram loop *)

Lemma bigramStep_matched config keyPos c entry :
  bigramStep config keyPos c entry =
    match matchedBigram keyPos entry with
    | Some (pos1, pos2, freq) =>
        classify config [default 0%N (entry.1 !! 0%nat)] [default 0%N (entry.1 !! 1%nat)]
          pos1 pos2 freq c
    | None => c
    end.
Proof.
  destruct entry as [bigram freq]. unfold bigramStep, matchedBigram; simpl.
  destruct bigram as [|r1 [|r2 [|r3 rest]]]; try reflexivity.
  destruct (keyPos !! [r1]), (keyPos !! [r2]); reflexivity.
Qed.

Lemma addTIB_sum config row1 col1 row2 col2 freq t :
  addTIB config row1 col1 row2 col2 freq t
  == t + Qsum ((fun k => freq * k) <$> overridesOf config (row1, col1) (row2, col2)).
Proof.
  unfold addTIB, overridesOf, posIndex; simpl.
  replace (Z.of_nat row1 * 10 + Z.of_nat col1 + 1 - 1)%Z
    with (Z.of_nat row1 * 10 + Z.of_nat col1)%Z by lia.
  replace (Z.of_nat row2 * 10 + Z.of_nat col2 + 1 - 1)%Z
    with (Z.of_nat row2 * 10 + Z.of_nat col2)%Z by lia.
  generalize (BigramIndividualCoeffs config) as l. intros l. revert t.
  induction l as [|o l IH]; intros t; simpl.
  - ring.
  - destruct (_ && _); rewrite IH; [rewrite !fmap_cons|]; simpl; ring.
Qed.

Lemma classify_total config char1 char2 pos1 pos2 freq c :
  totalBigramFreq (classify config char1 char2 pos1 pos2 freq c)
  = totalBigramFreq c + freq.
Proof. destruct pos1, pos2. reflexivity. Qed.

Lemma classify_tib config char1 char2 pos1 pos2 freq c :
  tib (classify config char1 char2 pos1 pos2 freq c)
  == tib c + Qsum ((fun k => freq * k) <$> overridesOf config pos1 pos2).
Proof. destruct pos1, pos2. unfold classify. cbn [tib]. apply addTIB_sum. Qed.

Lemma matchedBigramFreq_cons keyPos e l :
  matchedBigramFreq keyPos (e :: l) =
    match matchedBigram keyPos e with
    | Some m => m.2 + matchedBigramFreq keyPos l
    | None => matchedBigramFreq keyPos l
    end.
Proof.
  unfold matchedBigramFreq. simpl. destruct (matchedBigram keyPos e); reflexivity.
Qed.

Lemma overrideSum_cons config keyPos e l :
  overrideSum config keyPos (e :: l) =
    match matchedBigram keyPos e with
    | Some m => Qsum ((fun k => m.2 * k) <$> overridesOf config m.1.1 m.1.2)
                + overrideSum config keyPos l
    | None => overrideSum config keyPos l
    end.
Proof.
  unfold overrideSum. simpl. destruct (matchedBigram keyPos e); reflexivity.
Qed.

Lemma foldl_bigramStep_total config keyPos bigrams c :
  totalBigramFreq (foldl (bigramStep config keyPos) c bigrams)
  == totalBigramFreq c + matchedBigramFreq keyPos bigrams.
Proof.
  revert c. induction bigrams as [|e l IH]; intros c.
  - unfold matchedBigramFreq; simpl. ring.
  - cbn [foldl]. rewrite IH, bigramStep_matched, matchedBigramFreq_cons.
    destruct (matchedBigram keyPos e) as [[[pos1 pos2] freq]|].
    + rewrite classify_total. cbn [snd]. ring.
    + reflexivity.
Qed.

Lemma foldl_bigramStep_tib config keyPos bigrams c :
  tib (foldl (bigramStep config keyPos) c bigrams)
  == tib c + overrideSum config keyPos bigrams.
Proof.
  revert c. induction bigrams as [|e l IH]; intros c.
  - unfold overrideSum; simpl. ring.
  - cbn [foldl]. rewrite IH, bigramStep_matched, overrideSum_cons.
    destruct (matchedBigram keyPos e) as [[[pos1 pos2] freq]|].
    + rewrite classify_tib. cbn [fst snd]. ring.
    + reflexivity.
Qed.

Lemma bigramLoop_total config keyPos bigrams tib0 :
  totalBigramFreq (bigramLoop config keyPos bigrams tib0)
  == matchedBigramFreq keyPos bigrams.
Proof. unfold bigramLoop. rewrite foldl_bigramStep_total. simpl. ring. Qed.

Lemma bigramLoop_tib config keyPos bigrams tib0 :
  tib (bigramLoop config keyPos bigrams tib0)
  == tib0 + overrideSum config keyPos bigrams.
Proof. unfold bigramLoop. rewrite foldl_bigramStep_tib. reflexivity. Qed.

(** [calculateEffort] leaves the bigram fields alone. *)
Lemma calculateEffort_Bigram layout config langData keyPos analysis :
  Bigram (calculateEffort layout config langData keyPos analysis) = Bigram analysis.
Proof.
  unfold calculateEffort. destruct (effortTotals _ _ _) as [te tf].
  destruct (Qltb 0 tf); reflexivity.
Qed.

(** The bigram fields of the result are those that [calculateBigrams] leaves. *)
Lemma AnalyzeLayout_Bigram layout config langData :
  Bigram (AnalyzeLayout layout config langData)
  = Bigram (calculateBigrams layout config langData (buildKeyPos layout)
              (calculateEffort layout config langData (buildKeyPos layout)
                 (newAnalysis (Name layout)))).
Proof. reflexivity. Qed.

(** ** The TIB term *)

Lemma calculateWeightedScore_spec config a :
  let r := calculateWeightedScore config a in
  let w := Weights config in
  let b := Bigram r in
  WeightedScore r =
    0 + TotalEffortNorm w * TotalEffort r
      + wSHB w * SHB b + wSFB w * SFB b + wHVB w * HVB b + wFVB w * FVB b
      + wHDB w * HDB b + wFDB w * FDB b + wHFB w * HFB b + wHSB w * HSB b
      + wFSB w * FSB b + wLSB w * LSB b + wSRB w * SRB b + wAFI w * AFI b
      + wAFO w * AFO b
      + TIB b
      + wHDI w * HDI r + wFDI w * FDI r + MEP r.
Proof. reflexivity. Qed.

(** C1, amended.  When the total matched bigram frequency is positive, the TIB
    value of the analysis is the sum of [freq * override_coefficient] over the
    matched bigrams with an override, divided by the total matched bigram
    frequency and multiplied by 100; this value is added to the weighted
    score as it is, with no weight. *)
Theorem tib_is_percentage layout config langData :
  let keyPos := buildKeyPos layout in
  let bigrams := map_to_list (Bigrams langData) in
  let a := AnalyzeLayout layout config langData in
  let w := Weights config in
  let b := Bigram a in
  0 < matchedBigramFreq keyPos bigrams ->
  TIB b == overrideSum config keyPos bigrams / matchedBigramFreq keyPos bigrams * 100
  /\ WeightedScore a =
       0 + TotalEffortNorm w * TotalEffort a
         + wSHB w * SHB b + wSFB w * SFB b + wHVB w * HVB b + wFVB w * FVB b
         + wHDB w * HDB b + wFDB w * FDB b + wHFB w * HFB b + wHSB w * HSB b
         + wFSB w * FSB b + wLSB w * LSB b + wSRB w * SRB b + wAFI w * AFI b
         + wAFO w * AFO b
         + TIB b
         + wHDI w * HDI a + wFDI w * FDI a + MEP a.
Proof.
  intros keyPos bigrams a w b Hpos. split.
  - subst b a. rewrite AnalyzeLayout_Bigram. fold keyPos.
    unfold calculateBigrams. fold bigrams.
    rewrite calculateEffort_Bigram. cbn [newAnalysis Bigram zeroBigramAnalysis TIB].
    assert (Qltb 0 (totalBigramFreq (bigramLoop config keyPos bigrams 0)) = true) as ->.
    { apply Qltb_lt. rewrite bigramLoop_total. exact Hpos. }
    cbn [set_Bigram Bigram TIB]. unfold pct.
    rewrite bigramLoop_tib, bigramLoop_total.
    assert (~ matchedBigramFreq keyPos bigrams == 0) by lra.
    field. assumption.
  - apply calculateWeightedScore_spec.
Qed.

Lemma tib_is_percentage_witness :
  let layout := mkLayout ["a"; "b"] [] [] in
  let config := plainConfig [ {| Pos1 := 0; Pos2 := 1; Coeff := 3 |} ] in
  let langData := corpus [] [("ab", 1 # 2)] in
  TIB (Bigram (AnalyzeLayout layout config langData))
  == overrideSum config (buildKeyPos layout) (map_to_list (Bigrams langData))
     / matchedBigramFreq (buildKeyPos layout) (map_to_list (Bigrams langData)) * 100.
Proof.
  intros layout config langData.
  apply (tib_is_percentage layout config langData). reflexivity.
Defined.

(** C1 as stated fails: with [a] and [b] on positions 0 and 1, the bigram
    [ab] of frequency 1/2 and the override 3 on the pair (0, 1), the raw sum
    is 3/2, while the TIB value and the weighted score are 300. *)
Lemma tib_raw_sum_counterexample :
  let layout := mkLayout ["a"; "b"] [] [] in
  let config := plainConfig [ {| Pos1 := 0; Pos2 := 1; Coeff := 3 |} ] in
  let langData := corpus [] [("ab", 1 # 2)] in
  let keyPos := buildKeyPos layout in
  let bigrams := map_to_list (Bigrams langData) in
  let a := AnalyzeLayout layout config langData in
  0 < matchedBigramFreq keyPos bigrams
  /\ overrideSum config keyPos bigrams == 3 # 2
  /\ TIB (Bigram a) == 300
  /\ WeightedScore a == 300
  /\ ~ TIB (Bigram a) == overrideSum config keyPos bigrams.
Proof. vm_compute. repeat split; congruence. Qed.

(** ** Strict and non-strict buckets *)

Lemma strictSplit_sum pattern mode valid primary secondary freq :
  (strictSplit pattern mode valid primary secondary freq).1
  + (strictSplit pattern mode valid primary secondary freq).2
  == primary + secondary + (if pattern then freq else 0).
Proof.
  unfold strictSplit.
  destruct pattern, (mode =? 1)%Z, valid; simpl; ring.
Qed.

Section Buckets.
(** A primary and a secondary counter whose joint mass grows, at each
    matched bigram, by an amount [mass] that does not depend on the cost
    model. *)
Variables primary secondary : BigramCounters -> Q.
Variable mass : nat * nat -> nat * nat -> Q -> Q.
Hypothesis classify_mass : forall config char1 char2 pos1 pos2 freq c,
  primary (classify config char1 char2 pos1 pos2 freq c)
  + secondary (classify config char1 char2 pos1 pos2 freq c)
  == primary c + secondary c + mass pos1 pos2 freq.

Lemma foldl_bigramStep_mass config1 config2 keyPos bigrams c1 c2 :
  primary c1 + secondary c1 == primary c2 + secondary c2 ->
  primary (foldl (bigramStep config1 keyPos) c1 bigrams)
  + secondary (foldl (bigramStep config1 keyPos) c1 bigrams)
  == primary (foldl (bigramStep config2 keyPos) c2 bigrams)
     + secondary (foldl (bigramStep config2 keyPos) c2 bigrams).
Proof.
  revert c1 c2. induction bigrams as [|e l IH]; intros c1 c2 Heq; [exact Heq|].
  cbn [foldl]. apply IH. rewrite !bigramStep_matched.
  destruct (matchedBigram keyPos e) as [[[pos1 pos2] freq]|]; [|exact Heq].
  rewrite !classify_mass, Heq. reflexivity.
Qed.

Lemma pct_mass_independent config1 config2 keyPos bigrams tib1 tib2 :
  primary (zeroCounters tib1) + secondary (zeroCounters tib1)
  == primary (zeroCounters tib2) + secondary (zeroCounters tib2) ->
  let c1 := bigramLoop config1 keyPos bigrams tib1 in
  let c2 := bigramLoop config2 keyPos bigrams tib2 in
  Qltb 0 (totalBigramFreq c1) = Qltb 0 (totalBigramFreq c2)
  /\ pct (primary c1) (totalBigramFreq c1) + pct (secondary c1) (totalBigramFreq c1)
     == pct (primary c2) (totalBigramFreq c2) + pct (secondary c2) (totalBigramFreq c2).
Proof.
  intros Hz c1 c2.
  assert (Hm : primary c1 + secondary c1 == primary c2 + secondary c2)
    by (apply foldl_bigramStep_mass, Hz).
  assert (Ht1 := bigramLoop_total config1 keyPos bigrams tib1).
  assert (Ht2 := bigramLoop_total config2 keyPos bigrams tib2).
  fold c1 in Ht1. fold c2 in Ht2. split.
  - destruct (Qltb 0 (totalBigramFreq c1)) eqn:H1, (Qltb 0 (totalBigramFreq c2)) eqn:H2;
      try reflexivity.
    + apply Qltb_lt in H1. apply Qltb_ge in H2. lra.
    + apply Qltb_lt in H2. apply Qltb_ge in H1. lra.
  - unfold pct. rewrite Ht1, Ht2.
    transitivity ((primary c1 + secondary c1)
                  * (/ matchedBigramFreq keyPos bigrams * 100)).
    + unfold Qdiv. ring.
    + rewrite Hm. unfold Qdiv. ring.
Qed.
End Buckets.

Lemma classify_hsb_mass config char1 char2 pos1 pos2 freq c :
  hsb (classify config char1 char2 pos1 pos2 freq c)
  + hsb2 (classify config char1 char2 pos1 pos2 freq c)
  == hsb c + hsb2 c
     + (if (getHalf pos1.2 =? getHalf pos2.2)%nat && hsbPattern pos1.1 pos1.2 pos2.1 pos2.2
        then freq else 0).
Proof. destruct pos1, pos2. unfold classify. cbn [hsb hsb2]. apply strictSplit_sum. Qed.

Lemma classify_fsb_mass config char1 char2 pos1 pos2 freq c :
  fsb (classify config char1 char2 pos1 pos2 freq c)
  + fsb2 (classify config char1 char2 pos1 pos2 freq c)
  == fsb c + fsb2 c
     + (if (getHalf pos1.2 =? getHalf pos2.2)%nat && fsbPattern pos1.1 pos1.2 pos2.1 pos2.2
        then freq else 0).
Proof. destruct pos1, pos2. unfold classify. cbn [fsb fsb2]. apply strictSplit_sum. Qed.

Lemma classify_lsb_mass config char1 char2 pos1 pos2 freq c :
  lsb (classify config char1 char2 pos1 pos2 freq c)
  + lsb2 (classify config char1 char2 pos1 pos2 freq c)
  == lsb c + lsb2 c
     + (if (getHalf pos1.2 =? getHalf pos2.2)%nat && isLSBPattern pos1.2 pos2.2
        then freq else 0).
Proof. destruct pos1, pos2. unfold classify. cbn [lsb lsb2]. apply strictSplit_sum. Qed.

(** The joint mass of a primary bucket and its secondary bucket is the same
    under any two cost models. *)
Lemma analyze_bucket_mass layout config1 config2 langData :
  let b1 := Bigram (AnalyzeLayout layout config1 langData) in
  let b2 := Bigram (AnalyzeLayout layout config2 langData) in
  HSB b1 + HSB2 b1 == HSB b2 + HSB2 b2
  /\ FSB b1 + FSB2 b1 == FSB b2 + FSB2 b2
  /\ LSB b1 + LSB2 b1 == LSB b2 + LSB2 b2.
Proof.
  intros b1 b2. subst b1 b2. rewrite !AnalyzeLayout_Bigram.
  unfold calculateBigrams. rewrite !calculateEffort_Bigram.
  cbn [newAnalysis Bigram zeroBigramAnalysis TIB].
  generalize (buildKeyPos layout) as keyPos, (map_to_list (Bigrams langData)) as bigrams.
  intros keyPos bigrams.
  destruct (pct_mass_independent hsb hsb2 _ classify_hsb_mass config1 config2
              keyPos bigrams 0 0 ltac:(reflexivity)) as [Hb Hh].
  destruct (pct_mass_independent fsb fsb2 _ classify_fsb_mass config1 config2
              keyPos bigrams 0 0 ltac:(reflexivity)) as [_ Hf].
  destruct (pct_mass_independent lsb lsb2 _ classify_lsb_mass config1 config2
              keyPos bigrams 0 0 ltac:(reflexivity)) as [_ Hl].
  rewrite Hb.
  destruct (Qltb 0 (totalBigramFreq (bigramLoop config2 keyPos bigrams 0)));
    cbn [set_Bigram set_TIB Bigram HSB HSB2 FSB FSB2 LSB LSB2];
    [auto | repeat split; reflexivity].
Qed.

(** C8, amended.  In exact arithmetic, toggling the strict-mode flag of a
    scissors or lateral-stretch class leaves the sum of its primary and
    secondary bucket unchanged: HSB + HSB2 for the HSB flag, FSB + FSB2 for
    the FSB flag, LSB + LSB2 for the LSB flag.  The sums that [float64]
    computes with the flag set and cleared agree up to rounding only
    (within 1e-6). *)
Theorem strict_flag_redistributes layout config langData :
  let on f := Bigram (AnalyzeLayout layout (f 1%Z config) langData) in
  let off f := Bigram (AnalyzeLayout layout (f 0%Z config) langData) in
  HSB (on set_HSBStrictMode) + HSB2 (on set_HSBStrictMode)
  == HSB (off set_HSBStrictMode) + HSB2 (off set_HSBStrictMode)
  /\ FSB (on set_FSBStrictMode) + FSB2 (on set_FSBStrictMode)
     == FSB (off set_FSBStrictMode) + FSB2 (off set_FSBStrictMode)
  /\ LSB (on set_LSBStrictMode) + LSB2 (on set_LSBStrictMode)
     == LSB (off set_LSBStrictMode) + LSB2 (off set_LSBStrictMode).
Proof.
  intros on off. subst on off. cbv beta.
  pose proof (analyze_bucket_mass layout (set_HSBStrictMode 1 config)
                (set_HSBStrictMode 0 config) langData) as (Hh & _ & _).
  pose proof (analyze_bucket_mass layout (set_FSBStrictMode 1 config)
                (set_FSBStrictMode 0 config) langData) as (_ & Hf & _).
  pose proof (analyze_bucket_mass layout (set_LSBStrictMode 1 config)
                (set_LSBStrictMode 0 config) langData) as (_ & _ & Hl).
  split; [exact Hh | split; [exact Hf | exact Hl]].
Qed.

(** C8 as stated fails in [float64]: the two buckets are normalised one by
    one, so that with the flag set HSB + HSB2 is 10 + 20 = 30, and with the
    flag cleared HSB alone is (0.1 + 0.2) / 1 * 100 = 30.000000000000004.
    The two sums differ in whatever order the three bigrams are visited. *)
Lemma strict_flag_rounding_counterexample :
  scissorsSum 1 scissorsBigrams = 30%float
  /\ scissorsSum 0 scissorsBigrams = 30.000000000000004%float
  /\ scissorsSum 1 scissorsBigrams <> scissorsSum 0 scissorsBigrams
  /\ Forall (fun bigrams => (scissorsSum 1 bigrams <? scissorsSum 0 bigrams)%float = true)
            (permutations scissorsBigrams).
Proof.
  split_and!.
  - vm_compute. reflexivity.
  - vm_compute. reflexivity.
  - intros Heq.
    assert (Hlt : (scissorsSum 1 scissorsBigrams <? scissorsSum 0 scissorsBigrams)%float
                  = true) by (vm_compute; reflexivity).
    rewrite Heq in Hlt. vm_compute in Hlt. discriminate Hlt.
  - apply Forall_forall. intros bigrams Hin%list_elem_of_In. revert bigrams Hin.
    apply forallb_forall. vm_compute. reflexivity.
Qed.

(** ** Load percentages *)

Lemma positions_range row col :
  (row, col) ∈ positions -> (row < 3)%nat /\ (col < 10)%nat.
Proof.
  assert (Hall : Forall (fun p => (p.1 < 3)%nat /\ (p.2 < 10)%nat) positions)
    by (vm_compute; repeat constructor).
  intros Hin. exact (proj1 (Forall_forall _ _) Hall _ Hin).
Qed.

Lemma buildKeyPos_range layout k row col :
  buildKeyPos layout !! k = Some (row, col) -> (row < 3)%nat /\ (col < 10)%nat.
Proof.
  intros Hk. apply positions_range. revert Hk. unfold buildKeyPos.
  assert (Hgen : forall (l : list (nat * nat)) (m : gmap gostring (nat * nat)),
             (forall p, p ∈ l -> p ∈ positions) ->
             (forall k' p, m !! k' = Some p -> p ∈ positions) ->
             forall k' p,
               foldl (fun m '(row, col) =>
                        let k := key layout row col in
                        if decide (k = []) then m else <[k := (row, col)]> m) m l
               !! k' = Some p -> p ∈ positions).
  { induction l as [|[r c] l IH]; intros m Hl Hm k' p; simpl; [apply Hm|].
    apply IH.
    - intros q Hq. apply Hl. by right.
    - intros k'' q. destruct (decide (key layout r c = [])); [apply Hm|].
      rewrite lookup_insert. case_decide.
      + intros [= <-]. apply Hl. by left.
      + apply Hm. }
  apply Hgen; [auto | intros k' p; by rewrite lookup_empty].
Qed.

Lemma Qsum_bump a i x : (i < length a)%nat -> Qsum (bump a i x) == Qsum a + x.
Proof.
  unfold bump, at_. revert i. induction a as [|y a IH]; intros i Hi; simpl in *; [lia|].
  destruct i as [|i]; simpl.
  - ring.
  - rewrite IH by lia. ring.
Qed.

Lemma length_bump a i x : length (bump a i x) = length a.
Proof. unfold bump. apply length_insert. Qed.

Lemma matchedCharFreq_cons keyPos char freq l :
  matchedCharFreq keyPos ((char, freq) :: l) =
    match keyPos !! char with
    | Some _ => freq + matchedCharFreq keyPos l
    | None => matchedCharFreq keyPos l
    end.
Proof. unfold matchedCharFreq. simpl. destruct (keyPos !! char); reflexivity. Qed.

(** A loop that adds the frequency of each placed character to one cell
    of an array of [n] cells keeps the length and grows the sum by the
    matched frequency. *)
Lemma foldl_buckets keyPos n (step : list Q -> gostring * Q -> list Q) :
  (forall acc char freq, length acc = n ->
     length (step acc (char, freq)) = n
     /\ Qsum (step acc (char, freq))
        == match keyPos !! char with Some _ => Qsum acc + freq | None => Qsum acc end) ->
  forall chars acc, length acc = n ->
    length (foldl step acc chars) = n
    /\ Qsum (foldl step acc chars) == Qsum acc + matchedCharFreq keyPos chars.
Proof.
  intros Hstep chars. induction chars as [|[char freq] l IH]; intros acc Hn.
  - split; [exact Hn|]. unfold matchedCharFreq; simpl. ring.
  - cbn [foldl]. destruct (Hstep acc char freq Hn) as [Hlen Hsum].
    destruct (IH _ Hlen) as [Hlen' Hsum']. split; [exact Hlen'|].
    rewrite Hsum', Hsum, matchedCharFreq_cons.
    destruct (keyPos !! char); ring.
Qed.

Lemma getFingerForKey_range row col : (col < 10)%nat -> (getFingerForKey row col < 8)%nat.
Proof.
  intros Hc. do 10 (destruct col as [|col]; [vm_compute; lia|]). lia.
Qed.

Lemma getHalf_range col : (getHalf col < 2)%nat.
Proof. unfold getHalf. destruct (col <? 5)%nat; lia. Qed.

Section Buckets_of_a_key_index.
Variable keyPos : gmap gostring (nat * nat).
Hypothesis keyPos_range : forall k row col,
  keyPos !! k = Some (row, col) -> (row < 3)%nat /\ (col < 10)%nat.

Ltac by_buckets n :=
  match goal with
  | |- context [foldl ?f ?a ?l] =>
      let Hfold := fresh "Hfold" in
      pose proof (fun Hstep => foldl_buckets keyPos n f Hstep l a eq_refl) as Hfold;
      destruct Hfold as [Hl Hs];
      [| split; [exact Hl | rewrite Hs; change (Qsum (replicate n 0)) with 0; ring]]
  end.

Lemma rowTotalFreqs_sum chars :
  length (rowTotalFreqs keyPos chars) = 3%nat
  /\ Qsum (rowTotalFreqs keyPos chars) == matchedCharFreq keyPos chars.
Proof.
  unfold rowTotalFreqs. by_buckets 3%nat.
  intros acc char freq Hn.
  destruct (keyPos !! char) as [[row col]|] eqn:Hk; [|split; [done|reflexivity]].
  apply keyPos_range in Hk as [Hr _].
  split; [by rewrite length_bump | apply Qsum_bump; lia].
Qed.

Lemma fingerFreqs_sum chars :
  length (fingerFreqs keyPos chars) = 8%nat
  /\ Qsum (fingerFreqs keyPos chars) == matchedCharFreq keyPos chars.
Proof.
  unfold fingerFreqs. by_buckets 8%nat.
  intros acc char freq Hn.
  destruct (keyPos !! char) as [[row col]|] eqn:Hk; [|split; [done|reflexivity]].
  apply keyPos_range in Hk as [_ Hc].
  pose proof (getFingerForKey_range row col Hc) as Hf.
  cbv zeta. destruct (Nat.ltb_spec (getFingerForKey row col) 8); [|lia].
  split; [by rewrite length_bump | apply Qsum_bump; lia].
Qed.

Lemma halfFreqs_sum chars :
  length (halfFreqs keyPos chars) = 2%nat
  /\ Qsum (halfFreqs keyPos chars) == matchedCharFreq keyPos chars.
Proof.
  unfold halfFreqs. by_buckets 2%nat.
  intros acc char freq Hn.
  destruct (keyPos !! char) as [[row col]|] eqn:Hk; [|split; [done|reflexivity]].
  pose proof (getHalf_range col).
  split; [by rewrite length_bump | apply Qsum_bump; lia].
Qed.
End Buckets_of_a_key_index.

Lemma effortTotals_freq config keyPos chars :
  (effortTotals config keyPos chars).2 == matchedCharFreq keyPos chars.
Proof.
  unfold effortTotals.
  assert (Hgen : forall te tf,
            (foldl (fun '(totalEffort, totalFreq) '(char, freq) =>
                      match keyPos !! char with
                      | None => (totalEffort, totalFreq)
                      | Some (row, col) =>
                          (totalEffort + grid 0 (EffortMatrix config) row col * freq,
                           totalFreq + freq)
                      end) (te, tf) chars).2 == tf + matchedCharFreq keyPos chars).
  { induction chars as [|[char freq] l IH]; intros te tf.
    - unfold matchedCharFreq; simpl. ring.
    - cbn [foldl]. rewrite matchedCharFreq_cons.
      destruct (keyPos !! char) as [[row col]|]; rewrite IH; ring. }
  rewrite Hgen. ring.
Qed.

Lemma calculateBigrams_loads layout config langData keyPos analysis :
  let r := calculateBigrams layout config langData keyPos analysis in
  EffortByRow r = EffortByRow analysis
  /\ EffortByFinger r = EffortByFinger analysis
  /\ EffortByHalf r = EffortByHalf analysis.
Proof.
  unfold calculateBigrams. destruct (Qltb 0 _); repeat split; reflexivity.
Qed.

(** The load arrays of the result are those that [calculateEffort] leaves. *)
Lemma AnalyzeLayout_loads layout config langData :
  let a := AnalyzeLayout layout config langData in
  let e := calculateEffort layout config langData (buildKeyPos layout)
             (newAnalysis (Name layout)) in
  EffortByRow a = EffortByRow e
  /\ EffortByFinger a = EffortByFinger e
  /\ EffortByHalf a = EffortByHalf e.
Proof.
  intros a e. subst a. unfold AnalyzeLayout. fold e.
  exact (calculateBigrams_loads layout config langData (buildKeyPos layout) e).
Qed.

Tactic Notation "exactly" integer(n) ident(src) ident(H) :=
  do n (destruct src as [|? src]; [discriminate H|]);
  destruct src; [|discriminate H].

Lemma percentages_sum n src total :
  (n = 2 \/ n = 3 \/ n = 8)%nat -> length src = n ->
  length (percentages n src total (replicate n 0)) = n
  /\ Qsum (percentages n src total (replicate n 0)) == Qsum src / total * 100.
Proof.
  intros [-> | [-> | ->]] Hlen.
  - exactly 2 src Hlen. split; [reflexivity|].
    unfold percentages, at_; simpl. unfold Qdiv. ring.
  - exactly 3 src Hlen. split; [reflexivity|].
    unfold percentages, at_; simpl. unfold Qdiv. ring.
  - exactly 8 src Hlen. split; [reflexivity|].
    unfold percentages, at_; simpl. unfold Qdiv. ring.
Qed.

(** C7. When the total matched character frequency is positive, the three row
    percentages of the analysis sum to 100, and so do the eight finger
    percentages and the two half percentages (exactly, in the rational model
    of the arithmetic, hence within any tolerance). *)
Theorem load_percentages_sum_to_100 layout config langData :
  let a := AnalyzeLayout layout config langData in
  0 < matchedCharFreq (buildKeyPos layout) (map_to_list (Characters langData)) ->
  (length (EffortByRow a) = 3%nat /\ Qsum (EffortByRow a) == 100)
  /\ (length (EffortByFinger a) = 8%nat /\ Qsum (EffortByFinger a) == 100)
  /\ (length (EffortByHalf a) = 2%nat /\ Qsum (EffortByHalf a) == 100).
Proof.
  intros a Hpos. subst a.
  destruct (AnalyzeLayout_loads layout config langData) as (-> & -> & ->).
  unfold calculateEffort.
  pose proof (buildKeyPos_range layout) as Hrange.
  revert Hpos Hrange.
  generalize (buildKeyPos layout) as keyPos,
             (map_to_list (Characters langData)) as chars.
  intros keyPos chars Hpos Hrange.
  pose proof (effortTotals_freq config keyPos chars) as Htf.
  destruct (effortTotals config keyPos chars) as [te tf]. cbn [snd] in Htf.
  assert (Qltb 0 tf = true) as -> by (apply Qltb_lt; lra).
  cbn [set_TotalEffort set_EffortByRow set_EffortByFinger set_EffortByHalf newAnalysis
       EffortByRow EffortByFinger EffortByHalf].
  destruct (rowTotalFreqs_sum keyPos Hrange chars) as [Hrl Hrs].
  destruct (fingerFreqs_sum keyPos Hrange chars) as [Hfl Hfs].
  destruct (halfFreqs_sum keyPos chars) as [Hhl Hhs].
  destruct (percentages_sum 3 _ tf ltac:(auto) Hrl) as [Hl3 Hs3].
  destruct (percentages_sum 8 _ tf ltac:(auto) Hfl) as [Hl8 Hs8].
  destruct (percentages_sum 2 _ tf ltac:(auto) Hhl) as [Hl2 Hs2].
  assert (Hone : forall s, s == matchedCharFreq keyPos chars -> s / tf * 100 == 100).
  { intros s ->. rewrite <- Htf. field. lra. }
  repeat split; try assumption.
  - rewrite Hs3. by apply Hone.
  - rewrite Hs8. by apply Hone.
  - rewrite Hs2. by apply Hone.
Qed.

Lemma load_percentages_sum_to_100_witness :
  let a := AnalyzeLayout (mkLayout ["q"; "w"] ["a"] ["z"; ""; ""; ""; ""; ""; "m"])
             (plainConfig []) (corpus [("q", 1 # 4); ("a", 1 # 2); ("m", 1 # 8); ("x", 1)] []) in
  (length (EffortByRow a) = 3%nat /\ Qsum (EffortByRow a) == 100)
  /\ (length (EffortByFinger a) = 8%nat /\ Qsum (EffortByFinger a) == 100)
  /\ (length (EffortByHalf a) = 2%nat /\ Qsum (EffortByHalf a) == 100).
Proof.
  apply (load_percentages_sum_to_100
           (mkLayout ["q"; "w"] ["a"] ["z"; ""; ""; ""; ""; ""; "m"])
           (plainConfig []) (corpus [("q", 1 # 4); ("a", 1 # 2); ("m", 1 # 8); ("x", 1)] [])).
  vm_compute. reflexivity.
Defined.

(** ** Ranking: the exchange sort *)

Lemma selectMin_length x rest : length (selectMin x rest).2 = length rest.
Proof.
  revert x. induction rest as [|y rest IH]; intros x; simpl; [reflexivity|].
  destruct (Qltb (Score y) (Score x)).
  - specialize (IH y). destruct (selectMin y rest). simpl in *. by rewrite IH.
  - specialize (IH x). destruct (selectMin x rest). simpl in *. by rewrite IH.
Qed.

Lemma selectMin_perm x rest :
  (selectMin x rest).1 :: (selectMin x rest).2 ≡ₚ x :: rest.
Proof.
  revert x. induction rest as [|y rest IH]; intros x; simpl; [reflexivity|].
  destruct (Qltb (Score y) (Score x)).
  - specialize (IH y). destruct (selectMin y rest) as [m tl]. simpl in *.
    rewrite Permutation_swap, IH. reflexivity.
  - specialize (IH x). destruct (selectMin x rest) as [m tl]. simpl in *.
    rewrite Permutation_swap, IH. apply Permutation_swap.
Qed.

Lemma selectMin_least x rest :
  scoreLe (selectMin x rest).1 x /\ Forall (scoreLe (selectMin x rest).1) (selectMin x rest).2.
Proof.
  unfold scoreLe. revert x. induction rest as [|y rest IH]; intros x; simpl.
  - split; [lra | constructor].
  - destruct (Qltb (Score y) (Score x)) eqn:Hc.
    + apply Qltb_lt in Hc. specialize (IH y).
      destruct (selectMin y rest) as [m tl]. simpl in *. destruct IH as [Hm Htl].
      split; [lra|]. constructor; [lra | exact Htl].
    + apply Qltb_ge in Hc. specialize (IH x).
      destruct (selectMin x rest) as [m tl]. simpl in *. destruct IH as [Hm Htl].
      split; [lra|]. constructor; [lra | exact Htl].
Qed.

Lemma lookup_second {A} (pre done : list A) x y tl :
  (pre ++ x :: done ++ y :: tl) !! (S (length pre) + length done)%nat = Some y.
Proof.
  replace (pre ++ x :: done ++ y :: tl) with ((pre ++ x :: done) ++ y :: tl)
    by (by rewrite <- app_assoc).
  apply list_lookup_middle. rewrite length_app. simpl. lia.
Qed.

Lemma insert_at_middle {A} (pre tl : list A) x v n :
  n = length pre -> <[n := v]> (pre ++ x :: tl) = pre ++ v :: tl.
Proof. intros ->. rewrite insert_app_r_alt by lia. by rewrite Nat.sub_diag. Qed.

Lemma swapAt_middle {A} (pre done : list A) x y tl :
  swapAt (length pre) (S (length pre) + length done) (pre ++ x :: done ++ y :: tl)
  = pre ++ y :: done ++ x :: tl.
Proof.
  unfold swapAt. rewrite list_lookup_middle by reflexivity. rewrite lookup_second.
  rewrite (insert_at_middle pre) by reflexivity.
  replace (pre ++ y :: done ++ y :: tl) with ((pre ++ y :: done) ++ y :: tl)
    by (by rewrite <- app_assoc).
  rewrite insert_at_middle by (rewrite length_app; simpl; lia).
  by rewrite <- app_assoc.
Qed.

(** The inner loop from index [j = i + 1 + length done] on, with [pre] the
    cells before [i], [x] the cell [i], [done] the cells already compared
    and [todo] the cells still to compare. *)
Lemma sortInner_from todo pre x done :
  foldl (fun rs j =>
           match rs !! j, rs !! length pre with
           | Some rj, Some ri =>
               if Qltb (Score rj) (Score ri) then swapAt (length pre) j rs else rs
           | _, _ => rs
           end)
        (pre ++ x :: done ++ todo)
        (seq (S (length pre) + length done) (length todo))
  = pre ++ (selectMin x todo).1 :: done ++ (selectMin x todo).2.
Proof.
  revert x done. induction todo as [|y tl IH]; intros x done; [reflexivity|].
  cbn [length seq foldl selectMin].
  rewrite lookup_second, list_lookup_middle by reflexivity.
  destruct (Qltb (Score y) (Score x)).
  - rewrite swapAt_middle.
    specialize (IH y (done ++ [x])).
    rewrite length_app, <- !app_assoc in IH. simpl in IH.
    replace (S (length pre + (length done + 1))) with (S (S (length pre) + length done)) in IH
      by lia.
    rewrite IH. destruct (selectMin y tl); reflexivity.
  - specialize (IH x (done ++ [y])).
    rewrite length_app, <- !app_assoc in IH. simpl in IH.
    replace (S (length pre + (length done + 1))) with (S (S (length pre) + length done)) in IH
      by lia.
    rewrite IH. destruct (selectMin x tl); reflexivity.
Qed.

Lemma sortInner_selectMin pre x rest :
  sortInner (length pre) (pre ++ x :: rest)
  = pre ++ (selectMin x rest).1 :: (selectMin x rest).2.
Proof.
  unfold sortInner.
  replace (length (pre ++ x :: rest) - S (length pre))%nat with (length rest)
    by (rewrite length_app; simpl; lia).
  pose proof (sortInner_from rest pre x []) as Hf. simpl in Hf.
  replace (S (length pre + 0)) with (S (length pre)) in Hf by lia.
  exact Hf.
Qed.

(** The outer loop from index [length pre] on. *)
Lemma sortOuter_from n pre rest :
  length rest = n ->
  StronglySorted scoreLe pre ->
  (forall a b, a ∈ pre -> b ∈ rest -> scoreLe a b) ->
  let out := foldl (fun rs i => sortInner i rs) (pre ++ rest) (seq (length pre) n) in
  out ≡ₚ pre ++ rest /\ StronglySorted scoreLe out.
Proof.
  revert pre rest. induction n as [|n IH]; intros pre rest Hn Hpre Hle.
  - destruct rest; [|discriminate]. simpl. rewrite app_nil_r. auto.
  - destruct rest as [|x rest]; [discriminate|]. injection Hn as Hn.
    cbn [seq foldl]. rewrite sortInner_selectMin.
    pose proof (selectMin_perm x rest) as Hp.
    pose proof (selectMin_least x rest) as [Hmx Hm].
    pose proof (selectMin_length x rest) as Hl.
    destruct (selectMin x rest) as [m tl]. simpl in *.
    specialize (IH (pre ++ [m]) tl).
    rewrite length_app, <- app_assoc in IH. simpl in IH.
    replace (length pre + 1)%nat with (S (length pre)) in IH by lia.
    destruct IH as [IHp IHs].
    + lia.
    + apply StronglySorted_app. split_and!; [|done|repeat constructor].
      intros a b Ha Hb. apply list_elem_of_singleton in Hb as ->.
      apply Hle; [done|]. rewrite <- Hp. by left.
    + intros a b Ha Hb. apply elem_of_app in Ha as [Ha|Ha].
      * apply Hle; [done|]. rewrite <- Hp. by right.
      * apply list_elem_of_singleton in Ha as ->.
        exact (proj1 (Forall_forall _ _) Hm _ Hb).
    + split; [|exact IHs]. rewrite IHp. by rewrite Hp.
Qed.

Lemma sortResultsByScore_sorts rs :
  sortResultsByScore rs ≡ₚ rs /\ StronglySorted scoreLe (sortResultsByScore rs).
Proof.
  apply (sortOuter_from (length rs) [] rs eq_refl); [constructor|].
  intros a b Ha. by apply elem_of_nil in Ha.
Qed.

(** ** Neighbor generation *)

Lemma filter_length_mono {A} (f g : A -> bool) (l : list A) :
  (forall x, f x = true -> g x = true) ->
  (length (List.filter f l) <= length (List.filter g l))%nat.
Proof.
  intros Hfg. induction l as [|x l IH]; simpl; [lia|].
  destruct (f x) eqn:Hf.
  - rewrite (Hfg _ Hf). simpl. lia.
  - destruct (g x); simpl; lia.
Qed.

Lemma swapRandomPair_few guarded layout candidates tape :
  (length candidates < 2)%nat ->
  swapRandomPair guarded layout candidates tape = Some (layout, tape).
Proof.
  intros Hlen. unfold swapRandomPair.
  destruct (Nat.ltb_spec (length candidates) 2); [reflexivity | lia].
Qed.

Section Neighbors.
Context `{GoLib}.

Lemma swapPositions_eligible layout config baseLayout uppercasePositions row col :
  (row, col) ∈ swapPositions layout config baseLayout uppercasePositions ->
  lockedBySeed config uppercasePositions row col = false
  /\ nonEmpty (key layout row col) = true.
Proof.
  unfold swapPositions, lockedBySeed. fold (anyUppercase uppercasePositions).
  rewrite list_elem_of_In, filter_In. intros [_ Hp].
  destruct (anyUppercase uppercasePositions).
  - apply andb_prop in Hp as [Hn Hu]. split; [|exact Hn].
    by apply negb_true_iff in Hu.
  - apply andb_prop in Hp as [Hp _]. apply andb_prop in Hp as [Hd Hn].
    split; [|exact Hn]. by rewrite Hd.
Qed.

Lemma swappablePositions_unlocked layout config row col :
  (row, col) ∈ swappablePositions layout config
  <-> (row, col) ∈ positions /\ lockedInPlace layout config row col = false.
Proof.
  unfold swappablePositions, lockedInPlace.
  rewrite !list_elem_of_In, filter_In.
  destruct (hasUppercaseLetters layout).
  - by rewrite negb_true_iff.
  - rewrite andb_true_iff, orb_false_iff, !negb_true_iff, negb_false_iff. tauto.
Qed.

(** C6, amended.  In the seeded search
    ([generateNeighborFromBaseLayoutWithUppercaseInfo]) only eligible
    positions (unlocked and holding a character other than the empty string
    and the single space) are candidates for a swap, and with fewer than two
    eligible positions the generator returns its input layout, drawing no
    random number.  In [generateNeighbor] the candidates are the unlocked
    positions, empty or not, and it returns its input layout when fewer than
    two positions are unlocked. *)
Theorem neighbor_candidates layout config baseLayout uppercasePositions tape :
  let locked := lockedBySeed config uppercasePositions in
  (forall row col,
     (row, col) ∈ swapPositions layout config baseLayout uppercasePositions ->
     swapEligible locked layout row col = true)
  /\ ((length (swapEligiblePositions locked layout) < 2)%nat ->
      generateNeighborFromBaseLayoutWithUppercaseInfo layout config baseLayout
        uppercasePositions tape = Some (layout, tape))
  /\ (forall row col,
        (row, col) ∈ swappablePositions layout config
        <-> (row, col) ∈ positions /\ lockedInPlace layout config row col = false)
  /\ ((length (List.filter (fun '(row, col) => negb (lockedInPlace layout config row col))
                 positions) < 2)%nat ->
      generateNeighbor layout config tape = Some (layout, tape)).
Proof.
  intros locked.
  assert (Hel : forall row col,
             (row, col) ∈ swapPositions layout config baseLayout uppercasePositions ->
             swapEligible locked layout row col = true).
  { intros row col Hin. apply swapPositions_eligible in Hin as [Hl Hn].
    unfold swapEligible. subst locked. by rewrite Hl, Hn. }
  split_and!.
  - exact Hel.
  - intros Hlen. apply swapRandomPair_few.
    eapply Nat.le_lt_trans; [|exact Hlen].
    unfold swapEligiblePositions.
    assert (Hsub : forall pos, pos ∈ swapPositions layout config baseLayout uppercasePositions ->
              pos ∈ List.filter (fun '(row, col) => swapEligible locked layout row col)
                      positions).
    { intros [row col] Hin. rewrite list_elem_of_In, filter_In, <- list_elem_of_In.
      split; [|by apply Hel].
      unfold swapPositions in Hin. rewrite list_elem_of_In, filter_In in Hin.
      apply list_elem_of_In. tauto. }
    apply submseteq_length, NoDup_submseteq; [|exact Hsub].
    apply NoDup_ListNoDup, List.NoDup_filter, NoDup_ListNoDup.
    apply (bool_decide_unpack _). by vm_compute.
  - apply swappablePositions_unlocked.
  - intros Hlen. apply swapRandomPair_few.
    eapply Nat.le_lt_trans; [|exact Hlen].
    unfold swappablePositions. apply filter_length_mono.
    intros [row col]. unfold lockedInPlace.
    destruct (hasUppercaseLetters layout); [done|].
    rewrite negb_orb, negb_involutive. done.
Qed.

End Neighbors.

Lemma neighbor_candidates_witness :
  let layout := mkLayout ["a"; " "; " "] [] [] in
  let noUppercase := replicate 3 (replicate 10 false) in
  generateNeighborFromBaseLayoutWithUppercaseInfo layout (plainConfig []) layout
    noUppercase [0; 1]%nat = Some (layout, [0; 1]%nat)
  /\ generateNeighbor (mkLayout ["a"] [] []) lockedConfig [0; 1]%nat
     = Some (mkLayout ["a"] [] [], [0; 1]%nat).
Proof.
  intros layout noUppercase.
  destruct (neighbor_candidates layout (plainConfig []) layout noUppercase [0; 1]%nat)
    as (_ & Hseeded & _ & _).
  destruct (neighbor_candidates (mkLayout ["a"] [] []) lockedConfig layout noUppercase
              [0; 1]%nat) as (_ & _ & _ & Hplain).
  split.
  - apply Hseeded. vm_compute. lia.
  - apply Hplain. vm_compute. lia.
Defined.

(** C6 as stated fails for [generateNeighbor]: on a layout whose only
    character is [a], with no locked position, a single position is eligible
    (unlocked and non-empty), yet the empty cell next to it is a candidate
    and the generator returns a different layout. *)
Lemma neighbor_swaps_empty_cell_counterexample :
  let layout := mkLayout ["a"] [] [] in
  let config := plainConfig [] in
  length (eligiblePositions (lockedInPlace layout config) layout) = 1%nat
  /\ In (0, 1)%nat (swappablePositions layout config)
  /\ key layout 0 1 = []
  /\ generateNeighbor layout config [0; 1]%nat = Some (mkLayout [""; "a"] [] [], [])
  /\ key (mkLayout [""; "a"] [] []) 0 1 <> key layout 0 1.
Proof. vm_compute. repeat split; try tauto. discriminate. Qed.

(** ** Running the search *)

Lemma bind_Some {A B} (m : M A) (f : A -> M B) tape b tape' :
  bind m f tape = Some (b, tape')
  <-> exists a t, m tape = Some (a, t) /\ f a t = Some (b, tape').
Proof.
  unfold bind. destruct (m tape) as [[a t]|]; split.
  - intros Hf. by exists a, t.
  - by intros (a' & t' & [= <- <-] & Hf).
  - discriminate.
  - by intros (? & ? & ? & _).
Qed.

Lemma ret_Some {A} (a b : A) tape tape' :
  ret a tape = Some (b, tape') <-> a = b /\ tape = tape'.
Proof. unfold ret. split; [by intros [= -> ->] | by intros [-> ->]]. Qed.

Lemma Intn_lt n tape i tape' : (0 < n)%nat -> Intn n tape = Some (i, tape') -> (i < n)%nat.
Proof.
  intros Hn. destruct tape as [|r tape]; simpl; [discriminate|].
  intros [= <- _]. by apply Nat.mod_upper_bound, Nat.neq_0_lt_0.
Qed.

Lemma redraw_lt guarded n idx1 idx2 tape i tape' :
  (0 < n)%nat -> (idx2 < n)%nat ->
  redraw guarded n idx1 idx2 tape = Some (i, tape') -> (i < n)%nat.
Proof.
  intros Hn. revert idx2. induction tape as [|r tape IH]; intros idx2 Hi; simpl.
  - destruct (_ && _); [discriminate | by intros [= <- _]].
  - destruct (_ && _); [|by intros [= <- _]].
    apply IH. by apply Nat.mod_upper_bound, Nat.neq_0_lt_0.
Qed.

(** Writing a key leaves the other cells alone. *)
Lemma grid_setGrid_ne {A} (d : A) m r c v row col :
  (row, col) <> (r, c) -> grid d (setGrid m r c v) row col = grid d m row col.
Proof.
  intros Hne. unfold grid, setGrid. rewrite list_lookup_alter.
  case_decide as Hr; [|reflexivity]. subst row.
  destruct (m !! r) as [cells|]; simpl; [|reflexivity].
  rewrite list_lookup_insert_ne; [reflexivity | congruence].
Qed.

Lemma key_setKey_ne l r c v row col :
  (row, col) <> (r, c) -> key (setKey l r c v) row col = key l row col.
Proof. intros Hne. unfold key, setKey. simpl. by apply grid_setGrid_ne. Qed.

Lemma key_swapKeys_ne l pos1 pos2 row col :
  (row, col) <> pos1 -> (row, col) <> pos2 ->
  key (swapKeys l pos1 pos2) row col = key l row col.
Proof.
  intros H1 H2. unfold swapKeys. destruct pos1, pos2.
  by rewrite !key_setKey_ne.
Qed.

(** The shared tail of the neighbor generators only writes to candidates. *)
Lemma swapRandomPair_outside guarded layout candidates tape layout' tape' row col :
  swapRandomPair guarded layout candidates tape = Some (layout', tape') ->
  (row, col) ∉ candidates ->
  key layout' row col = key layout row col.
Proof.
  unfold swapRandomPair. intros Hrun Hout.
  destruct (Nat.ltb_spec (length candidates) 2) as [Hlen|Hlen].
  { apply ret_Some in Hrun as [<- _]. reflexivity. }
  apply bind_Some in Hrun as (idx1 & t1 & Hi1 & Hrun).
  apply bind_Some in Hrun as (idx2 & t2 & Hi2 & Hrun).
  apply bind_Some in Hrun as (idx2' & t3 & Hi3 & Hrun).
  apply ret_Some in Hrun as [<- _].
  apply Intn_lt in Hi1; [|lia]. apply Intn_lt in Hi2; [|lia].
  apply redraw_lt in Hi3; [|lia|lia].
  destruct (lookup_lt_is_Some_2 candidates idx1 Hi1) as [pos1 Hp1].
  destruct (lookup_lt_is_Some_2 candidates idx2' Hi3) as [pos2 Hp2].
  rewrite Hp1, Hp2. simpl.
  apply key_swapKeys_ne; intros <-; apply Hout; eapply list_elem_of_lookup_2; eauto.
Qed.

(** ** Ranking: the restart loop *)

#[local] Instance scoreLe_trans : Transitive scoreLe.
Proof. intros a b c. unfold scoreLe. lra. Qed.

Lemma truncateBest_fires numBest rs :
  (0 <? numBest)%Z && (numBest <? Z.of_nat (length rs))%Z = true ->
  (0 < numBest)%Z /\ (Z.to_nat numBest < length rs)%nat
  /\ truncateBest numBest rs = take (Z.to_nat numBest) rs.
Proof.
  intros Hc. unfold truncateBest. rewrite Hc.
  apply andb_prop in Hc as [H0 H1]. apply Z.ltb_lt in H0, H1. split_and!; [lia|lia|done].
Qed.

Lemma truncateBest_idle numBest rs :
  (0 <? numBest)%Z && (numBest <? Z.of_nat (length rs))%Z = false ->
  ((0 < numBest)%Z -> (length rs <= Z.to_nat numBest)%nat)
  /\ truncateBest numBest rs = rs.
Proof.
  intros Hc. unfold truncateBest. rewrite Hc. split; [|done].
  intros H0. apply andb_false_iff in Hc as [Hc|Hc].
  - apply Z.ltb_ge in Hc. lia.
  - apply Z.ltb_ge in Hc. lia.
Qed.

Lemma ranked_nil numBest : ranked numBest [] [].
Proof.
  split_and!; [constructor | simpl; lia |].
  exists []. split_and!; [done | by intros ?? ?%elem_of_nil | done].
Qed.

Lemma ranked_step numBest best produced r :
  ranked numBest best produced ->
  ranked numBest (truncateBest numBest (sortResultsByScore (best ++ [r])))
    (produced ++ [r]).
Proof.
  intros (Hs & Hb & rest & Hp & Hle & Hfull).
  destruct (sortResultsByScore_sorts (best ++ [r])) as [HTp HTs].
  set (T := sortResultsByScore (best ++ [r])) in *.
  assert (HTl : length T = S (length best)).
  { rewrite HTp, length_app. simpl. lia. }
  destruct ((0 <? numBest)%Z && (numBest <? Z.of_nat (length T))%Z) eqn:Hc.
  - apply truncateBest_fires in Hc as (H0 & Hlt & ->).
    specialize (Hb H0).
    assert (Hk : length best = Z.to_nat numBest) by lia.
    set (k := Z.to_nat numBest) in *.
    assert (Hd : exists d, drop k T = [d]).
    { assert (Hdl : length (drop k T) = 1%nat) by (rewrite length_drop; lia).
      destruct (drop k T) as [|d [|]]; try discriminate. by exists d. }
    destruct Hd as [d Hd].
    assert (HT : T = take k T ++ [d]) by (by rewrite <- Hd, take_drop).
    rewrite HT in HTs, HTp.
    split_and!.
    + by apply StronglySorted_app_1_l in HTs.
    + intros _. rewrite length_take. lia.
    + exists (d :: rest). split_and!.
      * rewrite Hp, <- app_assoc, (Permutation_app_comm rest [r]), app_assoc, <- HTp.
        by rewrite <- app_assoc.
      * intros a b Ha Hb'. apply elem_of_cons in Hb' as [->|Hb'].
        { eapply StronglySorted_app_1_elem_of; [exact HTs|done|by left]. }
        assert (Had : scoreLe a d).
        { eapply StronglySorted_app_1_elem_of; [exact HTs|done|by left]. }
        assert (Hdin : d ∈ best ++ [r]) by (rewrite <- HTp; apply elem_of_app; right; by left).
        apply elem_of_app in Hdin as [Hdin|Hdin].
        { etrans; [exact Had|]. by apply Hle. }
        apply list_elem_of_singleton in Hdin as ->.
        apply Permutation_app_inv_r in HTp.
        apply Hle; [|done]. by rewrite <- HTp.
      * intros _. split; [done|]. rewrite length_take. lia.
  - apply truncateBest_idle in Hc as [Hlen ->].
    destruct rest as [|x rest].
    + rewrite app_nil_r in Hp. split_and!; [done|done|].
      exists []. split_and!; [|by intros ??? ?%elem_of_nil|done].
      by rewrite app_nil_r, HTp, Hp.
    + pose proof (Hfull ltac:(done)) as [H0 Hk]. specialize (Hlen H0). lia.
Qed.

Section Restarts.
Context `{GoLib}.
Variables (config : KeyboardConfig) (langData : LanguageData)
          (params : SimulatedAnnealingParams) (numBest : Z)
          (lowercaseStartLayout : Layout) (uppercasePositions : list (list bool)).

(** A property of the pair (kept results, produced results) that every
    restart maintains holds when the restart loop ends. *)
Lemma restartLoop_invariant (Inv : nat -> list SimulatedAnnealingResult ->
                                   list SimulatedAnnealingResult -> Prop) :
  (forall restart best produced r tape tape',
     Inv restart best produced ->
     runRestart config langData params lowercaseStartLayout uppercasePositions
       restart best tape = Some (r, tape') ->
     Inv (S restart) (truncateBest numBest (sortResultsByScore (best ++ [r])))
       (produced ++ [r])) ->
  forall n restart best produced tape best' produced' tape',
    Inv restart best produced ->
    restartLoop config langData params numBest lowercaseStartLayout uppercasePositions
      n restart (best, produced) tape = Some ((best', produced'), tape') ->
    Inv (restart + n)%nat best' produced'.
Proof.
  intros Hstep. induction n as [|n IH]; intros restart best produced tape best' produced' tape' Hinv.
  - simpl. intros [[= <- <-] _]%ret_Some. by rewrite Nat.add_0_r.
  - simpl. intros (r & t & Hr & Hloop)%bind_Some.
    replace (restart + S n)%nat with (S restart + n)%nat by lia.
    eapply IH; [|exact Hloop]. eapply Hstep; eauto.
Qed.

Lemma restartLoop_ranked n best' produced' tape tape' :
  restartLoop config langData params numBest lowercaseStartLayout uppercasePositions
    n 0 ([], []) tape = Some ((best', produced'), tape') ->
  ranked numBest best' produced' /\ length produced' = n.
Proof.
  intros Hrun.
  apply (restartLoop_invariant
           (fun k best produced => ranked numBest best produced /\ length produced = k))
    in Hrun; [exact Hrun| |].
  - intros restart best produced r t t' [Hr Hl] _. split.
    + by apply ranked_step.
    + rewrite length_app. simpl. lia.
  - split; [apply ranked_nil | reflexivity].
Qed.

End Restarts.

Lemma ranked_final numBest best produced :
  ranked numBest best produced ->
  truncateBest numBest best = best
  /\ length best = (if (0 <? numBest)%Z then Nat.min (Z.to_nat numBest) (length produced)
                    else length produced).
Proof.
  intros (Hs & Hb & rest & Hp & Hle & Hfull).
  assert (Hl : length produced = (length best + length rest)%nat)
    by (by rewrite Hp, length_app).
  split.
  - unfold truncateBest.
    destruct ((0 <? numBest)%Z && (numBest <? Z.of_nat (length best))%Z) eqn:Hc; [|done].
    apply andb_prop in Hc as [H0 H1]. apply Z.ltb_lt in H0, H1.
    specialize (Hb H0). lia.
  - destruct rest as [|x rest].
    + simpl in Hl. destruct (Z.ltb_spec 0 numBest) as [H0|H0]; [|lia].
      specialize (Hb H0). lia.
    + pose proof (Hfull ltac:(done)) as [H0 Hk].
      destruct (Z.ltb_spec 0 numBest); [|lia]. simpl in Hl. lia.
Qed.

(** ** Ranking: results of equal score *)

Lemma insertByScore_perm r rs : insertByScore r rs ≡ₚ r :: rs.
Proof.
  induction rs as [|r' rs IH]; simpl; [done|].
  destruct (Qltb _ _); [done|]. rewrite IH. apply perm_swap.
Qed.

Lemma insertByScore_sorted r rs :
  StronglySorted scoreLe rs -> StronglySorted scoreLe (insertByScore r rs).
Proof.
  induction 1 as [|r' rs Hs IH Hall]; simpl.
  - repeat constructor.
  - destruct (Qltb (Score r) (Score r')) eqn:Hlt.
    + apply Qltb_lt in Hlt. constructor; [by constructor|].
      constructor; [unfold scoreLe; lra|].
      eapply Forall_impl; [exact Hall|]. intros x Hx. unfold scoreLe in *. lra.
    + apply Qltb_ge in Hlt. constructor; [exact IH|].
      rewrite insertByScore_perm. constructor; [exact Hlt | exact Hall].
Qed.

Lemma stableSortByScore_sorts rs :
  stableSortByScore rs ≡ₚ rs /\ StronglySorted scoreLe (stableSortByScore rs).
Proof.
  unfold stableSortByScore.
  assert (Hgen : forall acc, StronglySorted scoreLe acc ->
            foldl (fun sorted r => insertByScore r sorted) acc rs ≡ₚ acc ++ rs
            /\ StronglySorted scoreLe
                 (foldl (fun sorted r => insertByScore r sorted) acc rs)).
  { induction rs as [|r rs IH]; intros acc Hacc; simpl.
    - by rewrite app_nil_r.
    - destruct (IH (insertByScore r acc)) as [Hp Hs]; [by apply insertByScore_sorted|].
      split; [|exact Hs]. rewrite Hp, insertByScore_perm. apply Permutation_middle. }
  apply Hgen. constructor.
Qed.

(** Two sorted arrangements of the same results agree when results of equal
    score are identical. *)
Lemma sorted_perm_unique l1 l2 :
  StronglySorted scoreLe l1 -> StronglySorted scoreLe l2 -> l1 ≡ₚ l2 ->
  tiesIdentical l1 -> l1 = l2.
Proof.
  intros H1. revert l2. induction H1 as [|a l1 Hs1 IH Ha]; intros l2 H2 Hp Ht.
  - apply Permutation.Permutation_nil in Hp. by subst.
  - destruct H2 as [|b l2 Hs2 Hb]; [symmetry in Hp; by apply Permutation.Permutation_nil_cons in Hp|].
    assert (Hab : a = b).
    { assert (Hbin : b ∈ a :: l1) by (rewrite Hp; left).
      assert (Hain : a ∈ b :: l2) by (rewrite <- Hp; left).
      apply Ht; [left | exact Hbin |].
      apply Qle_antisym.
      - apply elem_of_cons in Hbin as [->|Hbin]; [apply Qle_refl|].
        rewrite Forall_forall in Ha. by apply Ha.
      - apply elem_of_cons in Hain as [->|Hain]; [apply Qle_refl|].
        rewrite Forall_forall in Hb. by apply Hb. }
    subst b. f_equal. apply IH; [exact Hs2 | by apply Permutation_cons_inv in Hp |].
    intros x y Hx Hy. apply Ht; by right.
Qed.

(** What the loop keeps is the front of the stable sort of what the
    restarts produced. *)
Lemma ranked_stable numBest best produced :
  ranked numBest best produced -> tiesIdentical produced ->
  best = (if (0 <? numBest)%Z then take (Z.to_nat numBest) (stableSortByScore produced)
          else stableSortByScore produced).
Proof.
  intros (Hs & Hb & rest & Hp & Hle & Hfull) Ht.
  destruct (stableSortByScore_sorts produced) as [HSp HSs].
  destruct (stableSortByScore_sorts rest) as [HRp HRs].
  assert (HS : stableSortByScore produced = best ++ stableSortByScore rest).
  { apply sorted_perm_unique; [exact HSs | | by rewrite HSp, Hp, HRp |].
    - apply StronglySorted_app_2; [|exact Hs | exact HRs].
      intros a b Ha Hb'. apply Hle; [exact Ha | by rewrite <- HRp].
    - intros a b Ha Hb'. apply Ht; by rewrite <- HSp. }
  rewrite HS. destruct rest as [|x rest].
  - assert (stableSortByScore [] = []) as -> by reflexivity.
    rewrite app_nil_r. destruct (Z.ltb_spec 0 numBest) as [H0|H0]; [|done].
    rewrite take_ge; [done|]. by apply Hb.
  - destruct (Hfull ltac:(done)) as [H0 Hk].
    destruct (Z.ltb_spec 0 numBest); [|lia].
    by rewrite <- Hk, take_app_length.
Qed.

Section Ties.
Context `{GoLib}.
Variables (config : KeyboardConfig) (langData : LanguageData)
          (params : SimulatedAnnealingParams) (numBest : Z)
          (lower : Layout) (upper : list (list bool)).

(** The best solution of a restart belongs to its layout and is the start
    of the restart or scores strictly better. *)
Let improves (start : Layout) (a : Anneal) : Prop :=
  bestAnalysisRestart a = AnalyzeLayout (bestLayoutRestart a) config langData
  /\ bestScoreRestart a = WeightedScore (bestAnalysisRestart a)
  /\ (bestLayoutRestart a = start
      \/ bestScoreRestart a < WeightedScore (AnalyzeLayout start config langData)).

Lemma annealStep_improves start a tape a' tape' :
  improves start a ->
  annealStep config langData params lower upper a tape = Some (a', tape') ->
  improves start a'.
Proof.
  unfold improves.
  remember (WeightedScore (AnalyzeLayout start config langData)) as startScore eqn:Hss.
  intros (Ha & Hs & Hstart). unfold annealStep.
  intros (neighbor & t1 & _ & Hrun)%bind_Some.
  apply bind_Some in Hrun as (ok & t2 & _ & Hrun).
  assert (Hle : bestScoreRestart a <= startScore).
  { destruct Hstart as [Hst|Hlt]; [|lra]. rewrite Hs, Ha, Hst, Hss. apply Qle_refl. }
  remember (AnalyzeLayout neighbor config langData) as neighborAnalysis eqn:Hn in Hrun.
  remember (WeightedScore neighborAnalysis) as neighborScore eqn:Hw in Hrun.
  destruct ok; [destruct (Qltb neighborScore (bestScoreRestart a)) eqn:Hlt|];
    apply ret_Some in Hrun as [<- _];
    cbn [bestLayoutRestart bestAnalysisRestart bestScoreRestart];
    (split; [|split]); try assumption.
  right. apply Qltb_lt in Hlt. lra.
Qed.

Lemma annealLoop_improves start n a tape a' tape' :
  improves start a ->
  annealLoop config langData params lower upper n a tape = Some (a', tape') ->
  improves start a'.
Proof.
  revert a tape. induction n as [|n IH]; intros a tape Ha; cbn [annealLoop].
  - by intros [<- _]%ret_Some.
  - intros (a1 & t1 & Hstep & Hloop)%bind_Some.
    eapply IH; [|exact Hloop]. by eapply annealStep_improves.
Qed.

(** The result of a restart is the analysis of its own layout; it is the
    result of the layout that the restart started from, or scores strictly
    better than it. *)
Lemma runRestart_improves restart best tape r tape' :
  runRestart config langData params lower upper restart best tape = Some (r, tape') ->
  r = resultOf config langData (rLayout r)
  /\ (r = resultOf config langData
            (if (0 <? restart)%nat
             then match best with r0 :: _ => rLayout r0 | [] => lower end
             else lower)
      \/ Score r < Score (resultOf config langData
                            (if (0 <? restart)%nat
                             then match best with r0 :: _ => rLayout r0 | [] => lower end
                             else lower))).
Proof.
  unfold runRestart.
  intros (a & t & Hloop & [<- _]%ret_Some)%bind_Some.
  set (start := if (0 <? restart)%nat
                then match best with r0 :: _ => rLayout r0 | [] => lower end
                else lower) in *.
  clearbody start.
  apply (annealLoop_improves start) in Hloop as (Ha & Hs & Hstart).
  - cbn [rLayout Score]. unfold resultOf.
    split; [by rewrite <- Ha, <- Hs|].
    destruct Hstart as [Hst|Hlt].
    + left. by rewrite <- Hst, <- Ha, <- Hs.
    + right. cbn [Score]. exact Hlt.
  - unfold improves. cbn [bestLayoutRestart bestAnalysisRestart bestScoreRestart].
    split; [reflexivity | split; [reflexivity | by left]].
Qed.

(** The results of the restarts so far: each is the analysis of its own
    layout, and two of equal score are the same record. *)
Lemma restartLoop_ties n best' produced' tape tape' :
  restartLoop config langData params numBest lower upper n 0 ([], []) tape
    = Some ((best', produced'), tape') ->
  ranked numBest best' produced' /\ length produced' = n /\ tiesIdentical produced'.
Proof.
  intros Hrun.
  apply (restartLoop_invariant config langData params numBest lower upper
           (fun k best produced =>
              ranked numBest best produced /\ length produced = k
              /\ Forall (fun r => r = resultOf config langData (rLayout r)) produced
              /\ tiesIdentical produced))
    in Hrun; [by destruct Hrun as (? & ? & _ & ?)| |].
  - intros restart best produced r t t' (Hr & Hl & Hc & Ht) Hres.
    apply runRestart_improves in Hres as [Hself Hres].
    split_and!.
    + by apply ranked_step.
    + rewrite length_app. simpl. lia.
    + apply Forall_app. split; [exact Hc|]. by constructor.
    + destruct produced as [|p produced0].
      { intros a b ->%list_elem_of_singleton ->%list_elem_of_singleton _. reflexivity. }
      set (produced := p :: produced0) in *.
      destruct Hr as (Hs & _ & rest & Hp & Hle & Hfull).
      destruct best as [|r0 best].
      { exfalso. destruct rest as [|x rest].
        - simpl in Hp. symmetry in Hp. apply Permutation.Permutation_nil in Hp.
          discriminate Hp.
        - destruct (Hfull ltac:(done)) as [H0 Hk]. simpl in Hk. lia. }
      assert (Hr0 : r0 ∈ produced) by (rewrite Hp; left).
      assert (Hmin : forall x, x ∈ produced -> Score r0 <= Score x).
      { intros x Hx. rewrite Hp in Hx. apply elem_of_app in Hx as [Hx|Hx].
        - apply elem_of_cons in Hx as [->|Hx]; [apply Qle_refl|].
          apply StronglySorted_inv in Hs as [_ Hall].
          rewrite Forall_forall in Hall. by apply Hall.
        - apply Hle; [left | exact Hx]. }
      assert (H0 : (0 <? restart)%nat = true) by (apply Nat.ltb_lt; simpl in Hl; lia).
      rewrite H0 in Hres.
      assert (Hs0 : r0 = resultOf config langData (rLayout r0)).
      { rewrite Forall_forall in Hc. by apply Hc. }
      rewrite <- Hs0 in Hres.
      destruct Hres as [->|Hlt].
      * intros a b Ha Hb. apply Ht.
        -- apply elem_of_app in Ha as [Ha|Ha%list_elem_of_singleton]; by subst.
        -- apply elem_of_app in Hb as [Hb|Hb%list_elem_of_singleton]; by subst.
      * intros a b Ha Hb Heq.
        apply elem_of_app in Ha as [Ha|Ha%list_elem_of_singleton];
          apply elem_of_app in Hb as [Hb|Hb%list_elem_of_singleton].
        -- by apply Ht.
        -- subst b. apply Hmin in Ha. lra.
        -- subst a. apply Hmin in Hb. lra.
        -- by subst.
  - split_and!; [apply ranked_nil | reflexivity | constructor |].
    intros a b Ha. by apply elem_of_nil in Ha.
Qed.

End Ties.


(** C3, amended.  The list that the seeded search returns is the stable sort
    by ascending score of the results of all restarts, in the order the
    restarts produced them, cut to its first [numBest] entries when
    [numBest] is positive and returned whole otherwise.  Results of equal
    score are the same record; the list is sorted, holds results of
    restarts, none twice, that score no worse than those it leaves out, and
    has [min numBest restarts] entries when [numBest] is positive. *)
Theorem search_results_ranked `{GoLib} config langData params numBest startLayout
    tape results tape' :
  SearchOptimalLayoutFromSpecificLayout config langData params numBest startLayout tape
    = Some (results, tape') ->
  exists produced,
    searchFromSpecificLayout config langData params numBest startLayout tape
      = Some ((results, produced), tape')
    /\ length produced = Z.to_nat (Restarts params)
    /\ results = (if (0 <? numBest)%Z
                  then take (Z.to_nat numBest) (stableSortByScore produced)
                  else stableSortByScore produced)
    /\ (forall a b, a ∈ produced -> b ∈ produced -> Score a == Score b -> a = b)
    /\ StronglySorted scoreLe results
    /\ (exists rest, produced ≡ₚ results ++ rest
                     /\ forall a b, a ∈ results -> b ∈ rest -> scoreLe a b)
    /\ length results =
         (if (0 <? numBest)%Z then Nat.min (Z.to_nat numBest) (length produced)
          else length produced).
Proof.
  unfold SearchOptimalLayoutFromSpecificLayout.
  intros ([results0 produced] & t & Hsearch & [[= <-] <-]%ret_Some)%bind_Some.
  exists produced. split; [exact Hsearch|].
  unfold searchFromSpecificLayout in Hsearch.
  destruct (createLowercaseLayout startLayout) as [lower upper].
  apply bind_Some in Hsearch as ([best produced0] & t0 & Hloop & Hret).
  apply ret_Some in Hret as [[= <- <-] <-].
  apply restartLoop_ties in Hloop as (Hr & Hl & Ht).
  destruct (ranked_final _ _ _ Hr) as [-> Hlen]. simpl.
  pose proof (ranked_stable _ _ _ Hr Ht) as Hstable.
  destruct Hr as (Hs & _ & rest & Hp & Hle & _).
  split_and!; [done | done | exact Ht | done | by exists rest | done].
Qed.

Lemma Forall_truncateBest numBest (Q : SimulatedAnnealingResult -> Prop) rs :
  Forall Q rs -> Forall Q (truncateBest numBest rs).
Proof.
  intros HQ. unfold truncateBest. destruct (_ && _); [by apply Forall_take | done].
Qed.

Lemma Forall_rank numBest (Q : SimulatedAnnealingResult -> Prop) rs :
  Forall Q rs -> Forall Q (truncateBest numBest (sortResultsByScore rs)).
Proof.
  intros HQ. destruct (sortResultsByScore_sorts rs) as [Hp _].
  apply Forall_truncateBest. by rewrite Hp.
Qed.

(** ** Layouts reached by the seeded search *)

Section Preservation.
Context `{GoLib}.
Variables (config : KeyboardConfig) (langData : LanguageData)
          (params : SimulatedAnnealingParams) (numBest : Z)
          (lowercaseStartLayout : Layout) (uppercasePositions : list (list bool)).

(** A property of layouts that neighbor generation maintains. *)
Variable P : Layout -> Prop.
Hypothesis P_neighbor : forall layout tape layout' tape',
  P layout ->
  generateNeighborFromBaseLayoutWithUppercaseInfo layout config lowercaseStartLayout
    uppercasePositions tape = Some (layout', tape') ->
  P layout'.

Lemma annealStep_keeps a tape a' tape' :
  P (currentLayout a) -> P (bestLayoutRestart a) ->
  annealStep config langData params lowercaseStartLayout uppercasePositions a tape
    = Some (a', tape') ->
  P (currentLayout a') /\ P (bestLayoutRestart a').
Proof.
  intros Hc Hb. unfold annealStep.
  intros (neighbor & t1 & Hn & Hrun)%bind_Some.
  apply bind_Some in Hrun as (ok & t2 & _ & Hrun).
  assert (P neighbor) by exact (P_neighbor _ _ _ _ Hc Hn).
  destruct ok; [destruct (Qltb _ _)|];
    apply ret_Some in Hrun as [<- _]; simpl; auto.
Qed.

Lemma annealLoop_keeps n a tape a' tape' :
  P (currentLayout a) -> P (bestLayoutRestart a) ->
  annealLoop config langData params lowercaseStartLayout uppercasePositions n a tape
    = Some (a', tape') ->
  P (currentLayout a') /\ P (bestLayoutRestart a').
Proof.
  revert a tape. induction n as [|n IH]; intros a tape Hc Hb; simpl.
  - intros [<- _]%ret_Some. auto.
  - intros (a1 & t1 & Hstep & Hloop)%bind_Some.
    destruct (annealStep_keeps _ _ _ _ Hc Hb Hstep) as [Hc1 Hb1].
    eapply IH; eauto.
Qed.

Lemma runRestart_keeps restart best tape r tape' :
  P lowercaseStartLayout -> Forall (fun r => P (rLayout r)) best ->
  runRestart config langData params lowercaseStartLayout uppercasePositions
    restart best tape = Some (r, tape') ->
  P (rLayout r).
Proof.
  intros Hl Hbest. unfold runRestart.
  intros (a & t & Hloop & [<- _]%ret_Some)%bind_Some. simpl.
  apply annealLoop_keeps in Hloop as [_ Hb]; [exact Hb| |]; simpl;
    (destruct (0 <? restart)%nat; [|exact Hl]);
    (destruct Hbest as [|r0 best' Hr0 _]; [exact Hl | exact Hr0]).
Qed.

Lemma restartLoop_keeps n best' produced' tape tape' :
  P lowercaseStartLayout ->
  restartLoop config langData params numBest lowercaseStartLayout uppercasePositions
    n 0 ([], []) tape = Some ((best', produced'), tape') ->
  Forall (fun r => P (rLayout r)) best' /\ Forall (fun r => P (rLayout r)) produced'.
Proof.
  intros Hl Hrun.
  apply (restartLoop_invariant config langData params numBest lowercaseStartLayout
           uppercasePositions
           (fun _ best produced =>
              Forall (fun r => P (rLayout r)) best
              /\ Forall (fun r => P (rLayout r)) produced))
    in Hrun; [exact Hrun| |by split].
  intros restart best produced r t t' [Hb Hp] Hr.
  assert (P (rLayout r)) by exact (runRestart_keeps _ _ _ _ _ Hl Hb Hr).
  split.
  - apply Forall_rank. apply Forall_app. by repeat constructor.
  - apply Forall_app. by repeat constructor.
Qed.

End Preservation.

(** ** The lowercased seed *)

Lemma cell_setGrid_eq {A} (m : list (list A)) r c v :
  cell (setGrid m r c v) r c = (fun _ => v) <$> cell m r c.
Proof.
  unfold cell, setGrid. rewrite list_lookup_alter_eq.
  destruct (m !! r) as [cells|]; simpl; [|reflexivity].
  destruct (cells !! c) as [x|] eqn:Hx; simpl.
  - apply list_lookup_insert_eq. by eapply lookup_lt_Some.
  - rewrite list_lookup_insert_None. exact Hx.
Qed.

Lemma cell_setGrid_ne {A} (m : list (list A)) r c v row col :
  (row, col) <> (r, c) -> cell (setGrid m r c v) row col = cell m row col.
Proof.
  intros Hne. unfold cell, setGrid. rewrite list_lookup_alter.
  case_decide as Hr; [|reflexivity]. subst row.
  destruct (m !! r) as [cells|]; simpl; [|reflexivity].
  rewrite list_lookup_insert_ne; [reflexivity | congruence].
Qed.

Lemma cell_setGrid_is_Some {A} (m : list (list A)) r c v row col :
  is_Some (cell (setGrid m r c v) row col) <-> is_Some (cell m row col).
Proof.
  destruct (decide ((row, col) = (r, c))) as [[= -> ->]|Hne].
  - rewrite cell_setGrid_eq. apply fmap_is_Some.
  - by rewrite cell_setGrid_ne.
Qed.

Lemma cell_replicate {A} (x : A) row col :
  (row < 3)%nat -> (col < 10)%nat -> cell (replicate 3 (replicate 10 x)) row col = Some x.
Proof.
  intros Hr Hc. unfold cell.
  rewrite lookup_replicate_2 by done. cbn [mbind option_bind].
  by apply lookup_replicate_2.
Qed.

Section Lowercase.
Context `{GoLib}.
Variable seed : Layout.

(** The body of the loop of [createLowercaseLayout]. *)
Let step : Layout * list (list bool) -> nat * nat -> Layout * list (list bool) :=
  fun '(lowercaseLayout, uppercasePositions) '(row, col) =>
    let k := key seed row col in
    if nonEmpty k then
      (setKey lowercaseLayout row col (ToLower k),
       setGrid uppercasePositions row col (isUppercase k))
    else (lowercaseLayout, setGrid uppercasePositions row col false).

(** What holds of the layout and the matrix once the cells of [done] have been
    visited. *)
Let visited (done : list (nat * nat)) (st : Layout * list (list bool)) : Prop :=
  Name st.1 = Name seed
  /\ (forall row col, is_Some (cell (Keys st.1) row col)
                      <-> is_Some (cell (Keys seed) row col))
  /\ (forall row col, (row < 3)%nat -> (col < 10)%nat -> is_Some (cell st.2 row col))
  /\ (forall row col,
        key st.1 row col = if bool_decide ((row, col) ∈ done)
                           then lowerKey (key seed row col) else key seed row col)
  /\ (forall row col, (row, col) ∈ done ->
        grid false st.2 row col
        = nonEmpty (key seed row col) && isUppercase (key seed row col)).

Lemma key_is_cell l row col : key l row col = default [] (cell (Keys l) row col).
Proof. reflexivity. Qed.

Lemma nonEmpty_is_Some row col :
  nonEmpty (key seed row col) = true -> is_Some (cell (Keys seed) row col).
Proof.
  rewrite key_is_cell. destruct (cell (Keys seed) row col); [by eexists|].
  simpl. discriminate.
Qed.

Lemma visited_step done st row col :
  (row < 3)%nat -> (col < 10)%nat ->
  visited done st -> visited (done ++ [(row, col)]) (step st (row, col)).
Proof.
  intros Hr Hc (Hname & Hshape & Hup & Hkey & Hgrid). destruct st as [l up].
  simpl in *. unfold visited, step.
  assert (Hupper : forall v row' col', (row', col') ∈ done ++ [(row, col)] ->
             (v = nonEmpty (key seed row col) && isUppercase (key seed row col)) ->
             grid false (setGrid up row col v) row' col'
             = nonEmpty (key seed row' col') && isUppercase (key seed row' col')).
  { intros v row' col' Hin ->. unfold grid. fold (cell (setGrid up row col
      (nonEmpty (key seed row col) && isUppercase (key seed row col))) row' col').
    destruct (decide ((row', col') = (row, col))) as [[= -> ->]|Hne].
    - rewrite cell_setGrid_eq. destruct (Hup row col Hr Hc) as [x ->]. reflexivity.
    - rewrite cell_setGrid_ne by done. apply elem_of_app in Hin as [Hin|Hin].
      + apply Hgrid. exact Hin.
      + apply list_elem_of_singleton in Hin. congruence. }
  destruct (nonEmpty (key seed row col)) eqn:Hn; simpl; split_and!.
  - exact Hname.
  - intros row' col'. rewrite cell_setGrid_is_Some. apply Hshape.
  - intros row' col' Hr' Hc'. rewrite cell_setGrid_is_Some. by apply Hup.
  - intros row' col'. destruct (decide ((row', col') = (row, col))) as [[= -> ->]|Hne].
    + rewrite bool_decide_eq_true_2 by (apply elem_of_app; right; by left).
      rewrite key_is_cell. simpl. rewrite cell_setGrid_eq.
      destruct (proj2 (Hshape row col) (nonEmpty_is_Some _ _ Hn)) as [x ->].
      simpl. unfold lowerKey. by rewrite Hn.
    + rewrite key_setKey_ne by done. rewrite Hkey.
      apply (f_equal (fun b : bool => if b then _ else _)).
      apply bool_decide_ext. rewrite elem_of_app, list_elem_of_singleton.
      split; [by left | intros [?|?]; [done | contradiction]].
  - intros row' col' Hin. by apply Hupper.
  - exact Hname.
  - exact Hshape.
  - intros row' col' Hr' Hc'. rewrite cell_setGrid_is_Some. by apply Hup.
  - intros row' col'. rewrite Hkey.
    destruct (decide ((row', col') = (row, col))) as [[= -> ->]|Hne].
    + rewrite (bool_decide_eq_true_2 (_ ∈ done ++ _)) by (apply elem_of_app; right; by left).
      unfold lowerKey. rewrite Hn. by destruct (bool_decide _).
    + apply (f_equal (fun b : bool => if b then _ else _)).
      apply bool_decide_ext. rewrite elem_of_app, list_elem_of_singleton.
      split; [by left | intros [?|?]; [done | contradiction]].
  - intros row' col' Hin. by apply Hupper.
Qed.

Lemma visited_all todo done st :
  (forall p, p ∈ todo -> p ∈ positions) ->
  visited done st -> visited (done ++ todo) (foldl step st todo).
Proof.
  revert done st. induction todo as [|[row col] todo IH]; intros done st Hin Hv.
  - by rewrite app_nil_r.
  - cbn [foldl]. replace (done ++ (row, col) :: todo) with ((done ++ [(row, col)]) ++ todo)
      by (by rewrite <- app_assoc).
    apply IH; [intros p Hp; apply Hin; by right|].
    destruct (positions_range row col) as [Hr Hc]; [apply Hin; by left|].
    by apply visited_step.
Qed.

(** The lowercased seed keeps the name of the seed, holds [lowerKey k] where
    the seed holds [k], and comes with the matrix of the cells whose
    character is an uppercase letter. *)
Lemma createLowercaseLayout_spec :
  let '(lower, upper) := createLowercaseLayout seed in
  Name lower = Name seed
  /\ forall row col, (row, col) ∈ positions ->
       key lower row col = lowerKey (key seed row col)
       /\ grid false upper row col
          = nonEmpty (key seed row col) && isUppercase (key seed row col).
Proof.
  assert (Hv : visited positions (createLowercaseLayout seed)).
  { apply (visited_all positions [] (seed, replicate 3 (replicate 10 false))); [done|].
    split_and!; cbn [fst snd]; try done.
    - intros row col Hr Hc. rewrite cell_replicate by done. by eexists.
    - intros row col Hin. by apply elem_of_nil in Hin. }
  destruct (createLowercaseLayout seed) as [lower upper].
  destruct Hv as (Hname & _ & _ & Hkey & Hgrid). simpl in *.
  split; [exact Hname|]. intros row col Hin. split.
  - rewrite Hkey. by rewrite bool_decide_eq_true_2.
  - by apply Hgrid.
Qed.

End Lowercase.

(** C5, amended.  In the seeded search no neighbor swap touches a position of
    the resolved lock set (the seed's uppercase positions when there is one,
    else the positions that the mask of the cost model does not mark ['.']),
    and every returned result carries at every locked position the character
    of the lowercased seed: [strings.ToLower] of the seed's character. *)
Theorem locked_positions_kept `{GoLib} config langData params numBest seed lower upper :
  createLowercaseLayout seed = (lower, upper) ->
  (forall layout tape layout' tape' row col,
     generateNeighborFromBaseLayoutWithUppercaseInfo layout config lower upper tape
       = Some (layout', tape') ->
     lockedBySeed config upper row col = true ->
     key layout' row col = key layout row col)
  /\ (forall tape results tape' r row col,
        SearchOptimalLayoutFromSpecificLayout config langData params numBest seed tape
          = Some (results, tape') ->
        r ∈ results -> (row, col) ∈ positions ->
        lockedBySeed config upper row col = true ->
        key (rLayout r) row col = lowerKey (key seed row col)).
Proof.
  intros Hlower.
  assert (Hswap : forall layout tape layout' tape' row col,
             generateNeighborFromBaseLayoutWithUppercaseInfo layout config lower upper tape
               = Some (layout', tape') ->
             lockedBySeed config upper row col = true ->
             key layout' row col = key layout row col).
  { intros layout tape layout' tape' row col Hgen Hlocked.
    eapply swapRandomPair_outside; [exact Hgen|].
    intros Hin. apply swapPositions_eligible in Hin as [Hfree _]. congruence. }
  split; [exact Hswap|].
  intros tape results tape' r row col Hrun Hr Hpos Hlocked.
  pose proof (createLowercaseLayout_spec seed) as Hspec. rewrite Hlower in Hspec.
  destruct Hspec as [_ Hspec]. destruct (Hspec row col Hpos) as [<- _].
  unfold SearchOptimalLayoutFromSpecificLayout, searchFromSpecificLayout in Hrun.
  rewrite Hlower in Hrun.
  apply bind_Some in Hrun as ([results0 produced] & t & Hsearch & [[= <-] <-]%ret_Some).
  apply bind_Some in Hsearch as ([best produced0] & t0 & Hloop & Hret).
  apply ret_Some in Hret as [[= <- <-] <-]. cbn [fst] in Hr.
  apply (restartLoop_keeps config langData params numBest lower upper
           (fun l => forall row col, lockedBySeed config upper row col = true ->
                                     key l row col = key lower row col)) in Hloop.
  - destruct Hloop as [Hbest _].
    apply (Forall_truncateBest numBest) in Hbest.
    pose proof (proj1 (Forall_forall _ _) Hbest r Hr) as Hk. cbv beta in Hk.
    exact (Hk row col Hlocked).
  - intros layout t1 layout' t1' Hl Hgen row' col' Hlk.
    etrans; [exact (Hswap layout t1 layout' t1' row' col' Hgen Hlk)|].
    exact (Hl row' col' Hlk).
  - intros row' col' _. reflexivity.
Qed.

(** ** The search without iterations *)

Section Idle.
Context `{GoLib}.
Variables (config : KeyboardConfig) (langData : LanguageData)
          (params : SimulatedAnnealingParams) (numBest : Z)
          (lower : Layout) (upper : list (list bool)).
Hypothesis no_iterations : (Iterations params <= 0)%Z.

Lemma runRestart_idle restart best tape :
  Forall (fun r => r = resultOf config langData lower) best ->
  runRestart config langData params lower upper restart best tape
  = Some (resultOf config langData lower, tape).
Proof.
  intros Hbest. unfold runRestart.
  replace (Z.to_nat (Iterations params)) with 0%nat by lia.
  assert ((if (0 <? restart)%nat
           then match best with r :: _ => rLayout r | [] => lower end
           else lower) = lower) as ->.
  { destruct (0 <? restart)%nat; [|reflexivity].
    destruct Hbest as [|r best' -> _]; reflexivity. }
  reflexivity.
Qed.

Lemma restartLoop_idle n restart best produced tape :
  Forall (fun r => r = resultOf config langData lower) best ->
  exists best' produced',
    restartLoop config langData params numBest lower upper n restart (best, produced) tape
    = Some ((best', produced'), tape)
    /\ Forall (fun r => r = resultOf config langData lower) best'.
Proof.
  revert restart best produced. induction n as [|n IH]; intros restart best produced Hbest.
  - exists best, produced. by split.
  - cbn [restartLoop]. unfold bind at 1. rewrite runRestart_idle by exact Hbest.
    apply IH. apply Forall_rank, Forall_app. by repeat constructor.
Qed.

End Idle.

(** C4, amended.  With [iterations = 0] the seeded search draws no random
    number and returns one result per restart, cut to [numBest] results when
    [numBest] is positive; each result carries the lowercased seed (the name
    of the seed and [strings.ToLower] of each of its characters) and the
    analysis and the weighted score that [AnalyzeLayout] gives for the
    lowercased seed. *)
Theorem search_without_iterations `{GoLib} config langData params numBest seed
    lower upper tape :
  createLowercaseLayout seed = (lower, upper) ->
  (Iterations params <= 0)%Z ->
  exists results,
    SearchOptimalLayoutFromSpecificLayout config langData params numBest seed tape
      = Some (results, tape)
    /\ length results =
         (if (0 <? numBest)%Z
          then Nat.min (Z.to_nat numBest) (Z.to_nat (Restarts params))
          else Z.to_nat (Restarts params))
    /\ Forall (fun r => rLayout r = lower
                        /\ rAnalysis r = AnalyzeLayout lower config langData
                        /\ Score r = WeightedScore (AnalyzeLayout lower config langData))
         results
    /\ Name lower = Name seed
    /\ forall row col, (row, col) ∈ positions ->
         key lower row col = lowerKey (key seed row col).
Proof.
  intros Hlower Hit.
  destruct (restartLoop_idle config langData params numBest lower upper Hit
              (Z.to_nat (Restarts params)) 0 [] [] tape ltac:(constructor))
    as (best & produced & Hloop & Hbest).
  exists best.
  destruct (restartLoop_ranked _ _ _ _ _ _ _ _ _ _ _ Hloop) as [Hr Hl].
  destruct (ranked_final _ _ _ Hr) as [Htrunc Hlen].
  pose proof (createLowercaseLayout_spec seed) as Hspec. rewrite Hlower in Hspec.
  destruct Hspec as [Hname Hspec].
  split_and!.
  - unfold SearchOptimalLayoutFromSpecificLayout, searchFromSpecificLayout.
    rewrite Hlower. unfold bind. rewrite Hloop. simpl. by rewrite Htrunc.
  - by rewrite Hlen, Hl.
  - eapply Forall_impl; [exact Hbest|]. intros r ->. by split_and!.
  - exact Hname.
  - intros row col Hpos. by apply Hspec.
Qed.

(** ** Sample runs *)

Lemma createLowercaseLayout_seedA :
  createLowercaseLayout seedA
  = ((createLowercaseLayout seedA).1, (createLowercaseLayout seedA).2).
Proof. by destruct (createLowercaseLayout seedA). Qed.

Lemma search_results_ranked_witness :
  match SearchOptimalLayoutFromSpecificLayout gradedConfig corpusQ (params 3 3) 2 seedA
          tapeQ with
  | Some (results, _) =>
      exists produced, length produced = 3%nat
                       /\ results = take 2 (stableSortByScore produced)
  | None => False
  end.
Proof.
  destruct (SearchOptimalLayoutFromSpecificLayout gradedConfig corpusQ (params 3 3) 2
              seedA tapeQ) as [[results tape']|] eqn:Hrun.
  - destruct (search_results_ranked gradedConfig corpusQ (params 3 3) 2 seedA tapeQ
                results tape' Hrun) as (produced & _ & Hl & Hst & _).
    exists produced. split; [exact Hl | exact Hst].
  - vm_compute in Hrun. discriminate Hrun.
Defined.

(** C3 as stated fails.  With [numBest = 0] the seeded search returns the
    results of both restarts, not at most [numBest] of them. *)
Lemma ranking_counterexample :
  exists results,
    SearchOptimalLayoutFromSpecificLayout gradedConfig corpusQ (params 0 2) 0 seedA []
      = Some (results, [])
    /\ length results = 2%nat /\ ~ (length results <= Z.to_nat 0)%nat.
Proof.
  eexists. split; [vm_compute; reflexivity|]. split; [reflexivity | simpl; lia].
Qed.

(** The exchange sort by itself is not stable: of two different results of
    score 2 followed by one of score 1, the second comes out before the
    first.  The seeded search never hands it such a list. *)
Example sortResultsByScore_not_stable :
  sortResultsByScore [scored "a" 2; scored "b" 2; scored "c" 1]
  = [scored "c" 1; scored "b" 2; scored "a" 2]
  /\ stableSortByScore [scored "a" 2; scored "b" 2; scored "c" 1]
     = [scored "c" 1; scored "a" 2; scored "b" 2].
Proof. split; vm_compute; reflexivity. Qed.

Lemma search_without_iterations_witness :
  exists results,
    SearchOptimalLayoutFromSpecificLayout gradedConfig corpusQ (params 0 3) 2 seedA tapeQ
      = Some (results, tapeQ)
    /\ length results = 2%nat
    /\ Forall (fun r => key (rLayout r) 1 0 = str "a" /\ Score r == 100) results.
Proof.
  destruct (search_without_iterations gradedConfig corpusQ (params 0 3) 2 seedA
              (createLowercaseLayout seedA).1 (createLowercaseLayout seedA).2 tapeQ
              createLowercaseLayout_seedA ltac:(simpl; lia))
    as (results & Hrun & Hlen & Hall & _).
  exists results. split; [exact Hrun|]. split; [exact Hlen|].
  eapply Forall_impl; [exact Hall|]. intros r (-> & _ & ->).
  split; vm_compute; reflexivity.
Defined.

(** C4 as stated fails.  On the seed with the uppercase [A], the search with
    [iterations = 0] returns a layout that holds [a] where the seed holds
    [A], and its score, 100, is not the weighted score of the seed, 310/3
    (the corpus has [a], not [A]). *)
Lemma seed_is_lowercased_counterexample :
  exists r,
    SearchOptimalLayoutFromSpecificLayout gradedConfig corpusQ (params 0 1) 1 seedA []
      = Some ([r], [])
    /\ key seedA 1 0 = str "A"
    /\ key (rLayout r) 1 0 = str "a"
    /\ rLayout r <> seedA
    /\ Score r == 100
    /\ WeightedScore (AnalyzeLayout seedA gradedConfig corpusQ) == 310 # 3
    /\ ~ Score r == WeightedScore (AnalyzeLayout seedA gradedConfig corpusQ).
Proof.
  eexists. split; [vm_compute; reflexivity|].
  split_and!; try (vm_compute; reflexivity).
  - intros Heq. apply (f_equal (fun l => key l 1 0)) in Heq. vm_compute in Heq.
    discriminate Heq.
  - vm_compute. discriminate.
Qed.

Lemma locked_positions_kept_witness :
  match SearchOptimalLayoutFromSpecificLayout gradedConfig corpusQ (params 3 3) 2 seedA
          tapeQ with
  | Some (results, _) =>
      results <> [] /\ Forall (fun r => key (rLayout r) 1 0 = str "a") results
  | None => False
  end.
Proof.
  destruct (SearchOptimalLayoutFromSpecificLayout gradedConfig corpusQ (params 3 3) 2
              seedA tapeQ) as [[results tape']|] eqn:Hrun.
  - split.
    + intros ->. vm_compute in Hrun. discriminate Hrun.
    + apply Forall_forall. intros r Hr.
      destruct (locked_positions_kept gradedConfig corpusQ (params 3 3) 2 seedA
                  (createLowercaseLayout seedA).1 (createLowercaseLayout seedA).2
                  createLowercaseLayout_seedA) as [_ Hkept].
      rewrite (Hkept tapeQ results tape' r 1%nat 0%nat Hrun Hr).
      * vm_compute. reflexivity.
      * apply list_elem_of_In. vm_compute. tauto.
      * vm_compute. reflexivity.
  - vm_compute in Hrun. discriminate Hrun.
Defined.

(** C5 as stated fails.  The position of the uppercase [A] of the seed is
    locked, and the returned result carries [a] there, not the character
    [A] of the seed. *)
Lemma locked_key_is_lowercased_counterexample :
  exists r,
    SearchOptimalLayoutFromSpecificLayout gradedConfig corpusQ (params 0 1) 1 seedA []
      = Some ([r], [])
    /\ hasUppercaseLetters seedA = true
    /\ isUppercase (key seedA 1 0) = true
    /\ lockedBySeed gradedConfig (createLowercaseLayout seedA).2 1 0 = true
    /\ key seedA 1 0 = str "A"
    /\ key (rLayout r) 1 0 = str "a"
    /\ key (rLayout r) 1 0 <> key seedA 1 0.
Proof.
  eexists. split; [vm_compute; reflexivity|].
  split_and!; try (vm_compute; reflexivity).
  vm_compute. discriminate.
Qed.

(** The strict flag does move mass between the buckets: the bigram of the
    sample of C2 is all in HSB2 in strict mode and all in HSB otherwise. *)
Example strict_flag_moves_mass :
  let layout := mkLayout [""; ""; "c"] [""; ""; ""; "v"] [] in
  let on := Bigram (AnalyzeLayout layout (set_HSBStrictMode 1 (plainConfig []))
                      (corpus [] [("cv", 1)])) in
  let off := Bigram (AnalyzeLayout layout (set_HSBStrictMode 0 (plainConfig []))
                       (corpus [] [("cv", 1)])) in
  HSB on == 0 /\ HSB2 on == 100 /\ HSB off == 100 /\ HSB2 off == 0.
Proof. vm_compute. repeat split; congruence. Qed.

(** * Further properties *)

(** ** The inverse index *)

Lemma positions_lookup i row col :
  positions !! i = Some (row, col)
  <-> (i = row * 10 + col)%nat /\ (row < 3)%nat /\ (col < 10)%nat.
Proof.
  split.
  - intros Hi. assert (Hlt : (i < 30)%nat) by (apply lookup_lt_Some in Hi; exact Hi).
    do 30 (destruct i as [|i]; [vm_compute in Hi; injection Hi as <- <-; lia|]). lia.
  - intros (-> & Hr & Hc).
    do 3 (destruct row as [|row];
          [do 10 (destruct col as [|col]; [reflexivity|]); lia|]). lia.
Qed.

(** After the cells of [ps] have been visited, the index maps a string to the
    last cell of [ps] that holds it. *)
Lemma keyPos_last layout (ps : list (nat * nat)) k pos :
  foldl (fun m '(row, col) =>
           let k := key layout row col in
           if decide (k = []) then m else <[k := (row, col)]> m)
        (∅ : gmap gostring (nat * nat)) ps !! k = Some pos
  <-> k <> [] /\ exists i, ps !! i = Some pos /\ key layout pos.1 pos.2 = k
                           /\ forall j q, (i < j)%nat -> ps !! j = Some q ->
                                          key layout q.1 q.2 <> k.
Proof.
  revert k pos. induction ps as [|[row col] ps IH] using rev_ind; intros k pos.
  - simpl. rewrite lookup_empty. split; [discriminate|].
    intros (_ & i & Hi & _). by rewrite lookup_nil in Hi.
  - rewrite foldl_app. cbn [foldl]. cbv zeta.
    destruct (decide (key layout row col = [])) as [He|He].
    + rewrite IH. split.
      * intros (Hk & i & Hi & Hkey & Hlast). split; [exact Hk|].
        exists i. split_and!; [by apply lookup_app_l_Some | exact Hkey |].
        intros j q Hj Hq. apply lookup_app_Some in Hq as [Hq|[_ Hq]].
        -- by eapply Hlast.
        -- apply list_lookup_singleton_Some in Hq as [_ <-]. simpl. congruence.
      * intros (Hk & i & Hi & Hkey & Hlast). split; [exact Hk|].
        apply lookup_app_Some in Hi as [Hi|[Hlen Hi]].
        -- exists i. split_and!; [exact Hi | exact Hkey |].
           intros j q Hj Hq. eapply Hlast; [exact Hj|]. by apply lookup_app_l_Some.
        -- apply list_lookup_singleton_Some in Hi as [_ <-]. simpl in Hkey. congruence.
    + rewrite lookup_insert. case_decide as Hkk.
      * subst k. split.
        -- intros [= <-]. split; [exact He|]. exists (length ps).
           split_and!; [by apply list_lookup_middle | reflexivity |].
           intros j q Hj Hq. apply lookup_lt_Some in Hq.
           rewrite length_app in Hq. simpl in Hq. lia.
        -- intros (_ & i & Hi & Hkey & Hlast).
           apply lookup_app_Some in Hi as [Hi|[Hlen Hi]].
           ++ exfalso. apply (Hlast (length ps) (row, col)).
              ** by apply lookup_lt_Some in Hi.
              ** by apply list_lookup_middle.
              ** reflexivity.
           ++ by apply list_lookup_singleton_Some in Hi as [_ <-].
      * rewrite IH. split.
        -- intros (Hk & i & Hi & Hkey & Hlast). split; [exact Hk|].
           exists i. split_and!; [by apply lookup_app_l_Some | exact Hkey |].
           intros j q Hj Hq. apply lookup_app_Some in Hq as [Hq|[_ Hq]].
           ++ by eapply Hlast.
           ++ apply list_lookup_singleton_Some in Hq as [_ <-]. simpl. congruence.
        -- intros (Hk & i & Hi & Hkey & Hlast). split; [exact Hk|].
           apply lookup_app_Some in Hi as [Hi|[Hlen Hi]].
           ++ exists i. split_and!; [exact Hi | exact Hkey |].
              intros j q Hj Hq. eapply Hlast; [exact Hj|]. by apply lookup_app_l_Some.
           ++ apply list_lookup_singleton_Some in Hi as [_ <-]. simpl in Hkey. congruence.
Qed.

(** X1. The inverse index of [AnalyzeLayout] maps a string to a cell exactly
    when the string is not empty, the cell is in the grid and holds the
    string, and no later cell in row-major order holds it: of the cells that
    hold the same character, the last one wins. *)
Theorem buildKeyPos_last_cell layout k row col :
  buildKeyPos layout !! k = Some (row, col)
  <-> k <> [] /\ (row < 3)%nat /\ (col < 10)%nat /\ key layout row col = k
      /\ forall row' col', (row' < 3)%nat -> (col' < 10)%nat ->
           (row * 10 + col < row' * 10 + col')%nat -> key layout row' col' <> k.
Proof.
  unfold buildKeyPos. rewrite keyPos_last. cbn [fst snd]. split.
  - intros (Hk & i & Hi & Hkey & Hlast).
    apply positions_lookup in Hi as (-> & Hr & Hc).
    split_and!; try done.
    intros row' col' Hr' Hc' Hlt.
    apply (Hlast (row' * 10 + col')%nat (row', col') Hlt).
    by apply positions_lookup.
  - intros (Hk & Hr & Hc & Hkey & Hlast). split; [exact Hk|].
    exists (row * 10 + col)%nat. split_and!; [by apply positions_lookup | exact Hkey |].
    intros j [row' col'] Hj Hq. apply positions_lookup in Hq as (-> & Hr' & Hc').
    by apply Hlast.
Qed.

(** ** Layout equality and the analysis *)

Lemma Equals_true l other :
  Equals l other = true
  <-> Name l = Name other
      /\ forall row col, (row, col) ∈ positions -> key l row col = key other row col.
Proof.
  unfold Equals. case_bool_decide as Hname; cbn [negb].
  - rewrite forallb_forall. split.
    + intros Hall. split; [exact Hname|]. intros row col Hin.
      apply list_elem_of_In, Hall in Hin. by apply bool_decide_eq_true in Hin.
    + intros [_ Hall] [row col] Hin. apply bool_decide_eq_true, Hall.
      by apply list_elem_of_In.
  - split; [discriminate | by intros [? _]].
Qed.

Lemma buildKeyPos_ext l other :
  (forall row col, (row, col) ∈ positions -> key l row col = key other row col) ->
  buildKeyPos l = buildKeyPos other.
Proof.
  unfold buildKeyPos. generalize (∅ : gmap gostring (nat * nat)).
  induction positions as [|[row col] ps IH]; intros m Hkeys; [reflexivity|].
  cbn [foldl]. cbv zeta. rewrite (Hkeys row col) by left.
  apply IH. intros row' col' Hin. apply Hkeys. by right.
Qed.

(** X2. Two layouts that [Equals] accepts (same name, same thirty keys;
    the comments are not compared) get the same analysis, score included. *)
Theorem Equals_same_analysis l other config langData :
  Equals l other = true ->
  AnalyzeLayout l config langData = AnalyzeLayout other config langData.
Proof.
  intros [Hname Hkeys]%Equals_true.
  unfold AnalyzeLayout, calculateEffort, calculateBigrams.
  by rewrite (buildKeyPos_ext l other Hkeys), Hname.
Qed.

Lemma Equals_same_analysis_witness :
  let l := mkLayout ["q"; "w"] ["a"] [] in
  let other := {| Name := Name l; Keys := Keys l; PreComments := [str "# note"];
                  PostComments := [] |} in
  l <> other
  /\ AnalyzeLayout l gradedConfig corpusQ = AnalyzeLayout other gradedConfig corpusQ.
Proof.
  split; [discriminate|].
  apply (Equals_same_analysis (mkLayout ["q"; "w"] ["a"] [])). reflexivity.
Defined.

(** ** The score and its parts *)

Lemma AnalyzeLayout_TotalEffort layout config langData :
  TotalEffort (AnalyzeLayout layout config langData)
  = TotalEffort (calculateEffort layout config langData (buildKeyPos layout)
                   (newAnalysis (Name layout))).
Proof.
  unfold AnalyzeLayout.
  generalize (calculateEffort layout config langData (buildKeyPos layout)
                (newAnalysis (Name layout))) as e.
  intros e. unfold calculateBigrams. by destruct (Qltb 0 _).
Qed.

(** X3. In exact arithmetic the weighted score of an analysis is the
    normalised total effort, plus the bigram effort sum that
    [calculateBigramEffortSum] reports, plus the weighted hand and finger
    imbalance, plus the overload penalty.  [float64] adds the bigram terms
    onto the effort term one by one, and [calculateBigramEffortSum] adds
    them up from zero, so that the two sides, as computed, agree up to
    rounding only. *)
Theorem score_decomposition layout config langData :
  let a := AnalyzeLayout layout config langData in
  let w := Weights config in
  WeightedScore a
  == TotalEffortNorm w * TotalEffort a + calculateBigramEffortSum config a
     + wHDI w * HDI a + wFDI w * FDI a + MEP a.
Proof.
  intros a w. subst a w. unfold AnalyzeLayout.
  match goal with
  | |- context [calculateWeightedScore config ?x] => generalize x as a; intros a
  end.
  unfold calculateBigramEffortSum, calculateWeightedScore.
  cbn [set_WeightedScore WeightedScore TotalEffort Bigram HDI FDI MEP]. ring.
Qed.

Lemma effortTotals_flat config keyPos chars e :
  (forall k row col, keyPos !! k = Some (row, col) ->
                     grid 0 (EffortMatrix config) row col == e) ->
  (effortTotals config keyPos chars).1 == e * (effortTotals config keyPos chars).2.
Proof.
  intros Hflat. unfold effortTotals.
  assert (Hgen : forall te tf, te == e * tf ->
            let r := foldl (fun '(totalEffort, totalFreq) '(char, freq) =>
                      match keyPos !! char with
                      | None => (totalEffort, totalFreq)
                      | Some (row, col) =>
                          (totalEffort + grid 0 (EffortMatrix config) row col * freq,
                           totalFreq + freq)
                      end) (te, tf) chars in
            r.1 == e * r.2).
  { induction chars as [|[char freq] l IH]; intros te tf Hinv; [exact Hinv|].
    cbn [foldl]. destruct (keyPos !! char) as [[row col]|] eqn:Hk.
    - apply IH. rewrite (Hflat _ _ _ Hk), Hinv. ring.
    - by apply IH. }
  apply Hgen. ring.
Qed.

Lemma uniformEffort_flat config e :
  (forall row col, (row < 3)%nat -> (col < 10)%nat ->
                   grid 0 (EffortMatrix config) row col == e) ->
  uniformEffort config == e.
Proof.
  intros Hflat. unfold uniformEffort.
  assert (Hgen : forall ps u,
            (forall row col, (row, col) ∈ ps -> grid 0 (EffortMatrix config) row col == e) ->
            foldl (fun u '(row, col) => u + grid 0 (EffortMatrix config) row col) u ps
            == u + inject_Z (Z.of_nat (length ps)) * e).
  { induction ps as [|[row col] ps IH]; intros u Hps.
    - simpl. ring.
    - cbn [foldl]. rewrite IH by (intros; apply Hps; by right).
      rewrite (Hps row col) by left. cbn [length].
      rewrite Nat2Z.inj_succ, <- Z.add_1_r, inject_Z_plus. change (inject_Z 1) with 1. ring. }
  rewrite Hgen.
  - change (inject_Z (Z.of_nat (length positions))) with 30. field.
  - intros row col [Hr Hc]%positions_range. by apply Hflat.
Qed.

(** X4. With a flat effort matrix (every one of the thirty cells holds the
    same non-zero effort) and a corpus that the layout matches with positive
    frequency, the total effort of every layout is 100: exactly so in exact
    arithmetic, and up to rounding (within 1e-6) as [float64] computes
    it. *)
Theorem flat_effort_total layout config langData e :
  (forall row col, (row < 3)%nat -> (col < 10)%nat ->
                   grid 0 (EffortMatrix config) row col == e) ->
  ~ e == 0 ->
  0 < matchedCharFreq (buildKeyPos layout) (map_to_list (Characters langData)) ->
  TotalEffort (AnalyzeLayout layout config langData) == 100.
Proof.
  intros Hflat He Hpos. rewrite AnalyzeLayout_TotalEffort. unfold calculateEffort.
  pose proof (uniformEffort_flat config e Hflat) as Hu.
  assert (Hcells : forall k row col, buildKeyPos layout !! k = Some (row, col) ->
                     grid 0 (EffortMatrix config) row col == e).
  { intros k row col [Hr Hc]%buildKeyPos_range. by apply Hflat. }
  revert Hpos Hcells.
  generalize (buildKeyPos layout) as keyPos,
             (map_to_list (Characters langData)) as chars.
  intros keyPos chars Hpos Hcells.
  pose proof (effortTotals_freq config keyPos chars) as Htf.
  pose proof (effortTotals_flat config keyPos chars e Hcells) as Hte.
  destruct (effortTotals config keyPos chars) as [te tf]. cbn [fst snd] in Htf, Hte.
  assert (Qltb 0 tf = true) as -> by (apply Qltb_lt; lra).
  cbn [set_TotalEffort set_EffortByRow set_EffortByFinger set_EffortByHalf TotalEffort].
  rewrite Hu, Hte. field. split; [lra | exact He].
Qed.

Lemma flat_effort_total_witness :
  TotalEffort (AnalyzeLayout seedA (plainConfig []) corpusQ) == 100.
Proof.
  apply (flat_effort_total seedA (plainConfig []) corpusQ 1).
  - intros row col Hr Hc.
    do 3 (destruct row as [|row]; [do 10 (destruct col as [|col]; [reflexivity|]); lia|]).
    lia.
  - discriminate.
  - vm_compute. reflexivity.
Defined.

(** ** Ranges of the load percentages and of the balance indices *)

Lemma at_bounds l i : Forall (fun x => 0 <= x) l -> 0 <= at_ l i <= Qsum l.
Proof.
  intros Hl. revert i. induction Hl as [|x l Hx Hl IH]; intros i.
  - unfold at_. rewrite lookup_nil. simpl. lra.
  - assert (Hnn : 0 <= Qsum l).
    { destruct (IH 0%nat) as [H0 H1]. lra. }
    change (Qsum (x :: l)) with (x + Qsum l).
    destruct i as [|i].
    + change (at_ (x :: l) 0) with x. lra.
    + change (at_ (x :: l) (S i)) with (at_ l i). destruct (IH i) as [H0 H1]. lra.
Qed.

Lemma bump_nonneg acc i x :
  Forall (fun x => 0 <= x) acc -> 0 <= x -> Forall (fun x => 0 <= x) (bump acc i x).
Proof.
  intros Hacc Hx. apply Forall_insert; [exact Hacc|].
  pose proof (at_bounds acc i Hacc) as [H0 _]. lra.
Qed.

Lemma foldl_nonneg (step : list Q -> gostring * Q -> list Q) chars acc :
  (forall acc e, Forall (fun x => 0 <= x) acc -> 0 <= e.2 ->
                 Forall (fun x => 0 <= x) (step acc e)) ->
  Forall (fun e : gostring * Q => 0 <= e.2) chars ->
  Forall (fun x => 0 <= x) acc ->
  Forall (fun x => 0 <= x) (foldl step acc chars).
Proof.
  intros Hstep Hchars. revert acc.
  induction Hchars as [|e chars He Hchars IH]; intros acc Hacc; [exact Hacc|].
  cbn [foldl]. apply IH. by apply Hstep.
Qed.

Lemma replicate_nonneg n : Forall (fun x => 0 <= x) (replicate n 0).
Proof. apply Forall_replicate. lra. Qed.

Lemma frequencies_nonneg keyPos chars :
  Forall (fun e : gostring * Q => 0 <= e.2) chars ->
  Forall (fun x => 0 <= x) (rowTotalFreqs keyPos chars)
  /\ Forall (fun x => 0 <= x) (fingerFreqs keyPos chars)
  /\ Forall (fun x => 0 <= x) (halfFreqs keyPos chars).
Proof.
  intros Hchars. unfold rowTotalFreqs, fingerFreqs, halfFreqs.
  split_and!; (apply foldl_nonneg; [| exact Hchars | apply replicate_nonneg]);
    intros acc [char freq] Hacc Hfreq; cbn [snd] in Hfreq;
    destruct (keyPos !! char) as [[row col]|]; try exact Hacc.
  - by apply bump_nonneg.
  - cbv zeta. destruct (_ <? 8)%nat; [by apply bump_nonneg | exact Hacc].
  - by apply bump_nonneg.
Qed.

Lemma at_insert d s v i :
  at_ (<[s := v]> d) i = if decide (s = i /\ (s < length d)%nat) then v else at_ d i.
Proof. unfold at_. rewrite list_lookup_insert. by case_decide. Qed.

Lemma percentages_at n src total dst i :
  at_ (percentages n src total dst) i
  = if decide ((i < n)%nat /\ (i < length dst)%nat)
    then at_ src i / total * 100 else at_ dst i.
Proof.
  unfold percentages.
  assert (Hgen : forall k s d,
            at_ (foldl (fun d i => <[i := at_ src i / total * 100]> d) d (seq s k)) i
            = if decide ((s <= i < s + k)%nat /\ (i < length d)%nat)
              then at_ src i / total * 100 else at_ d i).
  { induction k as [|k IH]; intros s d.
    - cbn [seq foldl]. case_decide; [lia | reflexivity].
    - cbn [seq foldl]. rewrite IH, length_insert.
      rewrite at_insert.
      repeat case_decide; try lia; try reflexivity;
        destruct_and?; subst; try reflexivity; exfalso; lia. }
  rewrite Hgen. repeat case_decide; try reflexivity; lia.
Qed.

Lemma percentage_in_range x s tf :
  0 <= x <= s -> s == tf -> 0 < tf -> 0 <= x / tf * 100 <= 100.
Proof.
  intros [H0 Hs] Heq Hpos. rewrite Heq in Hs. split.
  - apply Qmult_le_0_compat; [|lra]. apply Qle_shift_div_l; [exact Hpos | lra].
  - assert (x / tf <= 1) by (apply Qle_shift_div_r; [exact Hpos | lra]). lra.
Qed.

(** The loads that [calculateEffort] writes into a fresh analysis. *)
Lemma calculateEffort_bounded layout config langData keyPos name :
  (forall k row col, keyPos !! k = Some (row, col) -> (row < 3)%nat /\ (col < 10)%nat) ->
  (forall char freq, Characters langData !! char = Some freq -> 0 <= freq) ->
  let e := calculateEffort layout config langData keyPos (newAnalysis name) in
  forall i, 0 <= at_ (EffortByRow e) i <= 100
            /\ 0 <= at_ (EffortByFinger e) i <= 100
            /\ 0 <= at_ (EffortByHalf e) i <= 100.
Proof.
  intros Hrange Hfreq e i. subst e. unfold calculateEffort.
  assert (Hchars : Forall (fun e : gostring * Q => 0 <= e.2)
                     (map_to_list (Characters langData))).
  { apply Forall_forall. intros [char freq] Hin%elem_of_map_to_list. by eapply Hfreq. }
  revert Hchars. generalize (map_to_list (Characters langData)) as chars.
  intros chars Hchars.
  pose proof (effortTotals_freq config keyPos chars) as Htf.
  destruct (effortTotals config keyPos chars) as [te tf]. cbn [snd] in Htf.
  destruct (Qltb 0 tf) eqn:Hpos.
  - apply Qltb_lt in Hpos.
    cbn [set_TotalEffort set_EffortByRow set_EffortByFinger set_EffortByHalf newAnalysis
         EffortByRow EffortByFinger EffortByHalf].
    destruct (frequencies_nonneg keyPos chars Hchars) as (Hr & Hf & Hh).
    destruct (rowTotalFreqs_sum keyPos Hrange chars) as [_ Hrs].
    destruct (fingerFreqs_sum keyPos Hrange chars) as [_ Hfs].
    destruct (halfFreqs_sum keyPos chars) as [_ Hhs].
    rewrite !percentages_at.
    assert (Hzero : 0 <= at_ (replicate 3 0) i <= 100
                    /\ 0 <= at_ (replicate 8 0) i <= 100
                    /\ 0 <= at_ (replicate 2 0) i <= 100).
    { pose proof (at_replicate_zero 3 i). pose proof (at_replicate_zero 8 i).
      pose proof (at_replicate_zero 2 i). lra. }
    destruct Hzero as (Hz3 & Hz8 & Hz2).
    split; [|split]; case_decide; try assumption;
      (eapply percentage_in_range; [apply at_bounds; eassumption | | exact Hpos]).
    + by rewrite Hrs, Htf.
    + by rewrite Hfs, Htf.
    + by rewrite Hhs, Htf.
  - cbn [newAnalysis EffortByRow EffortByFinger EffortByHalf].
    pose proof (at_replicate_zero 3 i). pose proof (at_replicate_zero 8 i).
    pose proof (at_replicate_zero 2 i). lra.
Qed.

(** X5. When no character of the corpus has a negative frequency, every row,
    finger and half load of the analysis lies between 0 and 100.  The upper
    bound is that of exact arithmetic: [float64] sums the loads and their
    total in separate walks of the map, and keeps a load below 100 up to
    rounding only (within 1e-6). *)
Theorem load_percentages_bounded layout config langData :
  (forall char freq, Characters langData !! char = Some freq -> 0 <= freq) ->
  let a := AnalyzeLayout layout config langData in
  forall i, 0 <= at_ (EffortByRow a) i <= 100
            /\ 0 <= at_ (EffortByFinger a) i <= 100
            /\ 0 <= at_ (EffortByHalf a) i <= 100.
Proof.
  intros Hfreq a i. subst a.
  destruct (AnalyzeLayout_loads layout config langData) as (-> & -> & ->).
  exact (calculateEffort_bounded layout config langData (buildKeyPos layout)
           (Name layout) (buildKeyPos_range layout) Hfreq i).
Qed.

Lemma nonneg_by_list (m : gmap gostring Q) :
  forallb (fun e : gostring * Q => Qle_bool 0 e.2) (map_to_list m) = true ->
  forall k f, m !! k = Some f -> 0 <= f.
Proof.
  intros Hall k f Hk. apply elem_of_map_to_list, list_elem_of_In in Hk.
  rewrite forallb_forall in Hall. apply Hall in Hk. by apply Qle_bool_iff in Hk.
Qed.

Lemma load_percentages_bounded_witness :
  let a := AnalyzeLayout seedA gradedConfig corpusQ in
  0 <= at_ (EffortByRow a) 0 <= 100
  /\ 0 <= at_ (EffortByFinger a) 2 <= 100
  /\ 0 <= at_ (EffortByHalf a) 1 <= 100.
Proof.
  pose proof (load_percentages_bounded seedA gradedConfig corpusQ) as Hb.
  cbv zeta in Hb.
  destruct (Hb ltac:(apply nonneg_by_list; vm_compute; reflexivity) 0%nat) as (H0 & _ & _).
  destruct (Hb ltac:(apply nonneg_by_list; vm_compute; reflexivity) 2%nat) as (_ & H2 & _).
  destruct (Hb ltac:(apply nonneg_by_list; vm_compute; reflexivity) 1%nat) as (_ & _ & H1).
  exact (conj H0 (conj H2 H1)).
Defined.

(** The balance indices and the penalty of the result are computed from the
    loads that [calculateEffort] leaves. *)
Lemma AnalyzeLayout_indices layout config langData :
  let a := AnalyzeLayout layout config langData in
  let e := calculateEffort layout config langData (buildKeyPos layout)
             (newAnalysis (Name layout)) in
  HDI a = Qabs (at_ (EffortByHalf e) 0 - at_ (EffortByHalf e) 1)
  /\ FDI a = calculateFDI e config
  /\ MEP a = calculateMEP e config.
Proof.
  intros a e. subst a. unfold AnalyzeLayout. fold e.
  destruct (calculateBigrams_loads layout config langData (buildKeyPos layout) e)
    as (Hr & Hf & Hh).
  revert Hr Hf Hh.
  generalize (calculateBigrams layout config langData (buildKeyPos layout) e) as b.
  intros b Hr Hf Hh.
  unfold calculateWeightedScore, calculateFDI, calculateMEP.
  cbn [set_WeightedScore set_MEP set_FDI set_HDI HDI FDI MEP
       EffortByRow EffortByFinger EffortByHalf].
  by rewrite Hr, Hf, Hh.
Qed.

Lemma Qabs_diff_bound x y b : 0 <= x <= b -> 0 <= y <= b -> 0 <= Qabs (x - y) <= b.
Proof.
  intros Hx Hy. split; [apply Qabs_nonneg|].
  apply Qabs_Qle_condition. lra.
Qed.

Lemma weighted_bound d p : 0 <= d -> 0 <= p <= 100 -> 0 <= d * p <= 100 * d.
Proof.
  intros Hd [H0 H1].
  assert (0 <= d * p) by (apply Qmult_le_0_compat; lra).
  assert (0 <= d * (100 - p)) by (apply Qmult_le_0_compat; lra).
  lra.
Qed.

(** X6. When no character of the corpus has a negative frequency, the hand
    imbalance HDI lies between 0 and 100; when, besides, the four pair
    weights D18, D27, D36 and D45 are not negative, the finger imbalance FDI
    lies between 0 and 100 times their sum.  The upper bounds are those of
    exact arithmetic; as [float64] computes the loads, they hold up to
    rounding only (within 1e-6 of the bound, relative to it). *)
Theorem imbalance_bounded layout config langData :
  (forall char freq, Characters langData !! char = Some freq -> 0 <= freq) ->
  let a := AnalyzeLayout layout config langData in
  let w := Weights config in
  0 <= HDI a <= 100
  /\ (0 <= D18 w -> 0 <= D27 w -> 0 <= D36 w -> 0 <= D45 w ->
      0 <= FDI a <= 100 * (D18 w + D27 w + D36 w + D45 w)).
Proof.
  intros Hfreq a w. subst a w.
  destruct (AnalyzeLayout_indices layout config langData) as (-> & -> & _).
  pose proof (calculateEffort_bounded layout config langData (buildKeyPos layout)
                (Name layout) (buildKeyPos_range layout) Hfreq) as Hb.
  cbv zeta in Hb.
  set (e := calculateEffort layout config langData (buildKeyPos layout)
              (newAnalysis (Name layout))) in *.
  split.
  - destruct (Hb 0%nat) as (_ & _ & H0). destruct (Hb 1%nat) as (_ & _ & H1).
    by apply Qabs_diff_bound.
  - intros H18 H27 H36 H45. unfold calculateFDI.
    assert (Hf : forall i j, 0 <= Qabs (at_ (EffortByFinger e) i - at_ (EffortByFinger e) j)
                             <= 100).
    { intros i j. destruct (Hb i) as (_ & Hi & _). destruct (Hb j) as (_ & Hj & _).
      by apply Qabs_diff_bound. }
    pose proof (weighted_bound _ _ H18 (Hf 0 7)%nat) as Hp18.
    pose proof (weighted_bound _ _ H27 (Hf 1 6)%nat) as Hp27.
    pose proof (weighted_bound _ _ H36 (Hf 2 5)%nat) as Hp36.
    pose proof (weighted_bound _ _ H45 (Hf 3 4)%nat) as Hp45.
    cbv zeta. lra.
Qed.

Lemma imbalance_bounded_witness :
  let a := AnalyzeLayout seedA limitConfig corpusQ in
  0 <= HDI a <= 100 /\ 0 <= FDI a <= 100 * (1 + 2 + 3 + 4).
Proof.
  destruct (imbalance_bounded seedA limitConfig corpusQ
              ltac:(apply nonneg_by_list; vm_compute; reflexivity)) as [Hh Hf].
  split; [exact Hh|]. apply Hf; discriminate.
Defined.

(** ** The overload penalty *)

Lemma penalties_sum n maxima loads rates mep :
  penalties n maxima loads rates mep
  == mep + Qsum (excessPenalty maxima loads rates <$> seq 0 n).
Proof.
  unfold penalties. generalize 0%nat as s. revert mep.
  induction n as [|n IH]; intros mep s.
  - simpl. ring.
  - cbn [seq foldl fmap list_fmap]. change (Qsum (?x :: ?l)) with (x + Qsum l).
    rewrite IH. unfold excessPenalty at 2.
    destruct (Qltb 0 (at_ maxima s)); [destruct (Qltb 0 _)|]; ring.
Qed.

Lemma excessPenalty_nonneg maxima loads rates i :
  0 <= at_ rates i -> 0 <= excessPenalty maxima loads rates i.
Proof.
  intros Hrate. unfold excessPenalty.
  destruct (Qltb 0 (at_ maxima i)); [|lra].
  destruct (Qltb 0 (at_ loads i - at_ maxima i)) eqn:Hex; [|lra].
  apply Qltb_lt in Hex. apply Qmult_le_0_compat; lra.
Qed.

Lemma excessPenalty_within maxima loads rates i :
  at_ maxima i <= 0 \/ at_ loads i <= at_ maxima i ->
  excessPenalty maxima loads rates i = 0.
Proof.
  intros Hin. unfold excessPenalty.
  destruct (Qltb 0 (at_ maxima i)) eqn:Hmax; [|reflexivity].
  destruct (Qltb 0 (at_ loads i - at_ maxima i)) eqn:Hex; [|reflexivity].
  apply Qltb_lt in Hmax, Hex. lra.
Qed.

Lemma excessPenalties_nonneg maxima loads rates n :
  (forall i, (i < n)%nat -> 0 <= at_ rates i) ->
  Forall (fun x => 0 <= x) (excessPenalty maxima loads rates <$> seq 0 n).
Proof.
  intros Hrates. apply Forall_fmap, Forall_forall. intros i Hi%elem_of_seq.
  apply excessPenalty_nonneg, Hrates. lia.
Qed.

Lemma excessPenalties_at maxima loads rates n i :
  (i < n)%nat ->
  at_ (excessPenalty maxima loads rates <$> seq 0 n) i = excessPenalty maxima loads rates i.
Proof.
  intros Hi. unfold at_. by rewrite list_lookup_fmap, lookup_seq_lt.
Qed.

(** X7. The overload penalty MEP is zero when every finger and every row
    either has no positive limit (the limit is switched off) or carries no
    more than its limit. *)
Theorem calculateMEP_within_limits analysis config :
  (forall finger, (finger < 8)%nat ->
     at_ (MaxFingerEfforts config) finger <= 0
     \/ at_ (EffortByFinger analysis) finger <= at_ (MaxFingerEfforts config) finger) ->
  (forall row, (row < 3)%nat ->
     at_ (MaxRowEfforts config) row <= 0
     \/ at_ (EffortByRow analysis) row <= at_ (MaxRowEfforts config) row) ->
  calculateMEP analysis config == 0.
Proof.
  intros Hfingers Hrows. unfold calculateMEP. rewrite !penalties_sum.
  assert (Hzero : forall maxima loads rates n,
            (forall i, (i < n)%nat -> at_ maxima i <= 0 \/ at_ loads i <= at_ maxima i) ->
            Qsum (excessPenalty maxima loads rates <$> seq 0 n) == 0).
  { intros maxima loads rates n Hin.
    assert (Hall : forall k s, (s + k <= n)%nat ->
              Qsum (excessPenalty maxima loads rates <$> seq s k) == 0).
    { induction k as [|k IH]; intros s Hle; [reflexivity|].
      cbn [seq fmap list_fmap]. change (Qsum (?x :: ?l)) with (x + Qsum l).
      rewrite IH by lia. rewrite excessPenalty_within by (apply Hin; lia). ring. }
    by apply Hall. }
  rewrite (Hzero _ _ _ 8%nat Hfingers), (Hzero _ _ _ 3%nat Hrows). ring.
Qed.

Lemma calculateMEP_within_limits_witness :
  calculateMEP (AnalyzeLayout (mkLayout ["q"; "w"; "e"] [] []) limitConfig corpusQ)
    limitConfig == 0.
Proof.
  apply calculateMEP_within_limits.
  - intros finger Hf.
    do 8 (destruct finger as [|finger];
          [first [left; vm_compute; discriminate | right; vm_compute; discriminate]|]).
    lia.
  - intros row Hr.
    do 3 (destruct row as [|row];
          [first [left; vm_compute; discriminate | right; vm_compute; discriminate]|]).
    lia.
Defined.

Lemma excessPenalty_over maxima loads rates i :
  0 < at_ maxima i -> at_ maxima i < at_ loads i ->
  excessPenalty maxima loads rates i = (at_ loads i - at_ maxima i) * at_ rates i.
Proof.
  intros Hmax Hover. unfold excessPenalty.
  assert (Qltb 0 (at_ maxima i) = true) as -> by by apply Qltb_lt.
  assert (Qltb 0 (at_ loads i - at_ maxima i) = true) as -> by (apply Qltb_lt; lra).
  reflexivity.
Qed.

(** X8. When no penalty rate is negative, the overload penalty MEP is not
    negative, and it is at least the excess of any one finger or row over
    its positive limit, times the rate of that finger or row. *)
Theorem calculateMEP_lower_bound analysis config :
  (forall finger, (finger < 8)%nat -> 0 <= at_ (FingerEffortPenalties config) finger) ->
  (forall row, (row < 3)%nat -> 0 <= at_ (RowEffortPenalties config) row) ->
  0 <= calculateMEP analysis config
  /\ (forall finger, (finger < 8)%nat ->
        0 < at_ (MaxFingerEfforts config) finger ->
        at_ (MaxFingerEfforts config) finger < at_ (EffortByFinger analysis) finger ->
        (at_ (EffortByFinger analysis) finger - at_ (MaxFingerEfforts config) finger)
        * at_ (FingerEffortPenalties config) finger <= calculateMEP analysis config)
  /\ (forall row, (row < 3)%nat ->
        0 < at_ (MaxRowEfforts config) row ->
        at_ (MaxRowEfforts config) row < at_ (EffortByRow analysis) row ->
        (at_ (EffortByRow analysis) row - at_ (MaxRowEfforts config) row)
        * at_ (RowEffortPenalties config) row <= calculateMEP analysis config).
Proof.
  intros Hfingers Hrows.
  pose proof (excessPenalties_nonneg (MaxFingerEfforts config) (EffortByFinger analysis)
                _ 8 Hfingers) as HF.
  pose proof (excessPenalties_nonneg (MaxRowEfforts config) (EffortByRow analysis)
                _ 3 Hrows) as HR.
  assert (Hmep : calculateMEP analysis config
                 == Qsum (excessPenalty (MaxFingerEfforts config) (EffortByFinger analysis)
                            (FingerEffortPenalties config) <$> seq 0 8)
                    + Qsum (excessPenalty (MaxRowEfforts config) (EffortByRow analysis)
                              (RowEffortPenalties config) <$> seq 0 3)).
  { unfold calculateMEP. rewrite !penalties_sum. ring. }
  rewrite Hmep.
  pose proof (at_bounds _ 0%nat HF) as [_ HF0]. pose proof (at_bounds _ 0%nat HR) as [_ HR0].
  assert (HFnn : 0 <= Qsum (excessPenalty (MaxFingerEfforts config) (EffortByFinger analysis)
                              (FingerEffortPenalties config) <$> seq 0 8)).
  { pose proof (at_bounds _ 0%nat HF) as [? ?]. lra. }
  assert (HRnn : 0 <= Qsum (excessPenalty (MaxRowEfforts config) (EffortByRow analysis)
                              (RowEffortPenalties config) <$> seq 0 3)).
  { pose proof (at_bounds _ 0%nat HR) as [? ?]. lra. }
  split; [lra|]. split.
  - intros finger Hlt Hmax Hover.
    pose proof (at_bounds _ finger HF) as [_ Hle].
    rewrite excessPenalties_at, excessPenalty_over in Hle by assumption. lra.
  - intros row Hlt Hmax Hover.
    pose proof (at_bounds _ row HR) as [_ Hle].
    rewrite excessPenalties_at, excessPenalty_over in Hle by assumption. lra.
Qed.

Lemma calculateMEP_lower_bound_witness :
  let a := AnalyzeLayout seedA limitConfig corpusQ in
  0 <= calculateMEP a limitConfig
  /\ (at_ (EffortByRow a) 1 - at_ (MaxRowEfforts limitConfig) 1)
     * at_ (RowEffortPenalties limitConfig) 1 <= calculateMEP a limitConfig.
Proof.
  assert (Hf : forall finger, (finger < 8)%nat ->
                 0 <= at_ (FingerEffortPenalties limitConfig) finger).
  { intros finger Hlt.
    do 8 (destruct finger as [|finger]; [vm_compute; discriminate|]). lia. }
  assert (Hr : forall row, (row < 3)%nat -> 0 <= at_ (RowEffortPenalties limitConfig) row).
  { intros row Hlt. do 3 (destruct row as [|row]; [vm_compute; discriminate|]). lia. }
  destruct (calculateMEP_lower_bound (AnalyzeLayout seedA limitConfig corpusQ)
              limitConfig Hf Hr) as (Hnn & _ & Hrow).
  split; [exact Hnn|].
  apply (Hrow 1%nat); [lia | reflexivity | reflexivity].
Defined.

(** ** Ranges and inclusions of the bigram classes *)

Section Counter_order.

(** Two quantities read off the counters, the first of which never grows
    faster than the second when a bigram is classified. *)
Variables lo hi : BigramCounters -> Q.
Hypothesis classify_order : forall config char1 char2 row1 col1 row2 col2 freq c,
  0 <= freq -> (col1 < 10)%nat -> (col2 < 10)%nat ->
  lo (classify config char1 char2 (row1, col1) (row2, col2) freq c) - lo c
  <= hi (classify config char1 char2 (row1, col1) (row2, col2) freq c) - hi c.

Lemma foldl_bigramStep_order config keyPos bigrams c :
  (forall k row col, keyPos !! k = Some (row, col) -> (row < 3)%nat /\ (col < 10)%nat) ->
  Forall (fun e : gostring * Q => 0 <= e.2) bigrams ->
  lo c <= hi c ->
  lo (foldl (bigramStep config keyPos) c bigrams)
  <= hi (foldl (bigramStep config keyPos) c bigrams).
Proof.
  intros Hrange Hfreq. revert c.
  induction Hfreq as [|[bigram freq] bigrams Hf Hfreq IH]; intros c Hc; [exact Hc|].
  cbn [foldl]. apply IH. cbn [snd] in Hf. unfold bigramStep.
  destruct bigram as [|r1 [|r2 [|r3 bigram]]]; try exact Hc.
  destruct (keyPos !! [r1]) as [[row1 col1]|] eqn:H1; [|exact Hc].
  destruct (keyPos !! [r2]) as [[row2 col2]|] eqn:H2; [|exact Hc].
  apply Hrange in H1 as [_ H1]. apply Hrange in H2 as [_ H2].
  pose proof (classify_order config [r1] [r2] row1 col1 row2 col2 freq c Hf H1 H2). lra.
Qed.

End Counter_order.

Ltac open_classify :=
  intros;
  cbv beta iota zeta delta
    [classify shb sfb hvb fvb hdb fdb hfb hsb fsb lsb srb afi afo hsb2 fsb2 lsb2 skb
     totalBigramFreq tib fst snd addIf strictSplit afSplit].

Ltac split_ifs :=
  repeat match goal with
         | |- context [if ?b then _ else _] => destruct b
         end;
  cbv beta iota delta [fst snd].

(** Every class counter grows by nothing or by the frequency of the bigram. *)
Lemma classify_counter_steps config char1 char2 row1 col1 row2 col2 freq c :
  0 <= freq ->
  let c' := classify config char1 char2 (row1, col1) (row2, col2) freq c in
  Forall (fun field : BigramCounters -> Q => 0 <= field c' - field c <= freq)
    [shb; sfb; hvb; fvb; hdb; fdb; hfb; hsb; fsb; lsb; srb; afi; afo;
     hsb2; fsb2; lsb2; skb].
Proof.
  intros Hf c'. subst c'.
  repeat (apply Forall_cons; split; [open_classify; split_ifs; lra|]).
  constructor.
Qed.

Lemma counters_in_total config keyPos bigrams :
  (forall k row col, keyPos !! k = Some (row, col) -> (row < 3)%nat /\ (col < 10)%nat) ->
  Forall (fun e : gostring * Q => 0 <= e.2) bigrams ->
  forall tib0,
  let c := bigramLoop config keyPos bigrams tib0 in
  Forall (fun field : BigramCounters -> Q => 0 <= field c <= totalBigramFreq c)
    [shb; sfb; hvb; fvb; hdb; fdb; hfb; hsb; fsb; lsb; srb; afi; afo;
     hsb2; fsb2; lsb2; skb].
Proof.
  intros Hrange Hfreq tib0 c. subst c. unfold bigramLoop.
  apply Forall_forall. intros field Hin. split.
  - apply (foldl_bigramStep_order (fun _ => 0) field); try assumption.
    + intros config' char1 char2 row1 col1 row2 col2 freq c Hf _ _.
      pose proof (classify_counter_steps config' char1 char2 row1 col1 row2 col2 freq c Hf)
        as Hsteps.
      cbv zeta in Hsteps. rewrite Forall_forall in Hsteps.
      destruct (Hsteps field Hin). lra.
    + repeat (apply elem_of_cons in Hin as [->|Hin]; [cbn; lra|]). by apply elem_of_nil in Hin.
  - apply (foldl_bigramStep_order field totalBigramFreq); try assumption.
    + intros config' char1 char2 row1 col1 row2 col2 freq c Hf _ _.
      pose proof (classify_counter_steps config' char1 char2 row1 col1 row2 col2 freq c Hf)
        as Hsteps.
      cbv zeta in Hsteps. rewrite Forall_forall in Hsteps.
      destruct (Hsteps field Hin). rewrite classify_total. lra.
    + repeat (apply elem_of_cons in Hin as [->|Hin]; [cbn; lra|]). by apply elem_of_nil in Hin.
Qed.

Lemma pct_in_range x t : 0 <= x <= t -> 0 < t -> 0 <= pct x t <= 100.
Proof. intros Hx Ht. unfold pct. by apply (percentage_in_range x t t). Qed.

Lemma bigrams_nonneg langData :
  (forall bigram freq, Bigrams langData !! bigram = Some freq -> 0 <= freq) ->
  Forall (fun e : gostring * Q => 0 <= e.2) (map_to_list (Bigrams langData)).
Proof.
  intros Hfreq. apply Forall_forall. intros [bigram freq] Hin%elem_of_map_to_list.
  by eapply Hfreq.
Qed.

(** X9. When no bigram of the corpus has a negative frequency, each of the
    seventeen bigram-class percentages of the analysis (all but the TIB term)
    lies between 0 and 100. *)
Theorem bigram_percentages_bounded layout config langData :
  (forall bigram freq, Bigrams langData !! bigram = Some freq -> 0 <= freq) ->
  let b := Bigram (AnalyzeLayout layout config langData) in
  Forall (fun class : BigramAnalysis -> Q => 0 <= class b <= 100)
    [SHB; SFB; HVB; FVB; HDB; FDB; HFB; HSB; FSB; LSB; SRB; AFI; AFO;
     HSB2; FSB2; LSB2; SKB].
Proof.
  intros Hfreq%bigrams_nonneg b. subst b.
  rewrite AnalyzeLayout_Bigram. unfold calculateBigrams.
  rewrite !calculateEffort_Bigram. cbn [newAnalysis Bigram].
  pose proof (counters_in_total config (buildKeyPos layout) _ (buildKeyPos_range layout)
                Hfreq (TIB zeroBigramAnalysis)) as Hc.
  cbv zeta in Hc. revert Hc.
  generalize (bigramLoop config (buildKeyPos layout) (map_to_list (Bigrams langData))
                (TIB zeroBigramAnalysis)) as c.
  intros c Hc. destruct (Qltb 0 (totalBigramFreq c)) eqn:Hpos.
  - apply Qltb_lt in Hpos. cbn [set_Bigram Bigram].
    repeat (apply Forall_cons in Hc as [? Hc]).
    repeat (apply Forall_cons; split; [by apply pct_in_range|]).
    constructor.
  - cbn [set_Bigram Bigram].
    repeat (apply Forall_cons; split; [cbn; lra|]).
    constructor.
Qed.

Lemma bigram_percentages_bounded_witness :
  let b := Bigram (AnalyzeLayout seedA (plainConfig [])
                     (corpus [] [("qw", 1 # 2); ("ws", 1 # 4); ("ez", 1 # 4)])) in
  Forall (fun class : BigramAnalysis -> Q => 0 <= class b <= 100)
    [SHB; SFB; HVB; FVB; HDB; FDB; HFB; HSB; FSB; LSB; SRB; AFI; AFO;
     HSB2; FSB2; LSB2; SKB].
Proof.
  apply (bigram_percentages_bounded seedA (plainConfig [])
           (corpus [] [("qw", 1 # 2); ("ws", 1 # 4); ("ez", 1 # 4)])).
  apply nonneg_by_list. vm_compute. reflexivity.
Defined.

Lemma sameFinger_sameHalf row1 col1 row2 col2 :
  (col1 < 10)%nat -> (col2 < 10)%nat ->
  (getFingerForKey row1 col1 =? getFingerForKey row2 col2)%nat = true ->
  (getHalf col1 =? getHalf col2)%nat = true.
Proof.
  intros H1 H2.
  do 10 (destruct col1 as [|col1];
         [do 10 (destruct col2 as [|col2]; [vm_compute; congruence|]); lia|]).
  lia.
Qed.

Lemma classify_sfb_in_shb config char1 char2 row1 col1 row2 col2 freq c :
  0 <= freq -> (col1 < 10)%nat -> (col2 < 10)%nat ->
  sfb (classify config char1 char2 (row1, col1) (row2, col2) freq c) - sfb c
  <= shb (classify config char1 char2 (row1, col1) (row2, col2) freq c) - shb c.
Proof.
  intros Hf H1 H2. open_classify.
  pose proof (sameFinger_sameHalf row1 col1 row2 col2 H1 H2) as Himp.
  destruct (getFingerForKey row1 col1 =? getFingerForKey row2 col2)%nat.
  - rewrite Himp by reflexivity. lra.
  - destruct (getHalf col1 =? getHalf col2)%nat; lra.
Qed.

Lemma rowDiff_same row : rowDiff row row = 0%Z.
Proof. unfold rowDiff, abs. rewrite Z.sub_diag. reflexivity. Qed.

Lemma colDiff_same col : colDiff col col = 0%Z.
Proof. unfold colDiff, abs. rewrite Z.sub_diag. reflexivity. Qed.

(** The five same-finger subclasses exclude each other. *)
Lemma classify_subclasses_in_sfb config char1 char2 row1 col1 row2 col2 freq c :
  0 <= freq -> (col1 < 10)%nat -> (col2 < 10)%nat ->
  let c' := classify config char1 char2 (row1, col1) (row2, col2) freq c in
  (hvb c' + fvb c' + hdb c' + fdb c' + hfb c') - (hvb c + fvb c + hdb c + fdb c + hfb c)
  <= sfb c' - sfb c.
Proof.
  intros Hf _ _ c'. subst c'. open_classify.
  destruct (getHalf col1 =? getHalf col2)%nat,
           (getFingerForKey row1 col1 =? getFingerForKey row2 col2)%nat;
    cbn [andb]; try lra.
  destruct (Nat.eqb_spec col1 col2) as [Hcol|Hcol],
           (Z.eqb_spec (rowDiff row1 row2) 1) as [Hr1|Hr1],
           (Z.eqb_spec (rowDiff row1 row2) 2) as [Hr2|Hr2],
           (Z.eqb_spec (colDiff col1 col2) 1) as [Hc1|Hc1],
           (Nat.eqb_spec row1 row2) as [Hrow|Hrow];
    cbn [andb];
    try (exfalso; subst; rewrite ?rowDiff_same, ?colDiff_same in *; congruence);
    destruct (notCenter col1); lra.
Qed.

(** X10. When no bigram of the corpus has a negative frequency, each of the
    five same-finger subclasses HVB, FVB, HDB, FDB and HFB is part of the
    same-finger class, which is part of the same-hand class: each of the
    five is at most SFB, and SFB <= SHB.  The five exclude each other, so
    that in exact arithmetic their sum too is at most SFB; the sum that
    [float64] computes is at most SFB up to rounding only (within 1e-6). *)
Theorem same_finger_inclusions layout config langData :
  (forall bigram freq, Bigrams langData !! bigram = Some freq -> 0 <= freq) ->
  let b := Bigram (AnalyzeLayout layout config langData) in
  Forall (fun class : BigramAnalysis -> Q => class b <= SFB b) [HVB; FVB; HDB; FDB; HFB]
  /\ SFB b <= SHB b
  /\ HVB b + FVB b + HDB b + FDB b + HFB b <= SFB b.
Proof.
  intros Hfreq%bigrams_nonneg b. subst b.
  rewrite AnalyzeLayout_Bigram. unfold calculateBigrams.
  rewrite !calculateEffort_Bigram. cbn [newAnalysis Bigram].
  pose proof (foldl_bigramStep_order
                (fun c => hvb c + fvb c + hdb c + fdb c + hfb c) sfb
                classify_subclasses_in_sfb config (buildKeyPos layout) _
                (zeroCounters (TIB zeroBigramAnalysis))
                (buildKeyPos_range layout) Hfreq ltac:(cbn; lra)) as Hsub.
  pose proof (foldl_bigramStep_order sfb shb classify_sfb_in_shb
                config (buildKeyPos layout) _ (zeroCounters (TIB zeroBigramAnalysis))
                (buildKeyPos_range layout) Hfreq ltac:(cbn; lra)) as Hsfb.
  pose proof (counters_in_total config (buildKeyPos layout) _ (buildKeyPos_range layout)
                Hfreq (TIB zeroBigramAnalysis)) as Hc.
  cbv zeta in Hc.
  fold (bigramLoop config (buildKeyPos layout) (map_to_list (Bigrams langData))
          (TIB zeroBigramAnalysis)) in Hsub, Hsfb.
  revert Hsub Hsfb Hc.
  generalize (bigramLoop config (buildKeyPos layout) (map_to_list (Bigrams langData))
                (TIB zeroBigramAnalysis)) as c.
  intros c Hsub Hsfb Hc. cbv beta in Hsub.
  apply Forall_cons in Hc as [_ Hc]. apply Forall_cons in Hc as [_ Hc].
  apply Forall_cons in Hc as [[Hhvb _] Hc]. apply Forall_cons in Hc as [[Hfvb _] Hc].
  apply Forall_cons in Hc as [[Hhdb _] Hc]. apply Forall_cons in Hc as [[Hfdb _] Hc].
  apply Forall_cons in Hc as [[Hhfb _] _].
  destruct (Qltb 0 (totalBigramFreq c)) eqn:Hpos.
  - apply Qltb_lt in Hpos.
    cbn [set_Bigram Bigram SHB SFB HVB FVB HDB FDB HFB]. unfold pct.
    assert (Hscale : forall x y, x <= y ->
              x / totalBigramFreq c * 100 <= y / totalBigramFreq c * 100).
    { intros x y Hxy. apply Qmult_le_compat_r; [|lra].
      unfold Qdiv. apply Qmult_le_compat_r; [exact Hxy|].
      apply Qlt_le_weak, Qinv_lt_0_compat, Hpos. }
    split; [|split; [by apply Hscale|]].
    + repeat (apply Forall_cons; split; [apply Hscale; lra|]). constructor.
    + apply Hscale in Hsub. eapply Qle_trans; [|exact Hsub].
      apply Qle_lteq. right. field. lra.
  - cbn [set_Bigram set_TIB Bigram SHB SFB HVB FVB HDB FDB HFB zeroBigramAnalysis].
    split; [|split; lra].
    repeat (apply Forall_cons; split; [cbn; lra|]). constructor.
Qed.

Lemma same_finger_inclusions_witness :
  let b := Bigram (AnalyzeLayout (mkLayout ["q"; "w"; "e"; "r"; "t"] ["a"; "s"; "d"; "f"; "g"] [])
                     (plainConfig [])
                     (corpus [] [("rt", 1 # 2); ("rf", 1 # 4); ("qa", 1 # 8); ("qw", 1 # 8)])) in
  Forall (fun class : BigramAnalysis -> Q => class b <= SFB b) [HVB; FVB; HDB; FDB; HFB]
  /\ SFB b <= SHB b
  /\ HVB b + FVB b + HDB b + FDB b + HFB b <= SFB b.
Proof.
  apply (same_finger_inclusions
           (mkLayout ["q"; "w"; "e"; "r"; "t"] ["a"; "s"; "d"; "f"; "g"] [])
           (plainConfig [])
           (corpus [] [("rt", 1 # 2); ("rf", 1 # 4); ("qa", 1 # 8); ("qw", 1 # 8)])).
  apply nonneg_by_list. vm_compute. reflexivity.
Defined.

(** ** The layout store *)

Lemma FindAndReplaceLayout_cases parsedLayouts newLayout :
  (Forall (fun l => Name l <> Name newLayout) (Layouts parsedLayouts)
   /\ FindAndReplaceLayout parsedLayouts newLayout = (false, parsedLayouts))
  \/ exists i old,
       Layouts parsedLayouts !! i = Some old
       /\ Name old = Name newLayout
       /\ (forall j l, Layouts parsedLayouts !! j = Some l -> (j < i)%nat ->
                       Name l <> Name newLayout)
       /\ FindAndReplaceLayout parsedLayouts newLayout
          = (true, set_Layouts (<[i := replaceKeepingComments old newLayout]>
                                  (Layouts parsedLayouts)) parsedLayouts).
Proof.
  unfold FindAndReplaceLayout.
  destruct (list_find _ _) as [[i old]|] eqn:Hfind.
  - right. apply list_find_Some in Hfind as (Hi & Hname & Hfirst).
    exists i, old. by split_and!.
  - left. apply list_find_None in Hfind. by split.
Qed.

Lemma replaceKeepingComments_Equals old newLayout :
  Equals (replaceKeepingComments old newLayout) newLayout = true.
Proof. apply Equals_true. by split. Qed.

Lemma set_Layouts_same parsedLayouts :
  set_Layouts (Layouts parsedLayouts) parsedLayouts = parsedLayouts.
Proof. by destruct parsedLayouts. Qed.

(** X11. [FindAndReplaceLayout] reports success exactly when a stored layout
    has the name of the new layout, and on failure it leaves the store as it
    was. *)
Theorem FindAndReplaceLayout_flag parsedLayouts newLayout :
  let r := FindAndReplaceLayout parsedLayouts newLayout in
  (r.1 = true <-> exists l, l ∈ Layouts parsedLayouts /\ Name l = Name newLayout)
  /\ (r.1 = false -> r.2 = parsedLayouts).
Proof.
  intros r. subst r.
  destruct (FindAndReplaceLayout_cases parsedLayouts newLayout)
    as [[Hnone ->] | (i & old & Hi & Hname & _ & ->)]; cbn [fst snd].
  - split; [|done]. split; [discriminate|].
    intros (l & Hin & Hl). rewrite Forall_forall in Hnone. by destruct (Hnone l Hin).
  - split; [|discriminate]. split; [|done].
    intros _. exists old. split; [by eapply list_elem_of_lookup_2 | exact Hname].
Qed.

(** X12. Whatever [FindAndReplaceLayout] does to the store, the names of the
    stored layouts, their order and number, the comments before and after each
    layout and the header comments of the file stay as they were. *)
Theorem FindAndReplaceLayout_keeps parsedLayouts newLayout :
  let p := (FindAndReplaceLayout parsedLayouts newLayout).2 in
  Name <$> Layouts p = Name <$> Layouts parsedLayouts
  /\ PreComments <$> Layouts p = PreComments <$> Layouts parsedLayouts
  /\ PostComments <$> Layouts p = PostComments <$> Layouts parsedLayouts
  /\ FileHeaderComments p = FileHeaderComments parsedLayouts.
Proof.
  intros p. subst p.
  destruct (FindAndReplaceLayout_cases parsedLayouts newLayout)
    as [[_ ->] | (i & old & Hi & Hname & _ & ->)]; cbn [fst snd]; [done|].
  cbn [set_Layouts Layouts FileHeaderComments].
  rewrite !list_fmap_insert. cbn [replaceKeepingComments Name PreComments PostComments].
  rewrite <- Hname.
  split_and!; try reflexivity; apply list_insert_id; by rewrite list_lookup_fmap, Hi.
Qed.

(** X13. After a successful [FindAndReplaceLayout], looking the name up
    again finds a layout that [Equals] the new one, and every other entry of
    the store is the one that was there. *)
Theorem FindAndReplaceLayout_stores parsedLayouts newLayout :
  (FindAndReplaceLayout parsedLayouts newLayout).1 = true ->
  let p := (FindAndReplaceLayout parsedLayouts newLayout).2 in
  exists i l,
    list_find (fun l => Name l = Name newLayout) (Layouts p) = Some (i, l)
    /\ Equals l newLayout = true
    /\ forall j, j <> i -> Layouts p !! j = Layouts parsedLayouts !! j.
Proof.
  destruct (FindAndReplaceLayout_cases parsedLayouts newLayout)
    as [[_ ->] | (i & old & Hi & Hname & Hfirst & ->)]; cbn [fst snd]; [discriminate|].
  intros _. cbn [set_Layouts Layouts].
  exists i, (replaceKeepingComments old newLayout). split_and!.
  - apply list_find_Some. split_and!.
    + apply list_lookup_insert_eq. by eapply lookup_lt_Some.
    + reflexivity.
    + intros j l Hj Hlt. rewrite list_lookup_insert_ne in Hj by lia. by eapply Hfirst.
  - apply replaceKeepingComments_Equals.
  - intros j Hne. by apply list_lookup_insert_ne.
Qed.

Lemma FindAndReplaceLayout_stores_witness :
  let store := {| Layouts := [mkLayout ["q"] [] []; mkLayout ["w"] [] []];
                  FileHeaderComments := [] |} in
  let p := (FindAndReplaceLayout store (mkLayout ["z"] ["x"] [])).2 in
  exists i l,
    list_find (fun l => Name l = Name (mkLayout ["z"] ["x"] [])) (Layouts p) = Some (i, l)
    /\ Equals l (mkLayout ["z"] ["x"] []) = true
    /\ forall j, j <> i -> Layouts p !! j = Layouts store !! j.
Proof.
  apply (FindAndReplaceLayout_stores
           {| Layouts := [mkLayout ["q"] [] []; mkLayout ["w"] [] []];
              FileHeaderComments := [] |} (mkLayout ["z"] ["x"] [])).
  reflexivity.
Defined.

(** X14. Replacing a layout a second time with the same new layout changes
    nothing more: the second call returns the flag and leaves the store of
    the first. *)
Theorem FindAndReplaceLayout_idempotent parsedLayouts newLayout :
  let r := FindAndReplaceLayout parsedLayouts newLayout in
  FindAndReplaceLayout r.2 newLayout = r.
Proof.
  intros r. subst r.
  destruct (FindAndReplaceLayout_cases parsedLayouts newLayout)
    as [[_ Hr] | (i & old & Hi & Hname & Hfirst & Hr)].
  - rewrite Hr. cbn [snd]. exact Hr.
  - rewrite Hr. cbn [snd]. unfold FindAndReplaceLayout at 1. cbn [set_Layouts Layouts].
    assert (Hfind : list_find (fun l => Name l = Name newLayout)
                      (<[i := replaceKeepingComments old newLayout]> (Layouts parsedLayouts))
                    = Some (i, replaceKeepingComments old newLayout)).
    { apply list_find_Some. split_and!.
      - apply list_lookup_insert_eq. by eapply lookup_lt_Some.
      - reflexivity.
      - intros j l Hj Hlt. rewrite list_lookup_insert_ne in Hj by lia. by eapply Hfirst. }
    rewrite Hfind. by rewrite list_insert_insert_eq.
Qed.

(** X15. [FindAndReplaceLayoutByIndex] succeeds exactly when the index is
    within the store, and fails without touching the store otherwise.  It
    keeps the number of layouts and their comments; on success the entry at
    the index [Equals] the new layout, and all other entries are the ones that
    were there. *)
Theorem FindAndReplaceLayoutByIndex_spec parsedLayouts index newLayout :
  let r := FindAndReplaceLayoutByIndex parsedLayouts index newLayout in
  (r.1 = true <-> (0 <= index < Z.of_nat (length (Layouts parsedLayouts)))%Z)
  /\ (r.1 = false -> r.2 = parsedLayouts)
  /\ length (Layouts r.2) = length (Layouts parsedLayouts)
  /\ PreComments <$> Layouts r.2 = PreComments <$> Layouts parsedLayouts
  /\ PostComments <$> Layouts r.2 = PostComments <$> Layouts parsedLayouts
  /\ (r.1 = true -> exists l, Layouts r.2 !! Z.to_nat index = Some l
                              /\ Equals l newLayout = true)
  /\ (forall j, j <> Z.to_nat index -> Layouts r.2 !! j = Layouts parsedLayouts !! j).
Proof.
  intros r. subst r. unfold FindAndReplaceLayoutByIndex.
  destruct ((index <? 0)%Z || (Z.of_nat (length (Layouts parsedLayouts)) <=? index)%Z)
    eqn:Hout.
  - cbn [fst snd]. apply orb_true_iff in Hout.
    split_and!; try done. split; [discriminate|]. lia.
  - apply orb_false_iff in Hout as [Hlo Hhi].
    destruct (lookup_lt_is_Some_2 (Layouts parsedLayouts) (Z.to_nat index) ltac:(lia))
      as [old Hold].
    rewrite Hold. cbn [fst snd set_Layouts Layouts].
    split_and!; try done.
    + split; [lia | done].
    + by rewrite length_insert.
    + rewrite list_fmap_insert. apply list_insert_id. by rewrite list_lookup_fmap, Hold.
    + rewrite list_fmap_insert. apply list_insert_id. by rewrite list_lookup_fmap, Hold.
    + intros _. exists (replaceKeepingComments old newLayout). split.
      * apply list_lookup_insert_eq. by eapply lookup_lt_Some.
      * apply replaceKeepingComments_Equals.
    + intros j Hne. by apply list_lookup_insert_ne.
Qed.

(** ** Swapping two keys *)

Lemma key_setKey_eq l r c v :
  is_Some (cell (Keys l) r c) -> key (setKey l r c v) r c = v.
Proof.
  intros [x Hx]. rewrite key_is_cell. unfold setKey. cbn [set_Keys Keys].
  by rewrite cell_setGrid_eq, Hx.
Qed.

Lemma cell_setKey_is_Some l r c v row col :
  is_Some (cell (Keys (setKey l r c v)) row col) <-> is_Some (cell (Keys l) row col).
Proof. unfold setKey. cbn [set_Keys Keys]. apply cell_setGrid_is_Some. Qed.

Lemma nonEmpty_cell l row col :
  nonEmpty (key l row col) = true -> is_Some (cell (Keys l) row col).
Proof.
  rewrite key_is_cell. destruct (cell (Keys l) row col); [by eexists|].
  simpl. discriminate.
Qed.

(** After the exchange each of the two cells holds what the other held. *)
Lemma key_swapKeys l pos1 pos2 pos :
  is_Some (cell (Keys l) pos1.1 pos1.2) -> is_Some (cell (Keys l) pos2.1 pos2.2) ->
  key (swapKeys l pos1 pos2) pos.1 pos.2
  = key l (exchange pos1 pos2 pos).1 (exchange pos1 pos2 pos).2.
Proof.
  intros H1 H2. unfold swapKeys, exchange.
  destruct pos1 as [r1 c1], pos2 as [r2 c2], pos as [row col]. cbn [fst snd] in *.
  destruct (decide ((row, col) = (r2, c2))) as [[= -> ->]|Hne2].
  - rewrite key_setKey_eq; [reflexivity | by apply cell_setKey_is_Some].
  - rewrite key_setKey_ne by done.
    destruct (decide ((row, col) = (r1, c1))) as [[= -> ->]|Hne1].
    + by rewrite key_setKey_eq.
    + by rewrite key_setKey_ne.
Qed.

Lemma exchange_involutive pos1 pos2 pos :
  exchange pos1 pos2 (exchange pos1 pos2 pos) = pos.
Proof. unfold exchange. repeat case_decide; congruence. Qed.

Lemma NoDup_positions : NoDup positions.
Proof. apply (bool_decide_unpack _). by vm_compute. Qed.

Lemma exchange_positions pos1 pos2 :
  pos1 ∈ positions -> pos2 ∈ positions ->
  exchange pos1 pos2 <$> positions ≡ₚ positions.
Proof.
  intros H1 H2.
  assert (Hin : forall pos, pos ∈ positions -> exchange pos1 pos2 pos ∈ positions).
  { intros pos Hpos. unfold exchange. by repeat case_decide. }
  apply NoDup_Permutation.
  - apply NoDup_fmap_2_strong; [|apply NoDup_positions].
    intros x y _ _ Hxy. apply (f_equal (exchange pos1 pos2)) in Hxy.
    by rewrite !exchange_involutive in Hxy.
  - apply NoDup_positions.
  - intros pos. rewrite list_elem_of_fmap. split.
    + intros (pos' & -> & Hpos'). by apply Hin.
    + intros Hpos. exists (exchange pos1 pos2 pos).
      split; [by rewrite exchange_involutive | by apply Hin].
Qed.

Lemma keysOf_swapKeys l pos1 pos2 :
  pos1 ∈ positions -> pos2 ∈ positions ->
  is_Some (cell (Keys l) pos1.1 pos1.2) -> is_Some (cell (Keys l) pos2.1 pos2.2) ->
  keysOf (swapKeys l pos1 pos2) ≡ₚ keysOf l.
Proof.
  intros Hp1 Hp2 H1 H2. unfold keysOf.
  assert (Heq : (fun pos : nat * nat => key (swapKeys l pos1 pos2) pos.1 pos.2) <$> positions
                = (fun pos : nat * nat => key l pos.1 pos.2)
                    <$> (exchange pos1 pos2 <$> positions)).
  { rewrite <- list_fmap_compose. apply list_fmap_ext.
    intros i pos _. by apply key_swapKeys. }
  rewrite Heq. by rewrite exchange_positions.
Qed.

Lemma redraw_ne guarded n idx1 idx2 tape i tape' :
  guarded = false \/ (1 < n)%nat ->
  redraw guarded n idx1 idx2 tape = Some (i, tape') -> i <> idx1.
Proof.
  intros Hloop. revert idx2. induction tape as [|r tape IH]; intros idx2; cbn [redraw].
  - destruct (Nat.eqb_spec idx2 idx1) as [->|Hne]; cbn [andb].
    + destruct Hloop as [->| ?%Nat.ltb_lt]; [discriminate|].
      destruct guarded; cbn [negb orb]; [|discriminate]. rewrite H. discriminate.
    + by intros [= <- _].
  - destruct (Nat.eqb_spec idx2 idx1) as [->|Hne]; cbn [andb].
    + destruct Hloop as [->| Hn%Nat.ltb_lt]; cbn [negb orb]; [apply IH|].
      destruct guarded; cbn [negb orb]; [rewrite Hn|]; apply IH.
    + by intros [= <- _].
Qed.

(** The shared tail of the neighbor generators exchanges the keys of two
    different candidates. *)
Lemma swapRandomPair_swaps guarded layout candidates tape layout' tape' :
  (2 <= length candidates)%nat ->
  swapRandomPair guarded layout candidates tape = Some (layout', tape') ->
  exists idx1 idx2 pos1 pos2,
    idx1 <> idx2 /\ candidates !! idx1 = Some pos1 /\ candidates !! idx2 = Some pos2
    /\ layout' = swapKeys layout pos1 pos2.
Proof.
  intros Hlen. unfold swapRandomPair.
  destruct (Nat.ltb_spec (length candidates) 2) as [?|_]; [lia|].
  intros (idx1 & t1 & Hi1 & Hrun)%bind_Some.
  apply bind_Some in Hrun as (idx2 & t2 & Hi2 & Hrun).
  apply bind_Some in Hrun as (idx2' & t3 & Hi3 & Hrun).
  apply ret_Some in Hrun as [<- _].
  apply Intn_lt in Hi1; [|lia]. apply Intn_lt in Hi2; [|lia].
  assert (Hne : idx2' <> idx1).
  { eapply redraw_ne; [|exact Hi3]. right. lia. }
  apply redraw_lt in Hi3; [|lia|lia].
  destruct (lookup_lt_is_Some_2 candidates idx1 Hi1) as [pos1 Hp1].
  destruct (lookup_lt_is_Some_2 candidates idx2' Hi3) as [pos2 Hp2].
  exists idx1, idx2', pos1, pos2. rewrite Hp1, Hp2. by split_and!.
Qed.

Lemma NoDup_List_filter {A} (f : A -> bool) (l : list A) :
  NoDup l -> NoDup (List.filter f l).
Proof.
  induction 1 as [|x l Hx Hl IH]; cbn [List.filter]; [constructor|].
  destruct (f x); [|exact IH]. constructor; [|exact IH].
  rewrite list_elem_of_In, filter_In, <- list_elem_of_In. tauto.
Qed.

Lemma exchange_first pos1 pos2 : pos1 <> pos2 -> exchange pos1 pos2 pos1 = pos2.
Proof. intros Hne. unfold exchange. by repeat case_decide. Qed.

Lemma exchange_second pos1 pos2 : exchange pos1 pos2 pos2 = pos1.
Proof. unfold exchange. by case_decide. Qed.

Lemma exchange_other pos1 pos2 pos :
  pos <> pos1 -> pos <> pos2 -> exchange pos1 pos2 pos = pos.
Proof. intros H1 H2. unfold exchange. by repeat case_decide. Qed.

Section Seeded_neighbors.
Context `{GoLib}.

Lemma swapPositions_cells layout config baseLayout uppercasePositions pos :
  pos ∈ swapPositions layout config baseLayout uppercasePositions ->
  pos ∈ positions /\ is_Some (cell (Keys layout) pos.1 pos.2).
Proof.
  destruct pos as [row col]. intros Hin. split.
  - unfold swapPositions in Hin. rewrite list_elem_of_In, filter_In in Hin.
    apply list_elem_of_In. tauto.
  - apply swapPositions_eligible in Hin as [_ Hn]. by apply nonEmpty_cell.
Qed.

(** X16. When it has at least two candidates, the neighbor generator of the
    seeded search exchanges the keys of two different candidate positions and
    leaves every other key alone, so the neighbor holds the same characters as
    the layout it was made from. *)
Theorem neighbor_exchanges_two_keys layout config baseLayout uppercasePositions
    tape layout' tape' :
  let candidates := swapPositions layout config baseLayout uppercasePositions in
  (2 <= length candidates)%nat ->
  generateNeighborFromBaseLayoutWithUppercaseInfo layout config baseLayout
    uppercasePositions tape = Some (layout', tape') ->
  exists pos1 pos2,
    pos1 ∈ candidates /\ pos2 ∈ candidates /\ pos1 <> pos2
    /\ key layout' pos1.1 pos1.2 = key layout pos2.1 pos2.2
    /\ key layout' pos2.1 pos2.2 = key layout pos1.1 pos1.2
    /\ (forall pos, pos <> pos1 -> pos <> pos2 ->
                    key layout' pos.1 pos.2 = key layout pos.1 pos.2)
    /\ keysOf layout' ≡ₚ keysOf layout.
Proof.
  intros candidates Hlen Hgen. unfold generateNeighborFromBaseLayoutWithUppercaseInfo in Hgen.
  fold candidates in Hgen.
  apply swapRandomPair_swaps in Hgen as (idx1 & idx2 & pos1 & pos2 & Hne & H1 & H2 & ->);
    [|exact Hlen].
  assert (Hdiff : pos1 <> pos2).
  { intros <-. apply Hne.
    eapply NoDup_lookup; [|exact H1|exact H2].
    apply NoDup_List_filter, NoDup_positions. }
  apply list_elem_of_lookup_2 in H1, H2.
  destruct (swapPositions_cells _ _ _ _ _ H1) as [Hp1 Hc1].
  destruct (swapPositions_cells _ _ _ _ _ H2) as [Hp2 Hc2].
  exists pos1, pos2. split_and!; try done.
  - by rewrite key_swapKeys, exchange_first.
  - by rewrite key_swapKeys, exchange_second.
  - intros pos Hn1 Hn2. by rewrite key_swapKeys, exchange_other.
  - by apply keysOf_swapKeys.
Qed.

Lemma neighbor_keysOf layout config baseLayout uppercasePositions tape layout' tape' :
  generateNeighborFromBaseLayoutWithUppercaseInfo layout config baseLayout
    uppercasePositions tape = Some (layout', tape') ->
  keysOf layout' ≡ₚ keysOf layout.
Proof.
  intros Hgen. unfold generateNeighborFromBaseLayoutWithUppercaseInfo in Hgen.
  destruct (Nat.lt_ge_cases
              (length (swapPositions layout config baseLayout uppercasePositions)) 2)
    as [Hfew|Hlen].
  - rewrite swapRandomPair_few in Hgen by exact Hfew. by injection Hgen as <- _.
  - apply swapRandomPair_swaps in Hgen as (idx1 & idx2 & pos1 & pos2 & _ & H1 & H2 & ->);
      [|exact Hlen].
    apply list_elem_of_lookup_2 in H1, H2.
    destruct (swapPositions_cells _ _ _ _ _ H1) as [Hp1 Hc1].
    destruct (swapPositions_cells _ _ _ _ _ H2) as [Hp2 Hc2].
    by apply keysOf_swapKeys.
Qed.

End Seeded_neighbors.

Lemma neighbor_exchanges_two_keys_witness :
  match generateNeighborFromBaseLayoutWithUppercaseInfo seedA gradedConfig seedA
          (createLowercaseLayout seedA).2 tapeQ with
  | Some (layout', _) => keysOf layout' ≡ₚ keysOf seedA
  | None => False
  end.
Proof.
  destruct (generateNeighborFromBaseLayoutWithUppercaseInfo seedA gradedConfig seedA
              (createLowercaseLayout seedA).2 tapeQ) as [[layout' tape']|] eqn:Hgen.
  - assert (Hlen : (2 <= length (swapPositions seedA gradedConfig seedA
                                   (createLowercaseLayout seedA).2))%nat)
      by (vm_compute; lia).
    pose proof (neighbor_exchanges_two_keys seedA gradedConfig seedA
                  (createLowercaseLayout seedA).2 tapeQ layout' tape') as Hswap.
    cbv zeta in Hswap. specialize (Hswap Hlen Hgen).
    destruct Hswap as (pos1 & pos2 & _ & _ & _ & _ & _ & _ & Hk).
    exact Hk.
  - vm_compute in Hgen. discriminate Hgen.
Defined.

(** ** What the seeded search returns *)

Lemma Name_swapKeys l pos1 pos2 : Name (swapKeys l pos1 pos2) = Name l.
Proof. reflexivity. Qed.

Lemma swapRandomPair_Name guarded layout candidates tape layout' tape' :
  swapRandomPair guarded layout candidates tape = Some (layout', tape') ->
  Name layout' = Name layout.
Proof.
  intros Hrun.
  destruct (Nat.lt_ge_cases (length candidates) 2) as [Hfew|Hlen].
  - rewrite swapRandomPair_few in Hrun by exact Hfew. by injection Hrun as <- _.
  - by apply swapRandomPair_swaps in Hrun as (? & ? & ? & ? & _ & _ & _ & ->).
Qed.

Lemma keysOf_lowercase `{GoLib} seed :
  keysOf (createLowercaseLayout seed).1 = lowerKey <$> keysOf seed.
Proof.
  pose proof (createLowercaseLayout_spec seed) as Hspec.
  destruct (createLowercaseLayout seed) as [lower upper]. destruct Hspec as [_ Hspec].
  unfold keysOf. rewrite <- list_fmap_compose. apply list_fmap_ext.
  intros i [row col] Hin%list_elem_of_lookup_2. by apply Hspec.
Qed.

(** The pieces of a run of the seeded search. *)
Lemma search_run `{GoLib} config langData params numBest seed lower upper tape results tape' :
  createLowercaseLayout seed = (lower, upper) ->
  SearchOptimalLayoutFromSpecificLayout config langData params numBest seed tape
    = Some (results, tape') ->
  exists best produced,
    restartLoop config langData params numBest lower upper (Z.to_nat (Restarts params)) 0
      ([], []) tape = Some ((best, produced), tape')
    /\ results = truncateBest numBest best.
Proof.
  intros Hlower Hrun.
  unfold SearchOptimalLayoutFromSpecificLayout, searchFromSpecificLayout in Hrun.
  rewrite Hlower in Hrun.
  apply bind_Some in Hrun as ([results0 produced] & t & Hsearch & [[= <-] <-]%ret_Some).
  apply bind_Some in Hsearch as ([best produced0] & t0 & Hloop & Hret).
  apply ret_Some in Hret as [[= <- <-] <-]. by exists best, produced0.
Qed.

(** X17. Every result of the seeded search bears the name of the seed and
    holds the characters of the lowercased seed, each as often as the seed
    holds it: the search moves keys and neither loses nor invents one. *)
Theorem search_keeps_characters `{GoLib} config langData params numBest seed
    tape results tape' :
  SearchOptimalLayoutFromSpecificLayout config langData params numBest seed tape
    = Some (results, tape') ->
  Forall (fun r => Name (rLayout r) = Name seed
                   /\ keysOf (rLayout r) ≡ₚ lowerKey <$> keysOf seed) results.
Proof.
  intros Hrun. rewrite <- keysOf_lowercase.
  pose proof (createLowercaseLayout_spec seed) as Hspec.
  destruct (createLowercaseLayout seed) as [lower upper] eqn:Hlower.
  destruct Hspec as [Hname _]. cbn [fst]. rewrite <- Hname.
  destruct (search_run _ _ _ _ _ _ _ _ _ _ Hlower Hrun) as (best & produced & Hloop & ->).
  apply Forall_truncateBest.
  apply (restartLoop_keeps config langData params numBest lower upper
           (fun l => Name l = Name lower /\ keysOf l ≡ₚ keysOf lower)) in Hloop.
  - by destruct Hloop.
  - intros layout t1 layout' t1' [Hn Hk] Hgen. split.
    + rewrite <- Hn. eapply swapRandomPair_Name. exact Hgen.
    + rewrite <- Hk. eapply neighbor_keysOf. exact Hgen.
  - by split.
Qed.

Lemma search_keeps_characters_witness :
  match SearchOptimalLayoutFromSpecificLayout gradedConfig corpusQ (params 3 3) 2 seedA
          tapeQ with
  | Some (results, _) =>
      results <> []
      /\ Forall (fun r => keysOf (rLayout r) ≡ₚ lowerKey <$> keysOf seedA) results
  | None => False
  end.
Proof.
  destruct (SearchOptimalLayoutFromSpecificLayout gradedConfig corpusQ (params 3 3) 2
              seedA tapeQ) as [[results tape']|] eqn:Hrun.
  - split.
    + intros ->. vm_compute in Hrun. discriminate Hrun.
    + pose proof (search_keeps_characters gradedConfig corpusQ (params 3 3) 2 seedA
                    tapeQ results tape' Hrun) as Hall.
      eapply Forall_impl; [exact Hall|]. by intros r [_ Hk].
  - vm_compute in Hrun. discriminate Hrun.
Defined.

Section Scores.
Context `{GoLib}.
Variables (config : KeyboardConfig) (langData : LanguageData)
          (params : SimulatedAnnealingParams) (numBest : Z)
          (lower : Layout) (upper : list (list bool)).

(** An analysis and a score that belong to a layout. *)
Let consistent (layout : Layout) (analysis : LayoutAnalysis) (score : Q) : Prop :=
  analysis = AnalyzeLayout layout config langData /\ score = WeightedScore analysis.

Lemma annealStep_scores bound a tape a' tape' :
  consistent (currentLayout a) (currentAnalysis a) (currentScore a) ->
  consistent (bestLayoutRestart a) (bestAnalysisRestart a) (bestScoreRestart a) ->
  bestScoreRestart a <= bound ->
  annealStep config langData params lower upper a tape = Some (a', tape') ->
  consistent (currentLayout a') (currentAnalysis a') (currentScore a')
  /\ consistent (bestLayoutRestart a') (bestAnalysisRestart a') (bestScoreRestart a')
  /\ bestScoreRestart a' <= bound.
Proof.
  intros Hc Hb Hle. unfold annealStep.
  intros (neighbor & t1 & _ & Hrun)%bind_Some.
  apply bind_Some in Hrun as (ok & t2 & _ & Hrun).
  assert (Hn : consistent neighbor (AnalyzeLayout neighbor config langData)
                 (WeightedScore (AnalyzeLayout neighbor config langData)))
    by (split; reflexivity).
  revert Hn Hrun.
  generalize (AnalyzeLayout neighbor config langData) as neighborAnalysis.
  intros neighborAnalysis.
  generalize (WeightedScore neighborAnalysis) as neighborScore.
  intros neighborScore Hn Hrun.
  destruct ok; [destruct (Qltb neighborScore (bestScoreRestart a)) eqn:Hlt|];
    apply ret_Some in Hrun as [<- _];
    cbn [currentLayout currentAnalysis currentScore bestLayoutRestart
         bestAnalysisRestart bestScoreRestart];
    (split; [|split]); try assumption.
  apply Qltb_lt in Hlt. lra.
Qed.

Lemma annealLoop_scores bound n a tape a' tape' :
  consistent (currentLayout a) (currentAnalysis a) (currentScore a) ->
  consistent (bestLayoutRestart a) (bestAnalysisRestart a) (bestScoreRestart a) ->
  bestScoreRestart a <= bound ->
  annealLoop config langData params lower upper n a tape = Some (a', tape') ->
  consistent (bestLayoutRestart a') (bestAnalysisRestart a') (bestScoreRestart a')
  /\ bestScoreRestart a' <= bound.
Proof.
  revert a tape. induction n as [|n IH]; intros a tape Hc Hb Hle; cbn [annealLoop].
  - by intros [<- _]%ret_Some.
  - intros (a1 & t1 & Hstep & Hloop)%bind_Some.
    destruct (annealStep_scores bound _ _ _ _ Hc Hb Hle Hstep) as (Hc1 & Hb1 & Hle1).
    by eapply IH.
Qed.

(** A result is the analysis of its own layout and scores no worse than the
    lowercased seed. *)
Let sound (r : SimulatedAnnealingResult) : Prop :=
  r = resultOf config langData (rLayout r)
  /\ Score r <= WeightedScore (AnalyzeLayout lower config langData).

Lemma runRestart_scores restart best tape r tape' :
  Forall sound best ->
  runRestart config langData params lower upper restart best tape = Some (r, tape') ->
  sound r.
Proof.
  intros Hbest. unfold runRestart.
  intros (a & t & Hloop & [<- _]%ret_Some)%bind_Some.
  set (start := if (0 <? restart)%nat
                then match best with r0 :: _ => rLayout r0 | [] => lower end
                else lower) in *.
  assert (Hstart : WeightedScore (AnalyzeLayout start config langData)
                   <= WeightedScore (AnalyzeLayout lower config langData)).
  { subst start. destruct (0 <? restart)%nat; [|apply Qle_refl].
    destruct Hbest as [|r0 best' [Hr0 Hle0] _]; [apply Qle_refl|].
    rewrite Hr0 in Hle0. exact Hle0. }
  clearbody start.
  apply (annealLoop_scores (WeightedScore (AnalyzeLayout lower config langData)))
    in Hloop as [[Ha Hs] Hle];
    cbn [currentLayout currentAnalysis currentScore bestLayoutRestart
         bestAnalysisRestart bestScoreRestart];
    [| by split | by split | exact Hstart].
  split; cbn [rLayout Score]; [|exact Hle].
  unfold resultOf. by rewrite <- Ha, <- Hs.
Qed.

Lemma restartLoop_scores n best' produced' tape tape' :
  restartLoop config langData params numBest lower upper n 0 ([], []) tape
    = Some ((best', produced'), tape') ->
  Forall sound best'.
Proof.
  intros Hrun.
  apply (restartLoop_invariant config langData params numBest lower upper
           (fun _ best _ => Forall sound best)) in Hrun; [exact Hrun| |constructor].
  intros restart best produced r t t' Hb Hr.
  apply Forall_rank, Forall_app. split; [exact Hb|].
  constructor; [|constructor]. by eapply runRestart_scores.
Qed.

End Scores.

(** X18. Every result of the seeded search carries the analysis that
    [AnalyzeLayout] gives for the layout of the result, and its score is the
    weighted score of that analysis. *)
Theorem search_results_consistent `{GoLib} config langData params numBest seed
    tape results tape' :
  SearchOptimalLayoutFromSpecificLayout config langData params numBest seed tape
    = Some (results, tape') ->
  Forall (fun r => rAnalysis r = AnalyzeLayout (rLayout r) config langData
                   /\ Score r = WeightedScore (rAnalysis r)) results.
Proof.
  intros Hrun.
  destruct (createLowercaseLayout seed) as [lower upper] eqn:Hlower.
  destruct (search_run _ _ _ _ _ _ _ _ _ _ Hlower Hrun) as (best & produced & Hloop & ->).
  apply Forall_truncateBest. apply restartLoop_scores in Hloop.
  eapply Forall_impl; [exact Hloop|]. intros r [Hr _]. cbv beta.
  rewrite Hr at 1 3 4. by split.
Qed.

(** X19. No result of the seeded search scores worse than the lowercased
    seed layout itself. *)
Theorem search_never_worse_than_seed `{GoLib} config langData params numBest seed
    lower upper tape results tape' :
  createLowercaseLayout seed = (lower, upper) ->
  SearchOptimalLayoutFromSpecificLayout config langData params numBest seed tape
    = Some (results, tape') ->
  Forall (fun r => Score r <= WeightedScore (AnalyzeLayout lower config langData)) results.
Proof.
  intros Hlower Hrun.
  destruct (search_run _ _ _ _ _ _ _ _ _ _ Hlower Hrun) as (best & produced & Hloop & ->).
  apply Forall_truncateBest. apply restartLoop_scores in Hloop.
  eapply Forall_impl; [exact Hloop|]. by intros r [_ Hle].
Qed.

Lemma search_results_consistent_witness :
  match SearchOptimalLayoutFromSpecificLayout gradedConfig corpusQ (params 3 3) 2 seedA
          tapeQ with
  | Some (results, _) =>
      results <> []
      /\ Forall (fun r => rAnalysis r = AnalyzeLayout (rLayout r) gradedConfig corpusQ
                          /\ Score r = WeightedScore (rAnalysis r)) results
  | None => False
  end.
Proof.
  destruct (SearchOptimalLayoutFromSpecificLayout gradedConfig corpusQ (params 3 3) 2
              seedA tapeQ) as [[results tape']|] eqn:Hrun.
  - split.
    + intros ->. vm_compute in Hrun. discriminate Hrun.
    + exact (search_results_consistent gradedConfig corpusQ (params 3 3) 2 seedA
               tapeQ results tape' Hrun).
  - vm_compute in Hrun. discriminate Hrun.
Defined.

Lemma search_never_worse_than_seed_witness :
  match SearchOptimalLayoutFromSpecificLayout gradedConfig corpusQ (params 3 3) 2 seedA
          tapeQ with
  | Some (results, _) =>
      results <> [] /\ Forall (fun r => Score r <= 100) results
  | None => False
  end.
Proof.
  destruct (SearchOptimalLayoutFromSpecificLayout gradedConfig corpusQ (params 3 3) 2
              seedA tapeQ) as [[results tape']|] eqn:Hrun.
  - split.
    + intros ->. vm_compute in Hrun. discriminate Hrun.
    + pose proof (search_never_worse_than_seed gradedConfig corpusQ (params 3 3) 2 seedA
                    (createLowercaseLayout seedA).1 (createLowercaseLayout seedA).2
                    tapeQ results tape' createLowercaseLayout_seedA Hrun) as Hall.
      eapply Forall_impl; [exact Hall|]. intros r Hle.
      eapply Qle_trans; [exact Hle|]. vm_compute. discriminate.
  - vm_compute in Hrun. discriminate Hrun.
Defined.

(** ** The other neighbor generators *)

Lemma existsb_positions (f g : nat * nat -> bool) :
  (forall pos, pos ∈ positions -> f pos = g pos) ->
  existsb f positions = existsb g positions.
Proof.
  induction positions as [|pos ps IH]; intros Hfg; [reflexivity|].
  cbn [existsb]. rewrite (Hfg pos) by left. rewrite IH; [reflexivity|].
  intros pos' Hin. apply Hfg. by right.
Qed.

Lemma filter_positions (f g : nat * nat -> bool) :
  (forall pos, pos ∈ positions -> f pos = g pos) ->
  List.filter f positions = List.filter g positions.
Proof.
  induction positions as [|pos ps IH]; intros Hfg; [reflexivity|].
  cbn [List.filter]. rewrite (Hfg pos) by left. rewrite IH; [reflexivity|].
  intros pos' Hin. apply Hfg. by right.
Qed.

Section Other_neighbors.
Context `{GoLib}.

Lemma uppercase_not_blank k :
  unicode_IsUpper 32%N = false -> nonEmpty k && isUppercase k = isUppercase k.
Proof.
  intros Hspace. unfold nonEmpty.
  destruct (decide (k = [])) as [->|Hne]; [reflexivity|].
  destruct (decide (k = space)) as [->|Hns].
  - cbn. by rewrite Hspace.
  - by rewrite !bool_decide_eq_false_2.
Qed.

Lemma uppercase_matrix baseLayout :
  unicode_IsUpper 32%N = false ->
  forall row col, (row, col) ∈ positions ->
    grid false (createLowercaseLayout baseLayout).2 row col
    = isUppercase (key baseLayout row col).
Proof.
  intros Hspace row col Hin.
  pose proof (createLowercaseLayout_spec baseLayout) as Hspec.
  destruct (createLowercaseLayout baseLayout) as [lower upper].
  destruct Hspec as [_ Hspec]. cbn [snd]. destruct (Hspec row col Hin) as [_ ->].
  by apply uppercase_not_blank.
Qed.

(** X20. Where the space is no uppercase letter, [generateNeighborFromBaseLayout]
    behaves as [generateNeighborFromBaseLayoutWithUppercaseInfo] does when it
    is given the uppercase positions of the base layout: the same draws, the
    same neighbor. *)
Theorem generateNeighborFromBaseLayout_agrees layout config baseLayout tape :
  unicode_IsUpper 32%N = false ->
  generateNeighborFromBaseLayout layout config baseLayout tape
  = generateNeighborFromBaseLayoutWithUppercaseInfo layout config baseLayout
      (createLowercaseLayout baseLayout).2 tape.
Proof.
  intros Hspace.
  unfold generateNeighborFromBaseLayout, generateNeighborFromBaseLayoutWithUppercaseInfo,
    swapPositions.
  pose proof (uppercase_matrix baseLayout Hspace) as Hupper.
  revert Hupper. generalize (createLowercaseLayout baseLayout).2 as upper.
  intros upper Hupper. cbv zeta.
  assert (Hany : hasUppercaseLetters baseLayout
                 = existsb (fun '(row, col) => grid false upper row col) positions).
  { unfold hasUppercaseLetters. apply existsb_positions.
    intros [row col] Hin. symmetry. by apply Hupper. }
  by rewrite Hany.
Qed.

(** X21. With fewer than two characters in the corpus,
    [generateRandomNeighborIgnoreFixed] returns the layout as it is, on every
    tape and without drawing a random number.  Whenever it returns, it has
    kept the name of the layout and has not moved an uppercase key, whatever
    the mask of the cost model says. *)
Theorem generateRandomNeighborIgnoreFixed_keeps layout config langData :
  ((size (Characters langData) < 2)%nat ->
   forall tape,
     generateRandomNeighborIgnoreFixed layout config langData tape = Some (layout, tape))
  /\ (forall tape layout' tape',
        generateRandomNeighborIgnoreFixed layout config langData tape
          = Some (layout', tape') ->
        Name layout' = Name layout
        /\ forall row col, isUppercase (key layout row col) = true ->
                           key layout' row col = key layout row col).
Proof.
  unfold generateRandomNeighborIgnoreFixed. cbv zeta.
  rewrite length_fmap, length_map_to_list.
  destruct (Nat.ltb_spec (size (Characters langData)) 2) as [Hfew|Hmany].
  - split; [reflexivity|]. by intros tape layout' tape' [<- <-]%ret_Some.
  - split; [lia|]. intros tape layout' tape' Hrun. split.
    + eapply swapRandomPair_Name. exact Hrun.
    + intros row col Hup. eapply swapRandomPair_outside; [exact Hrun|].
      rewrite list_elem_of_In, filter_In. intros [_ Hf].
      rewrite Hup in Hf. by destruct (hasUppercaseLetters layout).
Qed.

End Other_neighbors.

Lemma generateNeighborFromBaseLayout_agrees_witness :
  generateNeighborFromBaseLayout seedA gradedConfig seedA tapeQ
  = generateNeighborFromBaseLayoutWithUppercaseInfo seedA gradedConfig seedA
      (createLowercaseLayout seedA).2 tapeQ.
Proof.
  apply (generateNeighborFromBaseLayout_agrees seedA gradedConfig seedA tapeQ).
  reflexivity.
Defined.

Lemma generateRandomNeighborIgnoreFixed_keeps_witness :
  generateRandomNeighborIgnoreFixed seedA lockedConfig (corpus [("q", 1)] []) tapeQ
  = Some (seedA, tapeQ)
  /\ match generateRandomNeighborIgnoreFixed seedA lockedConfig corpusQ tapeQ with
     | Some (layout', _) => Name layout' = Name seedA /\ key layout' 1 0 = str "A"
     | None => False
     end.
Proof.
  split.
  - destruct (generateRandomNeighborIgnoreFixed_keeps seedA lockedConfig
                (corpus [("q", 1)] [])) as [Hfew _].
    apply Hfew. vm_compute. lia.
  - destruct (generateRandomNeighborIgnoreFixed seedA lockedConfig corpusQ tapeQ)
      as [[layout' tape']|] eqn:Hrun.
    + destruct (generateRandomNeighborIgnoreFixed_keeps seedA lockedConfig corpusQ)
        as [_ Hkeeps].
      destruct (Hkeeps tapeQ layout' tape' Hrun) as [Hname Hkeep].
      split; [exact Hname|]. rewrite (Hkeep 1%nat 0%nat); reflexivity.
    + vm_compute in Hrun. discriminate Hrun.
Defined.

(** ** The exchange sort on its own *)

Lemma selectMin_sorted x rest :
  Forall (scoreLe x) rest -> selectMin x rest = (x, rest).
Proof.
  revert x. induction rest as [|y rest IH]; intros x Hle; [reflexivity|].
  apply Forall_cons in Hle as [Hy Hle]. cbn [selectMin].
  assert (Qltb (Score y) (Score x) = false) as -> by by apply Qltb_ge.
  by rewrite IH.
Qed.

Lemma sortOuter_sorted pre rest :
  StronglySorted scoreLe rest ->
  foldl (fun rs i => sortInner i rs) (pre ++ rest) (seq (length pre) (length rest))
  = pre ++ rest.
Proof.
  intros Hs. revert pre. induction Hs as [|x rest Hs IH Hle]; intros pre; [reflexivity|].
  cbn [length seq foldl]. rewrite sortInner_selectMin, selectMin_sorted by exact Hle.
  cbn [fst snd]. specialize (IH (pre ++ [x])).
  rewrite length_app, Nat.add_1_r, <- app_assoc in IH. exact IH.
Qed.

(** X22. [sortResultsByScore] returns the results it was given, each as
    often, in ascending order of score; a list that is already in ascending
    order comes back as it is. *)
Theorem sortResultsByScore_correct rs :
  sortResultsByScore rs ≡ₚ rs
  /\ StronglySorted scoreLe (sortResultsByScore rs)
  /\ (StronglySorted scoreLe rs -> sortResultsByScore rs = rs).
Proof.
  destruct (sortResultsByScore_sorts rs) as [Hp Hs].
  split; [exact Hp|]. split; [exact Hs|].
  intros Hsorted. exact (sortOuter_sorted [] rs Hsorted).
Qed.

(** ** Random layouts *)

Lemma swapAt_perm {A} i j (l : list A) : swapAt i j l ≡ₚ l.
Proof.
  unfold swapAt. destruct (l !! i) as [a|] eqn:Hi; [|reflexivity].
  destruct (l !! j) as [b|] eqn:Hj; [|reflexivity].
  by apply Permutation_insert_swap.
Qed.

Lemma shuffleFrom_perm {A} i (l : list A) tape l' tape' :
  shuffleFrom i l tape = Some (l', tape') -> l' ≡ₚ l.
Proof.
  revert l tape. induction i as [|i IH]; intros l tape; cbn [shuffleFrom].
  - by intros [<- _]%ret_Some.
  - intros (j & t & _ & Hrun)%bind_Some. apply IH in Hrun. by rewrite Hrun, swapAt_perm.
Qed.

Lemma Shuffle_perm {A} (l : list A) tape l' tape' :
  Shuffle l tape = Some (l', tape') -> l' ≡ₚ l.
Proof. apply shuffleFrom_perm. Qed.

Section Placement.
Variables (config : KeyboardConfig) (letters : list gostring) (name : gostring).

(** The body of the loop of [placeLetters]. *)
Let place : Layout * nat -> nat * nat -> Layout * nat :=
  fun '(layout, letterIdx) '(row, col) =>
    let fixed := grid [] (FixedPositions config) row col in
    if bool_decide (fixed = dot) && (letterIdx <? length letters)%nat then
      (setKey layout row col (default [] (letters !! letterIdx)), S letterIdx)
    else if negb (bool_decide (fixed = dot)) && negb (bool_decide (fixed = str "x"))
    then (setKey layout row col fixed, letterIdx)
    else (layout, letterIdx).

(** What holds once the cells of [done] have been visited. *)
Let placed (done : list (nat * nat)) (st : Layout * nat) : Prop :=
  Name st.1 = name
  /\ (forall row col, (row < 3)%nat -> (col < 10)%nat -> is_Some (cell (Keys st.1) row col))
  /\ st.2 = Nat.min (length (List.filter (isFree config) done)) (length letters)
  /\ (forall i pos, List.filter (isFree config) done !! i = Some pos ->
         key st.1 pos.1 pos.2 = default [] (letters !! i))
  /\ (forall pos, pos ∈ done -> isFree config pos = false ->
         key st.1 pos.1 pos.2 = prescribed config pos)
  /\ (forall pos, pos ∉ done -> key st.1 pos.1 pos.2 = []).

Lemma placed_step done st row col :
  (row < 3)%nat -> (col < 10)%nat -> (row, col) ∉ done ->
  placed done st -> placed (done ++ [(row, col)]) (place st (row, col)).
Proof.
  intros Hr Hc Hnew (Hname & Hcells & Hidx & Hfree & Hfixed & Hrest).
  destruct st as [layout idx]. cbn [fst snd] in *. unfold placed, place.
  rewrite List.filter_app. cbn [List.filter].
  change (isFree config (row, col))
    with (bool_decide (grid [] (FixedPositions config) row col = dot)).
  set (F := List.filter (isFree config) done) in *.
  assert (Hother : forall pos, pos <> (row, col) -> forall v,
            key (setKey layout row col v) pos.1 pos.2 = key layout pos.1 pos.2).
  { intros [r c] Hne v. by apply key_setKey_ne. }
  assert (Hempty : key layout row col = []) by exact (Hrest (row, col) Hnew).
  assert (Hin : forall pos, pos ∈ done -> pos <> (row, col)) by (intros pos Hp ->; done).
  assert (HinF : forall i pos, F !! i = Some pos -> pos <> (row, col)).
  { intros i pos Hi. apply Hin. apply list_elem_of_lookup_2 in Hi.
    subst F. rewrite list_elem_of_In, filter_In, <- list_elem_of_In in Hi. tauto. }
  destruct (bool_decide (grid [] (FixedPositions config) row col = dot)) eqn:Hdot;
    cbn [andb negb].
  - destruct (Nat.ltb_spec idx (length letters)) as [Hlt|Hge]; cbn [fst snd].
    + assert (Hlen : idx = length F) by lia.
      split_and!.
      * exact Hname.
      * intros r c Hr' Hc'. apply cell_setKey_is_Some. by apply Hcells.
      * rewrite length_app. cbn [length]. lia.
      * intros i pos Hi. apply lookup_app_Some in Hi as [Hi|[Hge Hi]].
        -- rewrite Hother by (by eapply HinF). by apply Hfree.
        -- apply list_lookup_singleton_Some in Hi as [Hi <-]. cbn [fst snd].
           rewrite key_setKey_eq by (by apply Hcells).
           replace i with idx by lia. reflexivity.
      * intros pos [Hp|Hp%list_elem_of_singleton]%elem_of_app Hfix.
        -- rewrite Hother by (by apply Hin). by apply Hfixed.
        -- subst pos. unfold isFree in Hfix. cbn [fst snd] in Hfix. congruence.
      * intros pos Hp. rewrite elem_of_app, list_elem_of_singleton in Hp.
        rewrite Hother by tauto. apply Hrest. tauto.
    + assert (Hlen : (length letters <= length F)%nat) by lia.
      split_and!.
      * exact Hname.
      * exact Hcells.
      * rewrite length_app. cbn [length]. lia.
      * intros i pos Hi. apply lookup_app_Some in Hi as [Hi|[Hge' Hi]].
        -- by apply Hfree.
        -- apply list_lookup_singleton_Some in Hi as [Hi <-]. cbn [fst snd].
           assert (Hnone : default [] (letters !! i) = []).
           { rewrite lookup_ge_None_2; [reflexivity|].
             exact (Nat.le_trans _ _ _ Hlen Hge'). }
           exact (eq_trans Hempty (eq_sym Hnone)).
      * intros pos [Hp|Hp%list_elem_of_singleton]%elem_of_app Hfix.
        -- by apply Hfixed.
        -- subst pos. unfold isFree in Hfix. cbn [fst snd] in Hfix. congruence.
      * intros pos Hp. rewrite elem_of_app, list_elem_of_singleton in Hp.
        apply Hrest. tauto.
  - rewrite app_nil_r.
    destruct (bool_decide (grid [] (FixedPositions config) row col = str "x")) eqn:Hx;
      cbn [negb fst snd].
    + split_and!; try assumption.
      * intros pos [Hp|Hp%list_elem_of_singleton]%elem_of_app Hfix.
        -- by apply Hfixed.
        -- subst pos. unfold prescribed. cbn [fst snd]. rewrite Hx.
           exact (Hrest (row, col) Hnew).
      * intros pos Hp. rewrite elem_of_app, list_elem_of_singleton in Hp.
        apply Hrest. tauto.
    + split_and!; try assumption.
      * intros r c Hr' Hc'. apply cell_setKey_is_Some. by apply Hcells.
      * intros i pos Hi. rewrite Hother by (by eapply HinF). by apply Hfree.
      * intros pos [Hp|Hp%list_elem_of_singleton]%elem_of_app Hfix.
        -- rewrite Hother by (by apply Hin). by apply Hfixed.
        -- subst pos. unfold prescribed. cbn [fst snd]. rewrite Hx.
           apply key_setKey_eq. by apply Hcells.
      * intros pos Hp. rewrite elem_of_app, list_elem_of_singleton in Hp.
        rewrite Hother by tauto. apply Hrest. tauto.
Qed.

Lemma placed_all todo done st :
  NoDup (done ++ todo) -> (forall pos, pos ∈ todo -> pos ∈ positions) ->
  placed done st -> placed (done ++ todo) (foldl place st todo).
Proof.
  revert done st. induction todo as [|[row col] todo IH]; intros done st Hnd Hin Hp.
  - by rewrite app_nil_r.
  - cbn [foldl]. replace (done ++ (row, col) :: todo) with ((done ++ [(row, col)]) ++ todo)
      in * by (by rewrite <- app_assoc).
    apply IH; [exact Hnd | intros pos Hpos; apply Hin; by right|].
    destruct (positions_range row col) as [Hr Hc]; [apply Hin; by left|].
    apply placed_step; try done.
    apply NoDup_app in Hnd as (Hnd & _ & _). apply NoDup_app in Hnd as (_ & Hnd & _).
    intros Hd. apply (Hnd _ Hd). by left.
Qed.

End Placement.

Lemma key_emptyLayout name row col : key (emptyLayout name) row col = [].
Proof.
  unfold key, grid, emptyLayout. cbn [Keys].
  destruct (decide (row < 3)%nat) as [Hr|Hr].
  - rewrite lookup_replicate_2 by exact Hr. cbn [mbind option_bind].
    destruct (decide (col < 10)%nat) as [Hc|Hc].
    + by rewrite lookup_replicate_2.
    + rewrite lookup_ge_None_2; [reflexivity|]. rewrite length_replicate. lia.
  - rewrite lookup_ge_None_2; [reflexivity|]. rewrite length_replicate. lia.
Qed.

(** The grid that [placeLetters] fills from an empty layout: the i-th free
    cell holds the i-th letter, or nothing when the letters have run out;
    every other cell holds what the mask prescribes. *)
Lemma placeLetters_spec config letters name :
  let layout := (placeLetters config letters (emptyLayout name)).1 in
  Name layout = name
  /\ (forall row col, (row < 3)%nat -> (col < 10)%nat ->
        is_Some (cell (Keys layout) row col))
  /\ (forall i pos, freePositions config !! i = Some pos ->
        key layout pos.1 pos.2 = default [] (letters !! i))
  /\ (forall pos, pos ∈ positions -> isFree config pos = false ->
        key layout pos.1 pos.2 = prescribed config pos).
Proof.
  pose proof (placed_all config letters name positions [] (emptyLayout name, 0%nat))
    as Hall.
  cbv zeta in Hall. cbn [app] in Hall.
  destruct Hall as (Hname & Hcells & _ & Hfree & Hfixed & _).
  - apply NoDup_positions.
  - done.
  - cbn [fst snd]. split_and!.
    + reflexivity.
    + intros row col Hr Hc. unfold emptyLayout. cbn [Keys].
      rewrite cell_replicate by done. by eexists.
    + reflexivity.
    + intros i pos Hi. cbn [List.filter] in Hi. by rewrite lookup_nil in Hi.
    + intros pos Hin. by apply elem_of_nil in Hin.
    + intros pos _. apply key_emptyLayout.
  - intros layout. subst layout. by split_and!.
Qed.

Lemma positions_free_or_fixed config pos :
  pos ∈ positions ->
  (exists i, freePositions config !! i = Some pos) \/ isFree config pos = false.
Proof.
  intros Hin. destruct (isFree config pos) eqn:Hfree; [left | by right].
  apply list_elem_of_lookup_1. unfold freePositions.
  rewrite list_elem_of_In, filter_In, <- list_elem_of_In. by split.
Qed.

Lemma generateRandomLayout_run `{GoLib} rangeKeys config langData tape layout tape' :
  generateRandomLayout rangeKeys config langData tape = Some (layout, tape') ->
  exists letters,
    letters ≡ₚ rangeKeys (Characters langData)
    /\ layout = (placeLetters config letters (emptyLayout (str "random"))).1.
Proof.
  unfold generateRandomLayout. cbv zeta.
  intros (letters & t & Hshuffle%Shuffle_perm & [<- _]%ret_Some)%bind_Some.
  by exists letters.
Qed.

(** X23. From a random draw of the map order and of the shuffle,
    [generateRandomLayout] builds a layout named [random] in which the free
    cells of the mask (those marked ['.']) hold, in row-major order, the
    shuffled characters of the corpus, as far as there are characters and
    cells (characters in excess are left out, cells in excess stay empty),
    the cells marked ['x'] are empty and every other cell holds the letter
    of the mask. *)
Theorem generateRandomLayout_places `{GoLib} rangeKeys config langData tape layout tape' :
  generateRandomLayout rangeKeys config langData tape = Some (layout, tape') ->
  Name layout = str "random"
  /\ exists letters,
       letters ≡ₚ rangeKeys (Characters langData)
       /\ (forall i pos, freePositions config !! i = Some pos ->
             key layout pos.1 pos.2 = default [] (letters !! i))
       /\ (forall pos, pos ∈ positions -> isFree config pos = false ->
             key layout pos.1 pos.2 = prescribed config pos).
Proof.
  intros (letters & Hperm & ->)%generateRandomLayout_run.
  destruct (placeLetters_spec config letters (str "random")) as (Hname & _ & Hfree & Hfixed).
  split; [exact Hname|]. exists letters. by split_and!.
Qed.

Lemma generateRandomLayout_places_witness :
  match generateRandomLayout keysInOrder maskedConfig corpusQ tapeQ with
  | Some (layout, _) =>
      Name layout = str "random" /\ key layout 1 0 = [] /\ key layout 1 1 = str "s"
  | None => False
  end.
Proof.
  destruct (generateRandomLayout keysInOrder maskedConfig corpusQ tapeQ)
    as [[layout tape']|] eqn:Hrun.
  - destruct (generateRandomLayout_places keysInOrder maskedConfig corpusQ tapeQ
                layout tape' Hrun) as (Hname & letters & _ & _ & Hfixed).
    split; [exact Hname|]. split.
    + apply (Hfixed (1, 0)%nat); [|reflexivity].
      apply list_elem_of_In. vm_compute. tauto.
    + apply (Hfixed (1, 1)%nat); [|reflexivity].
      apply list_elem_of_In. vm_compute. tauto.
  - vm_compute in Hrun. discriminate Hrun.
Defined.

(** ** The random search *)

(** X24. [generateNeighbor] keeps the name of the layout and never moves a
    locked key: an uppercase key, or, when the layout has no uppercase key, a
    key on a cell that the mask does not mark ['.']. *)
Theorem generateNeighbor_keeps_locked `{GoLib} layout config tape layout' tape' :
  generateNeighbor layout config tape = Some (layout', tape') ->
  Name layout' = Name layout
  /\ forall row col, lockedInPlace layout config row col = true ->
                     key layout' row col = key layout row col.
Proof.
  unfold generateNeighbor. intros Hrun. split.
  - eapply swapRandomPair_Name. exact Hrun.
  - intros row col Hlocked. eapply swapRandomPair_outside; [exact Hrun|].
    intros [_ Hfree]%swappablePositions_unlocked. congruence.
Qed.

Lemma generateNeighbor_keeps_locked_witness :
  match generateNeighbor seedA gradedConfig tapeQ with
  | Some (layout', _) => Name layout' = Name seedA /\ key layout' 1 0 = str "A"
  | None => False
  end.
Proof.
  destruct (generateNeighbor seedA gradedConfig tapeQ) as [[layout' tape']|] eqn:Hrun.
  - destruct (generateNeighbor_keeps_locked seedA gradedConfig tapeQ layout' tape' Hrun)
      as [Hname Hkeep].
    split; [exact Hname|]. rewrite (Hkeep 1%nat 0%nat); reflexivity.
  - vm_compute in Hrun. discriminate Hrun.
Defined.

Section Random_runs.
Context `{GoLib}.
Variables (rangeKeys : gmap gostring Q -> list gostring)
          (config : KeyboardConfig) (langData : LanguageData)
          (params : SimulatedAnnealingParams).

(** A property of layouts that random layouts have and that neighbor
    generation maintains. *)
Variable P : Layout -> Prop.
Hypothesis P_neighbor : forall layout tape layout' tape',
  P layout -> generateNeighbor layout config tape = Some (layout', tape') -> P layout'.
Hypothesis P_random : forall tape layout tape',
  generateRandomLayout rangeKeys config langData tape = Some (layout, tape') -> P layout.

(** A layout with the property, with its analysis and its score. *)
Let good (layout : Layout) (analysis : LayoutAnalysis) (score : Q) : Prop :=
  P layout /\ analysis = AnalyzeLayout layout config langData
  /\ score = WeightedScore analysis.

Lemma annealStepRandom_keeps a tape a' tape' :
  good (currentLayout a) (currentAnalysis a) (currentScore a) ->
  good (bestLayoutRestart a) (bestAnalysisRestart a) (bestScoreRestart a) ->
  annealStepRandom config langData params a tape = Some (a', tape') ->
  good (currentLayout a') (currentAnalysis a') (currentScore a')
  /\ good (bestLayoutRestart a') (bestAnalysisRestart a') (bestScoreRestart a').
Proof.
  intros Hc Hb. unfold annealStepRandom.
  intros (neighbor & t1 & Hgen & Hrun)%bind_Some.
  apply bind_Some in Hrun as (ok & t2 & _ & Hrun).
  assert (Hn : good neighbor (AnalyzeLayout neighbor config langData)
                 (WeightedScore (AnalyzeLayout neighbor config langData))).
  { split; [|by split]. destruct Hc as [Hc _]. exact (P_neighbor _ _ _ _ Hc Hgen). }
  revert Hn Hrun.
  generalize (AnalyzeLayout neighbor config langData) as neighborAnalysis.
  intros neighborAnalysis.
  generalize (WeightedScore neighborAnalysis) as neighborScore.
  intros neighborScore Hn Hrun.
  destruct ok; [destruct (Qltb neighborScore (bestScoreRestart a))|];
    apply ret_Some in Hrun as [<- _];
    cbn [currentLayout currentAnalysis currentScore bestLayoutRestart
         bestAnalysisRestart bestScoreRestart];
    split; assumption.
Qed.

Lemma annealLoopRandom_keeps n a tape a' tape' :
  good (currentLayout a) (currentAnalysis a) (currentScore a) ->
  good (bestLayoutRestart a) (bestAnalysisRestart a) (bestScoreRestart a) ->
  annealLoopRandom config langData params n a tape = Some (a', tape') ->
  good (bestLayoutRestart a') (bestAnalysisRestart a') (bestScoreRestart a').
Proof.
  revert a tape. induction n as [|n IH]; intros a tape Hc Hb; cbn [annealLoopRandom].
  - by intros [<- _]%ret_Some.
  - intros (a1 & t1 & Hstep & Hloop)%bind_Some.
    destruct (annealStepRandom_keeps _ _ _ _ Hc Hb Hstep) as [Hc1 Hb1].
    by eapply IH.
Qed.

Lemma restartLoopRandom_keeps initialLayout n restart best tape best' tape' :
  P initialLayout ->
  Forall (fun r => good (rLayout r) (rAnalysis r) (Score r)) best ->
  restartLoopRandom rangeKeys config langData params initialLayout n restart best tape
    = Some (best', tape') ->
  Forall (fun r => good (rLayout r) (rAnalysis r) (Score r)) best'
  /\ length best' = (length best + n)%nat.
Proof.
  intros Hinit. revert restart best tape.
  induction n as [|n IH]; intros restart best tape Hbest; cbn [restartLoopRandom].
  - intros [<- _]%ret_Some. split; [exact Hbest | lia].
  - intros (start & t1 & Hstart & Hrun)%bind_Some.
    assert (Hs : P start).
    { destruct (0 <? restart)%nat.
      - by eapply P_random.
      - by apply ret_Some in Hstart as [<- _]. }
    apply bind_Some in Hrun as (a & t2 & Hloop & Hrun).
    apply annealLoopRandom_keeps in Hloop;
      cbn [currentLayout currentAnalysis currentScore bestLayoutRestart
           bestAnalysisRestart bestScoreRestart];
      [| by split | by split].
    apply IH in Hrun as [Hall Hlen].
    + split; [exact Hall|]. rewrite Hlen, length_app. cbn [length]. lia.
    + apply Forall_app. split; [exact Hbest|].
      constructor; [exact Hloop | constructor].
Qed.

Lemma SearchOptimalLayout_keeps numBest tape results tape' :
  SearchOptimalLayout rangeKeys config langData params numBest tape
    = Some (results, tape') ->
  exists best,
    results = truncateBest numBest (sortResultsByScore best)
    /\ length best = Z.to_nat (Restarts params)
    /\ Forall (fun r => good (rLayout r) (rAnalysis r) (Score r)) results.
Proof.
  unfold SearchOptimalLayout.
  intros (initial & t1 & Hinit%P_random & Hrun)%bind_Some.
  apply bind_Some in Hrun as (best & t2 & Hloop & [<- _]%ret_Some).
  apply (restartLoopRandom_keeps _ _ _ _ _ _ _ Hinit (Forall_nil_2 _)) in Hloop
    as [Hall Hlen].
  exists best. split_and!; [reflexivity | exact Hlen | by apply Forall_rank].
Qed.

End Random_runs.

Lemma truncateBest_sorted numBest rs :
  StronglySorted scoreLe rs ->
  StronglySorted scoreLe (truncateBest numBest rs)
  /\ length (truncateBest numBest rs)
     = (if (0 <? numBest)%Z then Nat.min (Z.to_nat numBest) (length rs) else length rs).
Proof.
  intros Hs. unfold truncateBest.
  destruct (Z.ltb_spec 0 numBest) as [H0|H0]; cbn [andb]; [|done].
  destruct (Z.ltb_spec numBest (Z.of_nat (length rs))) as [H1|H1].
  - split; [|rewrite length_take; lia].
    rewrite <- (take_drop (Z.to_nat numBest) rs) in Hs.
    by apply StronglySorted_app_1_l in Hs.
  - split; [exact Hs | lia].
Qed.

(** X25. [SearchOptimalLayout] returns one result per restart, cut to the
    [numBest] best when [numBest] is positive, in ascending order of score;
    every result is named [random] and carries the analysis and the weighted
    score that [AnalyzeLayout] gives for its layout. *)
Theorem SearchOptimalLayout_results `{GoLib} rangeKeys config langData params numBest
    tape results tape' :
  SearchOptimalLayout rangeKeys config langData params numBest tape
    = Some (results, tape') ->
  length results =
    (if (0 <? numBest)%Z then Nat.min (Z.to_nat numBest) (Z.to_nat (Restarts params))
     else Z.to_nat (Restarts params))
  /\ StronglySorted scoreLe results
  /\ Forall (fun r => Name (rLayout r) = str "random"
                      /\ rAnalysis r = AnalyzeLayout (rLayout r) config langData
                      /\ Score r = WeightedScore (rAnalysis r)) results.
Proof.
  intros Hrun.
  apply (SearchOptimalLayout_keeps rangeKeys config langData params
           (fun l => Name l = str "random")) in Hrun as (best & Hres & Hlen & Hall).
  - destruct (sortResultsByScore_sorts best) as [Hperm Hsorted].
    destruct (truncateBest_sorted numBest _ Hsorted) as [Hs Hl].
    assert (Hlen' : length (sortResultsByScore best) = Z.to_nat (Restarts params))
      by (by rewrite Hperm).
    rewrite <- Hres in Hs, Hl. rewrite !Hlen' in Hl.
    split; [exact Hl | split; [exact Hs | exact Hall]].
  - intros layout t layout' t' Hname Hgen.
    apply swapRandomPair_Name in Hgen. by rewrite Hgen.
  - intros t layout t' (letters & _ & ->)%generateRandomLayout_run.
    by destruct (placeLetters_spec config letters (str "random")) as [Hname _].
Qed.

Lemma SearchOptimalLayout_results_witness :
  match SearchOptimalLayout keysInOrder maskedConfig corpusQ (params 3 3) 2
          (tapeQ ++ tapeQ ++ tapeQ) with
  | Some (results, _) =>
      length results = 2%nat /\ StronglySorted scoreLe results
      /\ Forall (fun r => Name (rLayout r) = str "random") results
  | None => False
  end.
Proof.
  destruct (SearchOptimalLayout keysInOrder maskedConfig corpusQ (params 3 3) 2
              (tapeQ ++ tapeQ ++ tapeQ)) as [[results tape']|] eqn:Hrun.
  - destruct (SearchOptimalLayout_results keysInOrder maskedConfig corpusQ (params 3 3) 2
                (tapeQ ++ tapeQ ++ tapeQ) results tape' Hrun) as (Hlen & Hsorted & Hall).
    split; [exact Hlen|]. split; [exact Hsorted|].
    eapply Forall_impl; [exact Hall|]. by intros r [Hname _].
  - vm_compute in Hrun. discriminate Hrun.
Defined.

Lemma hasUppercaseLetters_false `{GoLib} layout :
  (forall pos, pos ∈ positions -> isUppercase (key layout pos.1 pos.2) = false) ->
  hasUppercaseLetters layout = false.
Proof.
  intros Hlower. unfold hasUppercaseLetters.
  rewrite (existsb_positions _ (fun _ => false)); [reflexivity|].
  intros [row col] Hin. exact (Hlower (row, col) Hin).
Qed.

Lemma cell_swapKeys_is_Some l pos1 pos2 row col :
  is_Some (cell (Keys (swapKeys l pos1 pos2)) row col) <-> is_Some (cell (Keys l) row col).
Proof. unfold swapKeys. by rewrite !cell_setKey_is_Some. Qed.

Section Mask.
Context `{GoLib}.
Variable config : KeyboardConfig.

(** A full grid without uppercase keys that holds on every cell that is not
    free what the mask prescribes. *)
Let masked (layout : Layout) : Prop :=
  (forall row col, (row < 3)%nat -> (col < 10)%nat -> is_Some (cell (Keys layout) row col))
  /\ (forall pos, pos ∈ positions -> isUppercase (key layout pos.1 pos.2) = false)
  /\ (forall pos, pos ∈ positions -> isFree config pos = false ->
         key layout pos.1 pos.2 = prescribed config pos).

Lemma generateNeighbor_masked layout tape layout' tape' :
  masked layout -> generateNeighbor layout config tape = Some (layout', tape') ->
  masked layout'.
Proof.
  intros (Hcells & Hlower & Hfixed) Hgen. unfold generateNeighbor in Hgen.
  destruct (Nat.lt_ge_cases (length (swappablePositions layout config)) 2) as [Hfew|Hlen].
  { rewrite swapRandomPair_few in Hgen by exact Hfew. injection Hgen as <- _.
    by split_and!. }
  apply swapRandomPair_swaps in Hgen as (idx1 & idx2 & pos1 & pos2 & _ & H1 & H2 & ->);
    [|exact Hlen].
  assert (Hcand : forall pos, pos ∈ swappablePositions layout config ->
            pos ∈ positions /\ isFree config pos = true).
  { intros [row col]. unfold swappablePositions.
    rewrite (hasUppercaseLetters_false layout Hlower).
    rewrite list_elem_of_In, filter_In, <- list_elem_of_In.
    intros [Hin [Hdot _]%andb_prop]. by split. }
  apply list_elem_of_lookup_2, Hcand in H1 as [Hp1 Hf1].
  apply list_elem_of_lookup_2, Hcand in H2 as [Hp2 Hf2].
  assert (Hc1 : is_Some (cell (Keys layout) pos1.1 pos1.2)).
  { destruct pos1 as [r c]. destruct (positions_range r c Hp1). by apply Hcells. }
  assert (Hc2 : is_Some (cell (Keys layout) pos2.1 pos2.2)).
  { destruct pos2 as [r c]. destruct (positions_range r c Hp2). by apply Hcells. }
  split_and!.
  - intros row col Hr Hc. apply cell_swapKeys_is_Some. by apply Hcells.
  - intros pos Hin. rewrite key_swapKeys by assumption. apply Hlower.
    unfold exchange. by repeat case_decide.
  - intros pos Hin Hfix. rewrite key_swapKeys by assumption.
    rewrite exchange_other by congruence. by apply Hfixed.
Qed.

Lemma placeLetters_masked letters name :
  Forall (fun k => isUppercase k = false) letters ->
  (forall pos, pos ∈ positions -> isFree config pos = false ->
               isUppercase (prescribed config pos) = false) ->
  masked (placeLetters config letters (emptyLayout name)).1.
Proof.
  intros Hletters Hmask.
  destruct (placeLetters_spec config letters name) as (_ & Hcells & Hfree & Hfixed).
  split_and!; [exact Hcells | | exact Hfixed].
  intros pos Hin. destruct (positions_free_or_fixed config pos Hin) as [[i Hi]|Hfix].
  - rewrite (Hfree i pos Hi). destruct (letters !! i) as [k|] eqn:Hk; [|reflexivity].
    rewrite Forall_forall in Hletters. apply Hletters.
    by eapply list_elem_of_lookup_2.
  - rewrite (Hfixed pos Hin Hfix). by apply Hmask.
Qed.

End Mask.

(** X26. When no character of the corpus and no letter of the mask is an
    uppercase letter, every result of [SearchOptimalLayout] holds on every
    cell that the mask does not mark ['.'] what the mask prescribes: nothing
    on a cell marked ['x'], else the letter of the mask. *)
Theorem SearchOptimalLayout_respects_mask `{GoLib} rangeKeys config langData params
    numBest tape results tape' :
  Forall (fun k => isUppercase k = false) (rangeKeys (Characters langData)) ->
  (forall pos, pos ∈ positions -> isFree config pos = false ->
               isUppercase (prescribed config pos) = false) ->
  SearchOptimalLayout rangeKeys config langData params numBest tape
    = Some (results, tape') ->
  Forall (fun r => forall pos, pos ∈ positions -> isFree config pos = false ->
                     key (rLayout r) pos.1 pos.2 = prescribed config pos) results.
Proof.
  intros Hletters Hmask Hrun.
  apply (SearchOptimalLayout_keeps rangeKeys config langData params
           (fun layout =>
              (forall row col, (row < 3)%nat -> (col < 10)%nat ->
                               is_Some (cell (Keys layout) row col))
              /\ (forall pos, pos ∈ positions ->
                              isUppercase (key layout pos.1 pos.2) = false)
              /\ (forall pos, pos ∈ positions -> isFree config pos = false ->
                              key layout pos.1 pos.2 = prescribed config pos)))
    in Hrun as (best & _ & _ & Hall).
  - eapply Forall_impl; [exact Hall|]. intros r [(_ & _ & Hfixed) _]. exact Hfixed.
  - intros layout t layout' t' Hm Hgen. exact (generateNeighbor_masked config _ _ _ _ Hm Hgen).
  - intros t layout t' (letters & Hperm & ->)%generateRandomLayout_run.
    apply placeLetters_masked; [by rewrite Hperm | exact Hmask].
Qed.


Lemma by_positions (f : nat * nat -> bool) :
  forallb f positions = true -> forall pos, pos ∈ positions -> f pos = true.
Proof. intros Hall pos Hin%list_elem_of_In. by apply (proj1 (forallb_forall f positions) Hall). Qed.

Lemma SearchOptimalLayout_respects_mask_witness :
  match SearchOptimalLayout keysInOrder maskedConfig corpusQ (params 3 3) 2
          (tapeQ ++ tapeQ ++ tapeQ) with
  | Some (results, _) =>
      results <> []
      /\ Forall (fun r => key (rLayout r) 1 0 = [] /\ key (rLayout r) 1 1 = str "s") results
  | None => False
  end.
Proof.
  destruct (SearchOptimalLayout keysInOrder maskedConfig corpusQ (params 3 3) 2
              (tapeQ ++ tapeQ ++ tapeQ)) as [[results tape']|] eqn:Hrun.
  - split.
    + intros ->. vm_compute in Hrun. discriminate Hrun.
    + assert (Hletters : Forall (fun k => isUppercase k = false)
                           (keysInOrder (Characters corpusQ))).
      { apply Forall_forall. intros k Hk%list_elem_of_In. vm_compute in Hk.
        repeat (destruct Hk as [<-|Hk]; [reflexivity|]). destruct Hk. }
      assert (Hmask : forall pos, pos ∈ positions -> isFree maskedConfig pos = false ->
                        isUppercase (prescribed maskedConfig pos) = false).
      { intros pos Hin Hfix.
        pose proof (by_positions
                      (fun pos => isFree maskedConfig pos
                                  || negb (isUppercase (prescribed maskedConfig pos)))
                      eq_refl pos Hin) as Hb.
        cbv beta in Hb. rewrite Hfix in Hb. by apply negb_true_iff in Hb. }
      pose proof (SearchOptimalLayout_respects_mask keysInOrder maskedConfig corpusQ
                    (params 3 3) 2 (tapeQ ++ tapeQ ++ tapeQ) results tape'
                    Hletters Hmask Hrun) as Hall.
      eapply Forall_impl; [exact Hall|]. intros r Hr. split.
      * apply (Hr (1, 0)%nat); [|reflexivity]. apply list_elem_of_In. vm_compute. tauto.
      * apply (Hr (1, 1)%nat); [|reflexivity]. apply list_elem_of_In. vm_compute. tauto.
  - vm_compute in Hrun. discriminate Hrun.
Defined.

(** ** A corpus that the layout does not match *)

Lemma effortTotals_unmatched config keyPos chars :
  Forall (fun e : gostring * Q => keyPos !! e.1 = None) chars ->
  effortTotals config keyPos chars = (0, 0).
Proof.
  intros Hchars. unfold effortTotals. generalize (0, 0) as totals.
  induction Hchars as [|[char freq] chars Hnone _ IH]; intros [te tf]; [reflexivity|].
  cbn [foldl]. cbn [fst] in Hnone. rewrite Hnone. apply IH.
Qed.

Lemma bigramLoop_unmatched config keyPos bigrams tib0 :
  Forall (fun e : gostring * Q =>
            forall r1 r2, e.1 = [r1; r2] -> keyPos !! [r1] = None \/ keyPos !! [r2] = None)
    bigrams ->
  bigramLoop config keyPos bigrams tib0 = zeroCounters tib0.
Proof.
  intros Hbigrams. unfold bigramLoop. generalize (zeroCounters tib0) as counters.
  induction Hbigrams as [|[bigram freq] bigrams Hnone _ IH]; intros counters;
    [reflexivity|].
  cbn [foldl]. rewrite <- (IH counters) at 2. f_equal.
  unfold bigramStep. destruct bigram as [|r1 [|r2 [|r3 bigram]]]; try reflexivity.
  destruct (Hnone r1 r2 eq_refl) as [-> | Hn2]; [reflexivity|].
  rewrite Hn2. by destruct (keyPos !! [r1]).
Qed.

Lemma fresh_analysis_allZero name config :
  let a := newAnalysis name in
  let a := set_HDI (Qabs (at_ (EffortByHalf a) 0 - at_ (EffortByHalf a) 1)) a in
  let a := set_FDI (calculateFDI a config) a in
  let a := set_MEP (calculateMEP a config) a in
  allZero (calculateWeightedScore config a).
Proof.
  cbv zeta. unfold calculateMEP, calculateWeightedScore, calculateFDI.
  cbn [set_HDI set_FDI set_MEP set_WeightedScore newAnalysis
       LayoutName TotalEffort EffortByRow EffortByFinger EffortByHalf Bigram
       HDI FDI MEP WeightedScore].
  rewrite !penalties_no_load by apply at_replicate_zero.
  unfold allZero, zeroBigrams, zeros, zeroBigramAnalysis, at_.
  cbn [SHB SFB HVB FVB HDB FDB HFB HSB FSB LSB SRB AFI AFO HSB2 FSB2 LSB2 SKB TIB
       replicate lookup list_lookup default from_option length].
  repeat split; try reflexivity; repeat constructor; try reflexivity.
  all: cbn [FDI WeightedScore set_WeightedScore set_MEP set_FDI set_HDI id];
    change (Qabs (0 - 0)) with 0; ring.
Qed.

(** X27. When the layout holds no character of the corpus and, of every
    two-character bigram of the corpus, at most one character, every number
    of the analysis is zero, the weighted score included. *)
Theorem analyze_unmatched_corpus layout config langData :
  (forall char freq, Characters langData !! char = Some freq ->
                     buildKeyPos layout !! char = None) ->
  (forall r1 r2 freq, Bigrams langData !! [r1; r2] = Some freq ->
                      buildKeyPos layout !! [r1] = None
                      \/ buildKeyPos layout !! [r2] = None) ->
  allZero (AnalyzeLayout layout config langData).
Proof.
  intros Hchars Hbigrams. unfold AnalyzeLayout.
  revert Hchars Hbigrams. generalize (buildKeyPos layout) as keyPos.
  intros keyPos Hchars Hbigrams.
  assert (He : calculateEffort layout config langData keyPos (newAnalysis (Name layout))
               = newAnalysis (Name layout)).
  { unfold calculateEffort. rewrite effortTotals_unmatched; [reflexivity|].
    apply Forall_forall. intros [char freq] Hin%elem_of_map_to_list. by eapply Hchars. }
  rewrite He.
  assert (Hb : calculateBigrams layout config langData keyPos (newAnalysis (Name layout))
               = newAnalysis (Name layout)).
  { unfold calculateBigrams. rewrite bigramLoop_unmatched; [reflexivity|].
    apply Forall_forall. intros [bigram freq] Hin%elem_of_map_to_list r1 r2 Hb.
    cbn [fst] in Hb. subst bigram. by eapply Hbigrams. }
  rewrite Hb. apply fresh_analysis_allZero.
Qed.

Lemma by_entries (m : gmap gostring Q) (f : gostring * Q -> bool) :
  forallb f (map_to_list m) = true -> forall k v, m !! k = Some v -> f (k, v) = true.
Proof.
  intros Hall k v Hk. apply elem_of_map_to_list, list_elem_of_In in Hk.
  by apply (proj1 (forallb_forall f (map_to_list m)) Hall).
Qed.

Lemma analyze_unmatched_corpus_witness :
  allZero (AnalyzeLayout (mkLayout ["q"; "w"] ["a"] []) limitConfig
             (corpus [("x", 1 # 2); ("y", 1 # 2)] [("xy", 1 # 4); ("qx", 3 # 4)])).
Proof.
  apply analyze_unmatched_corpus.
  - intros char freq Hin.
    assert (Hall : forallb (fun e : gostring * Q =>
                              bool_decide
                                (buildKeyPos (mkLayout ["q"; "w"] ["a"] []) !! e.1 = None))
                     (map_to_list (Characters
                        (corpus [("x", 1 # 2); ("y", 1 # 2)]
                           [("xy", 1 # 4); ("qx", 3 # 4)]))) = true)
      by (vm_compute; reflexivity).
    apply (by_entries _ _ Hall) in Hin. by apply bool_decide_eq_true in Hin.
  - intros r1 r2 freq Hin.
    assert (Hall : forallb (fun e : gostring * Q =>
                              match e.1 with
                              | [r1; r2] =>
                                  bool_decide
                                    (buildKeyPos (mkLayout ["q"; "w"] ["a"] []) !! [r1]
                                     = None)
                                  || bool_decide
                                       (buildKeyPos (mkLayout ["q"; "w"] ["a"] []) !! [r2]
                                        = None)
                              | _ => true
                              end)
                     (map_to_list (Bigrams
                        (corpus [("x", 1 # 2); ("y", 1 # 2)]
                           [("xy", 1 # 4); ("qx", 3 # 4)]))) = true)
      by (vm_compute; reflexivity).
    apply (by_entries _ _ Hall) in Hin. cbn [fst] in Hin.
    apply orb_true_iff in Hin as [Hin|Hin]; apply bool_decide_eq_true in Hin; tauto.
Defined.
